(** * pwn3 proxy: a shallow embedding of [tools/proxy] and its specification

    The development follows the layout of the Python sources:
    - [Python]   the fragment of the language and of its standard library that
                 the proxy relies on (bytes, slices, [struct], UTF-8, exceptions);
    - [helpers]  constants and the process-wide packet queue ([helpers.py]);
    - [parser]   the packet handlers and the top-level [parse] loop ([parser.py]);
    - [proxy]    [ProxyConnection]: open / stop / send / run ([proxy.py]);
    then the vocabulary of the properties ([wire], [relay]) and the
    properties themselves ([PythonFacts], [ParserSpec], [BackoffSpec],
    [DoubleSpec], [ProxySpec]). *)

From Stdlib Require Import List ZArith NArith Lia Bool String.
From Stdlib Require Import Strings.Byte.
From Stdlib Require Import Reals Lra.
From Stdlib Require Floats.PrimFloat Numbers.Cyclic.Int63.Uint63.
Import ListNotations.

Set Implicit Arguments.

(* ================================================================== *)
(** * Python *)
(* ================================================================== *)

Module Python.

(** [bytes] objects are immutable sequences of octets. *)
Definition bytes := list byte.

(** A [str] is a sequence of Unicode code points. *)
Definition str := list Z.

(** The numeric value of an octet. *)
Definition ord (b : byte) : Z := Z.of_N (Byte.to_N b).

(** [data[lo:hi]] and [data[lo:]] for non-negative bounds: slices never
    raise, they are clipped to the sequence. *)
Definition slice (lo hi : nat) (data : bytes) : bytes :=
  firstn (hi - lo) (skipn lo data).

Definition slice_from (lo : nat) (data : bytes) : bytes := skipn lo data.

Definition len (data : bytes) : nat := List.length data.

(** A literal [b'...'] of ASCII characters. *)
Definition b (s : string) : bytes := list_byte_of_string s.

Fixpoint bytes_eqb (x y : bytes) : bool :=
  match x, y with
  | [], [] => true
  | a :: x', c :: y' => Byte.eqb a c && bytes_eqb x' y'
  | _, _ => false
  end.

(** The exceptions the proxy code can meet. *)
Inductive exn : Type :=
| struct_error          (* struct.error: buffer of the wrong size, value out of range *)
| UnicodeDecodeError
| IndexError
| AttributeError        (* attribute access on None *)
| OSError
| Empty.                (* queue.Empty *)

Definition exn_eqb (a c : exn) : bool :=
  match a, c with
  | struct_error, struct_error
  | UnicodeDecodeError, UnicodeDecodeError
  | IndexError, IndexError
  | AttributeError, AttributeError
  | OSError, OSError
  | Empty, Empty => true
  | _, _ => false
  end.

(** Outcome of evaluating an expression or a statement. *)
Inductive result (A : Type) : Type :=
| Ok (a : A)
| Raise (e : exn).
Arguments Raise {A} e.

Definition rbind {A B} (r : result A) (k : A -> result B) : result B :=
  match r with
  | Ok a => k a
  | Raise e => Raise e
  end.

(** ** [struct]

    The formats of [parser.py] carry no byte-order prefix, hence use the
    host's native order and alignment; the game runs on little-endian
    hosts and the embedding fixes that order.  A C [float] is kept as the
    32-bit pattern read from the wire. *)

Record float32 : Type := F32 { f32_bits : Z }.

Fixpoint le_value (b : bytes) : Z :=
  match b with
  | [] => 0
  | x :: r => ord x + 256 * le_value r
  end.

(** [struct.unpack] raises [struct.error] unless the buffer has exactly
    the size of the format. *)
Definition unpack_uint (size : nat) (b : bytes) : result Z :=
  if Nat.eqb (len b) size then Ok (le_value b) else Raise struct_error.

Definition unpack_B : bytes -> result Z := unpack_uint 1.   (* 'B' *)
Definition unpack_H : bytes -> result Z := unpack_uint 2.   (* 'H' *)
Definition unpack_I : bytes -> result Z := unpack_uint 4.   (* 'I' *)

(** ['?']: any non-zero octet is [True]. *)
Definition unpack_bool (b : bytes) : result bool :=
  rbind (unpack_uint 1 b) (fun v => Ok (negb (v =? 0)%Z)).

(** ['h']: two's complement on 16 bits. *)
Definition to_signed16 (v : Z) : Z :=
  if (v <? 32768)%Z then v else (v - 65536)%Z.

(** ['fff'] *)
Definition unpack_fff (b : bytes) : result (float32 * float32 * float32) :=
  if Nat.eqb (len b) 12
  then Ok (F32 (le_value (slice 0 4 b)),
           F32 (le_value (slice 4 8 b)),
           F32 (le_value (slice 8 12 b)))
  else Raise struct_error.

(** ['Ih'] and ['IH']: the 16-bit field follows the 32-bit one without
    padding, 6 octets in all. *)
Definition unpack_Ih (b : bytes) : result (Z * Z) :=
  if Nat.eqb (len b) 6
  then Ok (le_value (slice 0 4 b), to_signed16 (le_value (slice 4 6 b)))
  else Raise struct_error.

Definition unpack_IH (b : bytes) : result (Z * Z) :=
  if Nat.eqb (len b) 6
  then Ok (le_value (slice 0 4 b), le_value (slice 4 6 b))
  else Raise struct_error.

(** [struct.pack]: an unsigned field of [size] octets; [struct.error] when
    the value does not fit. *)
Definition byte_of (v : Z) : byte :=
  match Byte.of_N (Z.to_N (v mod 256)) with
  | Some b => b
  | None => x00
  end.

Fixpoint le_bytes (size : nat) (v : Z) : bytes :=
  match size with
  | O => []
  | S n => byte_of v :: le_bytes n (v / 256)
  end.

Definition be_bytes (size : nat) (v : Z) : bytes := rev (le_bytes size v).

Definition fits (size : nat) (v : Z) : bool :=
  ((0 <=? v) && (v <? 256 ^ Z.of_nat size))%Z.

(** [struct.pack('=HI', a, b)]: native order, standard sizes, no padding. *)
Definition pack_eq_HI (a b : Z) : result bytes :=
  if fits 2 a && fits 4 b then Ok (le_bytes 2 a ++ le_bytes 4 b)
  else Raise struct_error.

(** [struct.pack('>H', a)]: big-endian. *)
Definition pack_be_H (a : Z) : result bytes :=
  if fits 2 a then Ok (be_bytes 2 a) else Raise struct_error.

(** ** [bytes.decode('utf-8')]

    The strict decoder: shortest form only, no surrogates, nothing above
    U+10FFFF; any other sequence raises [UnicodeDecodeError]. *)

Definition between (lo hi : Z) (b : byte) : bool :=
  ((lo <=? ord b) && (ord b <=? hi))%Z.

Definition continuation (b : byte) : bool := between 128 191 b.

Definition low6 (b : byte) : Z := (ord b - 128)%Z.

(** Admissible range of the second octet of a 3- or 4-octet sequence. *)
Definition second_lo (lead : byte) : Z :=
  if (ord lead =? 224)%Z then 160          (* E0: A0..BF *)
  else if (ord lead =? 240)%Z then 144     (* F0: 90..BF *)
  else 128.

Definition second_hi (lead : byte) : Z :=
  if (ord lead =? 237)%Z then 159          (* ED: 80..9F *)
  else if (ord lead =? 244)%Z then 143     (* F4: 80..8F *)
  else 191.

Fixpoint decode (b : bytes) : result str :=
  match b with
  | [] => Ok []
  | b0 :: r0 =>
      if (ord b0 <? 128)%Z then
        rbind (decode r0) (fun s => Ok (ord b0 :: s))
      else if between 194 223 b0 then
        match r0 with
        | b1 :: r1 =>
            if continuation b1
            then rbind (decode r1)
                   (fun s => Ok (((ord b0 - 192) * 64 + low6 b1)%Z :: s))
            else Raise UnicodeDecodeError
        | _ => Raise UnicodeDecodeError
        end
      else if between 224 239 b0 then
        match r0 with
        | b1 :: b2 :: r2 =>
            if between (second_lo b0) (second_hi b0) b1 && continuation b2
            then rbind (decode r2)
                   (fun s => Ok (((ord b0 - 224) * 4096
                                  + low6 b1 * 64 + low6 b2)%Z :: s))
            else Raise UnicodeDecodeError
        | _ => Raise UnicodeDecodeError
        end
      else if between 240 244 b0 then
        match r0 with
        | b1 :: b2 :: b3 :: r3 =>
            if between (second_lo b0) (second_hi b0) b1
               && continuation b2 && continuation b3
            then rbind (decode r3)
                   (fun s => Ok (((ord b0 - 240) * 262144 + low6 b1 * 4096
                                  + low6 b2 * 64 + low6 b3)%Z :: s))
            else Raise UnicodeDecodeError
        | _ => Raise UnicodeDecodeError
        end
      else Raise UnicodeDecodeError
  end.

(** [needle in hay] on strings. *)
Fixpoint startswith (needle hay : str) : bool :=
  match needle, hay with
  | [], _ => true
  | _ :: _, [] => false
  | a :: n', b :: h' => (a =? b)%Z && startswith n' h'
  end.

Fixpoint contains (needle hay : str) : bool :=
  startswith needle hay ||
  match hay with
  | [] => false
  | _ :: h' => contains needle h'
  end.

(** A string literal of ASCII characters. *)
Definition literal (s : string) : str :=
  map (fun b => ord b) (list_byte_of_string s).

(** ** [str.upper()]

    Every code point is replaced by its full upper-case mapping, which
    may be several code points long ([ß] gives [SS]); there is no
    dependence on the context.  The tables are those of Unicode 14.0,
    the version CPython 3.11 ships.  [upper_runs] lists the single
    code point mappings as [(first, last, step, offset)]: every
    [step]-th code point from [first] to [last] is moved by [offset];
    [upper_special] lists the longer mappings. *)

Definition upper_runs : list (Z * Z * Z * Z) :=
  [(97, 122, 1, (-32)); (181, 181, 1, 743); (224, 246, 1, (-32));
    (248, 254, 1, (-32)); (255, 255, 1, 121); (257, 303, 2, (-1));
    (305, 305, 1, (-232)); (307, 311, 2, (-1)); (314, 328, 2, (-1));
    (331, 375, 2, (-1)); (378, 382, 2, (-1)); (383, 383, 1, (-300));
    (384, 384, 1, 195); (387, 389, 2, (-1)); (392, 392, 1, (-1));
    (396, 396, 1, (-1)); (402, 402, 1, (-1)); (405, 405, 1, 97);
    (409, 409, 1, (-1)); (410, 410, 1, 163); (414, 414, 1, 130);
    (417, 421, 2, (-1)); (424, 424, 1, (-1)); (429, 429, 1, (-1));
    (432, 432, 1, (-1)); (436, 438, 2, (-1)); (441, 441, 1, (-1));
    (445, 445, 1, (-1)); (447, 447, 1, 56); (453, 453, 1, (-1));
    (454, 454, 1, (-2)); (456, 456, 1, (-1)); (457, 457, 1, (-2));
    (459, 459, 1, (-1)); (460, 460, 1, (-2)); (462, 476, 2, (-1));
    (477, 477, 1, (-79)); (479, 495, 2, (-1)); (498, 498, 1, (-1));
    (499, 499, 1, (-2)); (501, 501, 1, (-1)); (505, 543, 2, (-1));
    (547, 563, 2, (-1)); (572, 572, 1, (-1)); (575, 576, 1, 10815);
    (578, 578, 1, (-1)); (583, 591, 2, (-1)); (592, 592, 1, 10783);
    (593, 593, 1, 10780); (594, 594, 1, 10782); (595, 595, 1, (-210));
    (596, 596, 1, (-206)); (598, 599, 1, (-205)); (601, 601, 1, (-202));
    (603, 603, 1, (-203)); (604, 604, 1, 42319); (608, 608, 1, (-205));
    (609, 609, 1, 42315); (611, 611, 1, (-207)); (613, 613, 1, 42280);
    (614, 614, 1, 42308); (616, 616, 1, (-209)); (617, 617, 1, (-211));
    (618, 618, 1, 42308); (619, 619, 1, 10743); (620, 620, 1, 42305);
    (623, 623, 1, (-211)); (625, 625, 1, 10749); (626, 626, 1, (-213));
    (629, 629, 1, (-214)); (637, 637, 1, 10727); (640, 640, 1, (-218));
    (642, 642, 1, 42307); (643, 643, 1, (-218)); (647, 647, 1, 42282);
    (648, 648, 1, (-218)); (649, 649, 1, (-69)); (650, 651, 1, (-217));
    (652, 652, 1, (-71)); (658, 658, 1, (-219)); (669, 669, 1, 42261);
    (670, 670, 1, 42258); (837, 837, 1, 84); (881, 883, 2, (-1));
    (887, 887, 1, (-1)); (891, 893, 1, 130); (940, 940, 1, (-38));
    (941, 943, 1, (-37)); (945, 961, 1, (-32)); (962, 962, 1, (-31));
    (963, 971, 1, (-32)); (972, 972, 1, (-64)); (973, 974, 1, (-63));
    (976, 976, 1, (-62)); (977, 977, 1, (-57)); (981, 981, 1, (-47));
    (982, 982, 1, (-54)); (983, 983, 1, (-8)); (985, 1007, 2, (-1));
    (1008, 1008, 1, (-86)); (1009, 1009, 1, (-80)); (1010, 1010, 1, 7);
    (1011, 1011, 1, (-116)); (1013, 1013, 1, (-96)); (1016, 1016, 1, (-1));
    (1019, 1019, 1, (-1)); (1072, 1103, 1, (-32)); (1104, 1119, 1, (-80));
    (1121, 1153, 2, (-1)); (1163, 1215, 2, (-1)); (1218, 1230, 2, (-1));
    (1231, 1231, 1, (-15)); (1233, 1327, 2, (-1)); (1377, 1414, 1, (-48));
    (4304, 4346, 1, 3008); (4349, 4351, 1, 3008); (5112, 5117, 1, (-8));
    (7296, 7296, 1, (-6254)); (7297, 7297, 1, (-6253));
    (7298, 7298, 1, (-6244)); (7299, 7300, 1, (-6242));
    (7301, 7301, 1, (-6243)); (7302, 7302, 1, (-6236));
    (7303, 7303, 1, (-6181)); (7304, 7304, 1, 35266); (7545, 7545, 1, 35332);
    (7549, 7549, 1, 3814); (7566, 7566, 1, 35384); (7681, 7829, 2, (-1));
    (7835, 7835, 1, (-59)); (7841, 7935, 2, (-1)); (7936, 7943, 1, 8);
    (7952, 7957, 1, 8); (7968, 7975, 1, 8); (7984, 7991, 1, 8);
    (8000, 8005, 1, 8); (8017, 8023, 2, 8); (8032, 8039, 1, 8);
    (8048, 8049, 1, 74); (8050, 8053, 1, 86); (8054, 8055, 1, 100);
    (8056, 8057, 1, 128); (8058, 8059, 1, 112); (8060, 8061, 1, 126);
    (8112, 8113, 1, 8); (8126, 8126, 1, (-7205)); (8144, 8145, 1, 8);
    (8160, 8161, 1, 8); (8165, 8165, 1, 7); (8526, 8526, 1, (-28));
    (8560, 8575, 1, (-16)); (8580, 8580, 1, (-1)); (9424, 9449, 1, (-26));
    (11312, 11359, 1, (-48)); (11361, 11361, 1, (-1));
    (11365, 11365, 1, (-10795)); (11366, 11366, 1, (-10792));
    (11368, 11372, 2, (-1)); (11379, 11379, 1, (-1)); (11382, 11382, 1, (-1));
    (11393, 11491, 2, (-1)); (11500, 11502, 2, (-1)); (11507, 11507, 1, (-1));
    (11520, 11557, 1, (-7264)); (11559, 11559, 1, (-7264));
    (11565, 11565, 1, (-7264)); (42561, 42605, 2, (-1));
    (42625, 42651, 2, (-1)); (42787, 42799, 2, (-1)); (42803, 42863, 2, (-1));
    (42874, 42876, 2, (-1)); (42879, 42887, 2, (-1)); (42892, 42892, 1, (-1));
    (42897, 42899, 2, (-1)); (42900, 42900, 1, 48); (42903, 42921, 2, (-1));
    (42933, 42947, 2, (-1)); (42952, 42954, 2, (-1)); (42961, 42961, 1, (-1));
    (42967, 42969, 2, (-1)); (42998, 42998, 1, (-1));
    (43859, 43859, 1, (-928)); (43888, 43967, 1, (-38864));
    (65345, 65370, 1, (-32)); (66600, 66639, 1, (-40));
    (66776, 66811, 1, (-40)); (66967, 66977, 1, (-39));
    (66979, 66993, 1, (-39)); (66995, 67001, 1, (-39));
    (67003, 67004, 1, (-39)); (68800, 68850, 1, (-64));
    (71872, 71903, 1, (-32)); (93792, 93823, 1, (-32));
    (125218, 125251, 1, (-34))]%Z.

Definition upper_special : list (Z * list Z) :=
  [(223, [83; 83]); (329, [700; 78]); (496, [74; 780]);
    (912, [921; 776; 769]); (944, [933; 776; 769]); (1415, [1333; 1362]);
    (7830, [72; 817]); (7831, [84; 776]); (7832, [87; 778]);
    (7833, [89; 778]); (7834, [65; 702]); (8016, [933; 787]);
    (8018, [933; 787; 768]); (8020, [933; 787; 769]); (8022, [933; 787; 834]);
    (8064, [7944; 921]); (8065, [7945; 921]); (8066, [7946; 921]);
    (8067, [7947; 921]); (8068, [7948; 921]); (8069, [7949; 921]);
    (8070, [7950; 921]); (8071, [7951; 921]); (8072, [7944; 921]);
    (8073, [7945; 921]); (8074, [7946; 921]); (8075, [7947; 921]);
    (8076, [7948; 921]); (8077, [7949; 921]); (8078, [7950; 921]);
    (8079, [7951; 921]); (8080, [7976; 921]); (8081, [7977; 921]);
    (8082, [7978; 921]); (8083, [7979; 921]); (8084, [7980; 921]);
    (8085, [7981; 921]); (8086, [7982; 921]); (8087, [7983; 921]);
    (8088, [7976; 921]); (8089, [7977; 921]); (8090, [7978; 921]);
    (8091, [7979; 921]); (8092, [7980; 921]); (8093, [7981; 921]);
    (8094, [7982; 921]); (8095, [7983; 921]); (8096, [8040; 921]);
    (8097, [8041; 921]); (8098, [8042; 921]); (8099, [8043; 921]);
    (8100, [8044; 921]); (8101, [8045; 921]); (8102, [8046; 921]);
    (8103, [8047; 921]); (8104, [8040; 921]); (8105, [8041; 921]);
    (8106, [8042; 921]); (8107, [8043; 921]); (8108, [8044; 921]);
    (8109, [8045; 921]); (8110, [8046; 921]); (8111, [8047; 921]);
    (8114, [8122; 921]); (8115, [913; 921]); (8116, [902; 921]);
    (8118, [913; 834]); (8119, [913; 834; 921]); (8124, [913; 921]);
    (8130, [8138; 921]); (8131, [919; 921]); (8132, [905; 921]);
    (8134, [919; 834]); (8135, [919; 834; 921]); (8140, [919; 921]);
    (8146, [921; 776; 768]); (8147, [921; 776; 769]); (8150, [921; 834]);
    (8151, [921; 776; 834]); (8162, [933; 776; 768]); (8163, [933; 776; 769]);
    (8164, [929; 787]); (8166, [933; 834]); (8167, [933; 776; 834]);
    (8178, [8186; 921]); (8179, [937; 921]); (8180, [911; 921]);
    (8182, [937; 834]); (8183, [937; 834; 921]); (8188, [937; 921]);
    (64256, [70; 70]); (64257, [70; 73]); (64258, [70; 76]);
    (64259, [70; 70; 73]); (64260, [70; 70; 76]); (64261, [83; 84]);
    (64262, [83; 84]); (64275, [1348; 1350]); (64276, [1348; 1333]);
    (64277, [1348; 1339]); (64278, [1358; 1350]); (64279, [1348; 1341])]%Z.

Fixpoint upper_lookup_special (c : Z) (t : list (Z * list Z))
  : option (list Z) :=
  match t with
  | [] => None
  | (k, u) :: t' => if (c =? k)%Z then Some u else upper_lookup_special c t'
  end.

Fixpoint upper_lookup_run (c : Z) (t : list (Z * Z * Z * Z)) : option Z :=
  match t with
  | [] => None
  | (first, last, step, offset) :: t' =>
      if ((first <=? c) && (c <=? last) && ((c - first) mod step =? 0))%Z
      then Some (c + offset)%Z
      else upper_lookup_run c t'
  end.

Definition upper_code (c : Z) : list Z :=
  match upper_lookup_special c upper_special with
  | Some u => u
  | None =>
      match upper_lookup_run c upper_runs with
      | Some u => [u]
      | None => [c]
      end
  end.

Definition upper (s : str) : str := flat_map upper_code s.

End Python.

(* ================================================================== *)
(** * helpers.py *)
(* ================================================================== *)

Module helpers.
Import Python.

Definition MASTER_PORT : Z := 3333.
Definition GAME_PORT_RANGE : list Z := [3000; 3001; 3002; 3003; 3004]%Z.
Definition BUFSIZE : nat := 4096.

(** [class ConnectionType(Enum)] *)
Inductive ConnectionType : Type := CLIENT | SERVER.

Definition ConnectionType_eqb (a b : ConnectionType) : bool :=
  match a, b with
  | CLIENT, CLIENT | SERVER, SERVER => true
  | _, _ => false
  end.

(** [PACKET_QUEUE = Queue(-1)]: an unbounded FIFO of raw packets. *)
Definition Queue := list bytes.

Definition put (q : Queue) (packet : bytes) : Queue := q ++ [packet].

Definition get_nowait (q : Queue) : result (bytes * Queue) :=
  match q with
  | [] => Raise Empty
  | packet :: q' => Ok (packet, q')
  end.

End helpers.

(* ================================================================== *)
(** * parser.py *)
(* ================================================================== *)

Module parser.
Import Python helpers.

(** The text a handler returns.  Each constructor stands for one f-string
    of [parser.py] together with the values interpolated in it; the
    rendering of numbers as decimal text is left out. *)
Inductive message : Type :=
| msg_empty
| msg_position (x y z : float32)
| msg_jump (jumping : bool)
| msg_sneak (sneaking : bool)
| msg_slot (new_slot : Z)
| msg_shoot (name : str) (direction : float32 * float32 * float32)
| msg_chat (text : str)
| msg_actor_drop (item_id : Z) (item_name : str) (x y z : float32)
                 (auto_looting : bool)
| msg_region (region_name : str)
| msg_item_acquire (amount : Z) (item_name : str)
| msg_item_pickup (item_id : Z)
| msg_reloaded (weapon_name : str) (ammo_count : Z) (ammo_name : str)
| msg_need_reload
| msg_health (actor_id hp : Z)
| msg_mana (mana : Z)
| msg_state (actor_id : Z) (state : str)
| msg_attack (attacker_id : Z) (attack : str) (victim_id : Z)
| msg_loaded_ammo (weapon_name : str) (loaded_ammo : Z) (auto_reloading : bool).

(** Lines written to standard output by this module. *)
Inductive line : Type :=
| line_message (direction : string) (m : message)   (* [direction] message *)
| line_unknown (pid data : bytes).                   (* [pid] - data *)

(** The state a handler can touch: the shared queue and the console. *)
Record world : Type := World { PACKET_QUEUE : Queue; stdout : list line }.

(** Statements: they read and update the world and may raise; what was
    done before an exception stays done. *)
Definition M (A : Type) : Type := world -> result A * world.

Definition ret {A} (a : A) : M A := fun w => (Ok a, w).

Definition bind {A B} (c : M A) (k : A -> M B) : M B :=
  fun w =>
    match c w with
    | (Ok a, w') => k a w'
    | (Raise e, w') => (Raise e, w')
    end.

Definition lift {A} (r : result A) : M A := fun w => (r, w).

Declare Scope py_scope.
Delimit Scope py_scope with py.
Notation "x <- c ;; k" := (bind c (fun x => k))
  (at level 61, c at next level, right associativity) : py_scope.
Notation "' pat <- c ;; k" := (bind c (fun x => match x with pat => k end))
  (at level 61, pat pattern, c at next level, right associativity) : py_scope.
Notation "c ;;; k" := (bind c (fun _ => k))
  (at level 61, right associativity) : py_scope.
Local Open Scope py_scope.

Definition print (l : line) : M unit :=
  fun w => (Ok tt, {| PACKET_QUEUE := PACKET_QUEUE w; stdout := stdout w ++ [l] |}).

(** [helpers.PACKET_QUEUE.put(packet)] *)
Definition PACKET_QUEUE_put (packet : bytes) : M unit :=
  fun w => (Ok tt, {| PACKET_QUEUE := put (PACKET_QUEUE w) packet;
                      stdout := stdout w |}).

(** [data[i]] *)
Definition index (data : bytes) (i : nat) : result byte :=
  match nth_error data i with
  | Some b => Ok b
  | None => Raise IndexError
  end.

Definition DIRECTION_FORMAT (origin : ConnectionType) : string :=
  match origin with
  | CLIENT => "-->>"
  | SERVER => "<<--"
  end.

Definition NO_PRINT : list string :=
  ["handle_ack"; "handle_position"; "handle_ps"; "handle_mana"]%string.

(** The [@format] decorator: run the handler, print its message unless
    the handler is listed in [NO_PRINT], return the remaining data. *)
Definition format (name : string) (func : bytes -> M (bytes * message))
  : bytes -> ConnectionType -> M bytes :=
  fun data origin =>
    let direction := DIRECTION_FORMAT origin in
    ' (data', message) <- func data ;;
    (if existsb (String.eqb name) NO_PRINT then ret tt
     else print (line_message direction message)) ;;;
    ret data'.

Definition handle_ack (data : bytes) : M (bytes * message) :=
  ret (data, msg_empty).

Definition handle_position (data : bytes) : M (bytes * message) :=
  ' (x, y, z) <- lift (unpack_fff (slice 0 (3 * 4) data)) ;;
  ret (slice_from 20 data, msg_position x y z).

Definition handle_jump (data : bytes) : M (bytes * message) :=
  jumping <- lift (unpack_bool (slice 0 1 data)) ;;
  ret (slice_from 1 data, msg_jump jumping).

Definition handle_sneak (data : bytes) : M (bytes * message) :=
  v <- lift (unpack_bool (slice 0 1 data)) ;;
  let sneaking := negb v in
  ret (slice_from 1 data, msg_sneak sneaking).

Definition handle_slot_select (data : bytes) : M (bytes * message) :=
  new_slot <- lift (unpack_B (slice 0 1 data)) ;;
  ret (slice_from 1 data, msg_slot new_slot).

Definition handle_shoot (data : bytes) : M (bytes * message) :=
  v <- lift (unpack_H (slice 0 2 data)) ;;
  let length := Z.to_nat v in
  let name := slice 2 (length + 2) data in
  direction <- lift (unpack_fff (slice (length + 2) (length + 2 + 12) data)) ;;
  name_text <- lift (decode name) ;;
  ret (slice_from (2 + length) data, msg_shoot name_text direction).

Definition handle_chat (data : bytes) : M (bytes * message) :=
  v <- lift (unpack_H (slice 0 2 data)) ;;
  let length := Z.to_nat v in
  text <- lift (decode (slice 2 (2 + length) data)) ;;
  ret (slice_from (2 + length) data, msg_chat text).

Definition handle_actor_drop (data : bytes) : M (bytes * message) :=
  item_id <- lift (unpack_I (slice 0 4 data)) ;;
  unknown <- lift (unpack_I (slice 4 8 data)) ;;
  unknown2 <- lift (index data 9) ;;
  v <- lift (unpack_H (slice 9 11 data)) ;;
  let item_name_length := Z.to_nat v in
  item_name <- lift (decode (slice 11 (11 + item_name_length) data)) ;;
  ' (x, y, z) <- lift (unpack_fff (slice (11 + item_name_length)
                                         (11 + item_name_length + 3 * 4) data)) ;;
  let rest := slice_from (11 + item_name_length + 3 * 4) data in
  if contains (literal "Drop") item_name then
    packet <- lift (pack_eq_HI 0x6565 item_id) ;;
    PACKET_QUEUE_put packet ;;;
    ret (rest, msg_actor_drop item_id item_name x y z true)
  else
    ret (rest, msg_actor_drop item_id item_name x y z false).

Definition handle_region_change (data : bytes) : M (bytes * message) :=
  v <- lift (unpack_H (slice 0 2 data)) ;;
  let region_name_length := Z.to_nat v in
  let region_name := slice 2 (2 + region_name_length) data in
  text <- lift (decode region_name) ;;
  ret (slice_from (2 + region_name_length) data, msg_region (upper text)).

Definition handle_item_acquire (data : bytes) : M (bytes * message) :=
  v <- lift (unpack_H (slice 0 2 data)) ;;
  let item_name_length := Z.to_nat v in
  item_name <- lift (decode (slice 2 (2 + item_name_length) data)) ;;
  amount <- lift (unpack_I (slice (2 + item_name_length)
                                  (2 + item_name_length + 4) data)) ;;
  ret (slice_from (2 + item_name_length + 4) data,
       msg_item_acquire amount item_name).

Definition handle_item_pickup (data : bytes) : M (bytes * message) :=
  item_id <- lift (unpack_I (slice 0 4 data)) ;;
  ret (slice_from 4 data, msg_item_pickup item_id).

(** [try: body except e0: handler] *)
Definition try_except {A} (body : M A) (e0 : exn) (handler : M A) : M A :=
  fun w =>
    match body w with
    | (Ok a, w') => (Ok a, w')
    | (Raise e, w') => if exn_eqb e e0 then handler w' else (Raise e, w')
    end.

Definition handle_reload (data : bytes) : M (bytes * message) :=
  ' (message, rdata) <-
    try_except
      (v <- lift (unpack_H (slice 0 2 data)) ;;
       let weapon_name_length := Z.to_nat v in
       weapon_name <- lift (decode (slice 2 (2 + weapon_name_length) data)) ;;
       v' <- lift (unpack_H (slice (2 + weapon_name_length)
                                   (2 + weapon_name_length + 2) data)) ;;
       let ammo_name_length := Z.to_nat v' in
       ammo_name <- lift (decode (slice (2 + weapon_name_length + 2)
                                        (2 + weapon_name_length + 2
                                         + ammo_name_length) data)) ;;
       ammo_count <- lift (unpack_I
                             (slice (2 + weapon_name_length + 2 + ammo_name_length)
                                    (2 + weapon_name_length + 2 + ammo_name_length + 4)
                                    data)) ;;
       ret (msg_reloaded weapon_name ammo_count ammo_name,
            slice_from (2 + weapon_name_length + 2 + ammo_name_length + 4) data))
      UnicodeDecodeError
      (* Empty reload packet is sent when we need to reload *)
      (ret (msg_need_reload, data)) ;;
  ret (rdata, message).

Definition handle_health (data : bytes) : M (bytes * message) :=
  ' (actor_id, hp) <- lift (unpack_Ih (slice 0 6 data)) ;;
  ret (slice_from 6 data, msg_health actor_id hp).

Definition handle_mana (data : bytes) : M (bytes * message) :=
  mana <- lift (unpack_H (slice 0 2 data)) ;;
  ret (slice_from 2 data, msg_mana mana).

Definition handle_ps (data : bytes) : M (bytes * message) :=
  ret (slice_from 28 data, msg_empty).

Definition handle_state (data : bytes) : M (bytes * message) :=
  ' (actor_id, v) <- lift (unpack_IH (slice 0 6 data)) ;;
  let state_length := Z.to_nat v in
  state <- lift (decode (slice 6 (6 + state_length) data)) ;;
  ret (slice_from (6 + state_length) data, msg_state actor_id state).

Definition handle_attack (data : bytes) : M (bytes * message) :=
  ' (attacker_id, v) <- lift (unpack_IH (slice 0 6 data)) ;;
  let attack_length := Z.to_nat v in
  attack <- lift (decode (slice 6 (6 + attack_length) data)) ;;
  victim_id <- lift (unpack_I (slice (6 + attack_length)
                                     (6 + attack_length + 4) data)) ;;
  ret (slice_from (6 + attack_length + 4) data,
       msg_attack attacker_id attack victim_id).

Definition handle_loaded_ammo (data : bytes) : M (bytes * message) :=
  v <- lift (unpack_H (slice 0 2 data)) ;;
  let weapon_name_length := Z.to_nat v in
  weapon_name <- lift (decode (slice 2 (2 + weapon_name_length) data)) ;;
  loaded_ammo <- lift (unpack_I (slice (2 + weapon_name_length)
                                       (2 + weapon_name_length + 4) data)) ;;
  let rest := slice_from (2 + weapon_name_length + 4) data in
  if (loaded_ammo =? 0)%Z then
    packet <- lift (pack_be_H 0x726c) ;;
    PACKET_QUEUE_put packet ;;;
    ret (rest, msg_loaded_ammo weapon_name loaded_ammo true)
  else
    ret (rest, msg_loaded_ammo weapon_name loaded_ammo false).

(** Functions to handle each packet ID (keys). *)
Definition PACKET_HANDLERS : list (bytes * (bytes -> ConnectionType -> M bytes)) :=
  [ ([x00; x00], format "handle_ack" handle_ack);
    (b "mv", format "handle_position" handle_position);
    (b "jp", format "handle_jump" handle_jump);
    (b "rn", format "handle_sneak" handle_sneak);
    (b "s=", format "handle_slot_select" handle_slot_select);
    (b "*i", format "handle_shoot" handle_shoot);
    (b "#*", format "handle_chat" handle_chat);
    (b "mk", format "handle_actor_drop" handle_actor_drop);
    (b "ch", format "handle_region_change" handle_region_change);
    (b "cp", format "handle_item_acquire" handle_item_acquire);
    (b "ee", format "handle_item_pickup" handle_item_pickup);
    (b "rl", format "handle_reload" handle_reload);
    (b "++", format "handle_health" handle_health);
    (b "ma", format "handle_mana" handle_mana);
    (b "ps", format "handle_ps" handle_ps);
    (b "st", format "handle_state" handle_state);
    (b "tr", format "handle_attack" handle_attack);
    (b "la", format "handle_loaded_ammo" handle_loaded_ammo) ].

(** [PACKET_HANDLERS.get(pid, None)] *)
Fixpoint get {V} (d : list (bytes * V)) (key : bytes) : option V :=
  match d with
  | [] => None
  | (k, v) :: d' => if bytes_eqb k key then Some v else get d' key
  end.

(** One turn of the [while] loop of [parse], on the loop variables
    [data] and [reads]. *)
Definition loop_body (origin : ConnectionType) (data : bytes) (reads : nat)
  : M (bytes * nat) :=
  let reads := reads + 1 in
  let pid := slice 0 2 data in
  match get PACKET_HANDLERS pid with
  | Some handler =>
      (* Parse data without packet id prepended *)
      data' <- handler (slice_from 2 data) origin ;;
      ret (data', reads)
  | None =>
      (* This packet doesn't have a handler: print it once for inspection *)
      (if reads <=? 1 then print (line_unknown pid data) else ret tt) ;;;
      (* Remove the first byte and try parsing again later *)
      ret (slice_from 1 data, reads)
  end.

(** [while len(data) >= 2: ...], unfolded at most [fuel] times.  The
    result is the value of the loop variables on exit, or [None] when the
    fuel ran out before the loop condition failed. *)
Fixpoint while_loop (fuel : nat) (origin : ConnectionType)
         (data : bytes) (reads : nat) : M (option (bytes * nat)) :=
  if 2 <=? len data then
    match fuel with
    | O => ret None
    | S fuel' =>
        ' (data', reads') <- loop_body origin data reads ;;
        while_loop fuel' origin data' reads'
    end
  else ret (Some (data, reads)).

(** [parse(data, port, origin)].  Every turn of the loop shortens [data]
    (see [loop_body_shrinks]), so [len data] turns are enough. *)
Definition parse (data : bytes) (port : Z) (origin : ConnectionType)
  : M (option unit) :=
  (* Ignore packets from master server *)
  if (port =? MASTER_PORT)%Z then ret (Some tt)
  else
    r <- while_loop (len data) origin data 0 ;;
    ret (option_map (fun _ => tt) r).

End parser.

(* ================================================================== *)
(** * proxy.py *)
(* ================================================================== *)

Module proxy.
Import Python helpers.

(** ** Sockets *)

Inductive sock_status : Type :=
| unconnected     (* socket.socket(...): created, no peer yet *)
| connected      (* accept() returned it, or connect() succeeded *)
| reset          (* the connection is gone on the other end *)
| closed.        (* shut down and closed by the proxy *)

(** A socket and the chunks written to it with [sendall], oldest first. *)
Record socket : Type := Socket { status : sock_status; sent : list bytes }.

(** ** [class ProxyConnection] *)

Record ProxyConnection : Type := Connection {
  _stop_event : bool;
  _conn_event : bool;
  _retries : nat;
  _sock : option socket;
  _conn_type : ConnectionType;
  port : Z
}.

(** [ProxyServer.run] builds the two connections of a generation and hooks
    them up as each other's sink:
      [broker.dest_conn = listener; listener.dest_conn = broker]. *)
Inductive conn_id : Type := listener | broker.

Definition dest_conn (self : conn_id) : conn_id :=
  match self with
  | listener => broker
  | broker => listener
  end.

(** The objects shared by the threads of one generation: both connections
    and the module state of [helpers] and [parser]. *)
Record state : Type := State {
  the_listener : ProxyConnection;
  the_broker : ProxyConnection;
  process : parser.world
}.

Definition conn (s : state) (c : conn_id) : ProxyConnection :=
  match c with
  | listener => the_listener s
  | broker => the_broker s
  end.

Definition set_conn (s : state) (c : conn_id) (v : ProxyConnection) : state :=
  match c with
  | listener => {| the_listener := v; the_broker := the_broker s;
                   process := process s |}
  | broker => {| the_listener := the_listener s; the_broker := v;
                 process := process s |}
  end.

Definition with_stop_event (v : ProxyConnection) (x : bool) :=
  {| _stop_event := x; _conn_event := _conn_event v; _retries := _retries v;
     _sock := _sock v; _conn_type := _conn_type v; port := port v |}.

Definition with_conn_event (v : ProxyConnection) (x : bool) :=
  {| _stop_event := _stop_event v; _conn_event := x; _retries := _retries v;
     _sock := _sock v; _conn_type := _conn_type v; port := port v |}.

Definition with_retries (v : ProxyConnection) (x : nat) :=
  {| _stop_event := _stop_event v; _conn_event := _conn_event v; _retries := x;
     _sock := _sock v; _conn_type := _conn_type v; port := port v |}.

Definition with_sock (v : ProxyConnection) (x : option socket) :=
  {| _stop_event := _stop_event v; _conn_event := _conn_event v;
     _retries := _retries v; _sock := x; _conn_type := _conn_type v;
     port := port v |}.

(** [ProxyConnection.__init__] *)
Definition init (conn_type : ConnectionType) (p : Z) : ProxyConnection :=
  {| _stop_event := false; _conn_event := false; _retries := 0;
     _sock := None; _conn_type := conn_type; port := p |}.

(** [retry_interval], over the real numbers: the source evaluates the
    same expression in double precision. *)
Definition retry_interval (retries : nat) : R :=
  (20 * (1 / (1 + Rpower (exp 1) (- INR retries / 10)) - 0.4))%R.

(** The same expression in double precision, as the source evaluates
    it.  [e_pow x] stands for [math.e ** x], which the C library
    provides; [-self._retries / 10] negates an [int] and divides it by
    another, which for counters below 2^53 is the quotient of the two
    converted numbers. *)
Module double.
Import PrimFloat.
#[local] Set Warnings "-inexact-float".

Definition float_of_int (z : Z) : PrimFloat.float :=
  if (z <? 0)%Z
  then PrimFloat.opp (PrimFloat.of_uint63 (Uint63.of_Z (- z)))
  else PrimFloat.of_uint63 (Uint63.of_Z z).

Definition retry_interval_double (e_pow : PrimFloat.float -> PrimFloat.float)
           (retries : nat) : PrimFloat.float :=
  PrimFloat.mul 20%float
    (PrimFloat.sub
       (PrimFloat.div 1%float
          (PrimFloat.add 1%float
             (e_pow (PrimFloat.div (float_of_int (- Z.of_nat retries))
                                   10%float))))
       0.4%float).

End double.

(** ** Effects *)

(** Lines written to standard output by this module. *)
Inductive pline : Type :=
| line_refused (interval : R)
| line_new_connection (c : conn_id)
| line_stop_error (c : conn_id)
| line_send_error (c : conn_id)
| line_failed_parse (reason : exn) (data : bytes)
| line_exiting (c : conn_id).

(** What a thread does to the outside world, in program order. *)
Inductive event : Type :=
| ev_print (l : pline)
| ev_listen (c : conn_id)                        (* bind + listen *)
| ev_accept (c : conn_id)                        (* sock.accept() returned *)
| ev_connect (c : conn_id) (ok : bool)           (* c._sock.connect(...) *)
| ev_sleep (interval : R)
| ev_conn_set (c : conn_id)                      (* c._conn_event.set() *)
| ev_recv (c : conn_id) (data : bytes)           (* c._sock.recv(BUFSIZE) *)
| ev_sendall (owner : conn_id) (data : bytes) (ok : bool)
                                                 (* owner._sock.sendall(data) *)
| ev_shutdown (owner : conn_id) (ok : bool)      (* owner._sock.shutdown(...) *)
| ev_close (owner : conn_id)                     (* owner._sock.close() *)
| ev_parse (data : bytes).                       (* parser.parse(data, ...) *)

(** How a call ends: it returns, raises, stays blocked on an event that
    is not set, or has not finished within the unfoldings allowed. *)
Inductive outcome (A : Type) : Type :=
| Returns (a : A)
| Raises (e : exn)
| Blocks
| Unfinished.
Arguments Raises {A} e.
Arguments Blocks {A}.
Arguments Unfinished {A}.

Definition Eff (A : Type) : Type := state -> outcome A * state * list event.

Definition ret {A} (a : A) : Eff A := fun s => (Returns a, s, []).

Definition bind {A B} (c : Eff A) (k : A -> Eff B) : Eff B :=
  fun s =>
    match c s with
    | (Returns a, s1, t1) =>
        match k a s1 with
        | (o, s2, t2) => (o, s2, t1 ++ t2)
        end
    | (Raises e, s1, t1) => (Raises e, s1, t1)
    | (Blocks, s1, t1) => (Blocks, s1, t1)
    | (Unfinished, s1, t1) => (Unfinished, s1, t1)
    end.

Declare Scope eff_scope.
Delimit Scope eff_scope with eff.
Notation "x <- c ;; k" := (bind c (fun x => k))
  (at level 61, c at next level, right associativity) : eff_scope.
Notation "c ;;; k" := (bind c (fun _ => k))
  (at level 61, right associativity) : eff_scope.
Local Open Scope eff_scope.

Definition raise {A} (e : exn) : Eff A := fun s => (Raises e, s, []).

Definition emit (e : event) : Eff unit := fun s => (Returns tt, s, [e]).

Definition print (l : pline) : Eff unit := emit (ev_print l).

Definition update (c : conn_id) (f : ProxyConnection -> ProxyConnection)
  : Eff unit :=
  fun s => (Returns tt, set_conn s c (f (conn s c)), []).

(** [try: body except <matching>: handler] *)
Definition try_except {A} (body : Eff A) (matching : exn -> bool)
           (handler : exn -> Eff A) : Eff A :=
  fun s =>
    match body s with
    | (Raises e, s1, t1) =>
        if matching e then
          match handler e s1 with
          | (o, s2, t2) => (o, s2, t1 ++ t2)
          end
        else (Raises e, s1, t1)
    | r => r
    end.

(** [try: body finally: final]: [final] runs however [body] ends; a
    pending exception is raised again afterwards unless [final] itself
    does not return. *)
Definition try_finally {A} (body : Eff A) (final : Eff unit) : Eff A :=
  fun s =>
    match body s with
    | (Blocks, s1, t1) => (Blocks, s1, t1)
    | (Unfinished, s1, t1) => (Unfinished, s1, t1)
    | (o, s1, t1) =>
        match final s1 with
        | (Returns _, s2, t2) => (o, s2, t1 ++ t2)
        | (Raises e, s2, t2) => (Raises e, s2, t1 ++ t2)
        | (Blocks, s2, t2) => (Blocks, s2, t1 ++ t2)
        | (Unfinished, s2, t2) => (Unfinished, s2, t1 ++ t2)
        end
    end.

Definition is_OSError (e : exn) : bool := exn_eqb e OSError.
Definition any_Exception (e : exn) : bool := true.

(** ** Methods *)

Definition is_running (c : conn_id) (s : state) : bool :=
  negb (_stop_event (conn s c)).

(** [await_conn]: [self._conn_event.wait()] returns once the event is set. *)
Definition await_conn (c : conn_id) : Eff unit :=
  fun s => if _conn_event (conn s c) then (Returns tt, s, [])
           else (Blocks, s, []).

(** [c._sock.shutdown(socket.SHUT_RDWR); c._sock.close()] *)
Definition shutdown_and_close (c : conn_id) : Eff unit :=
  fun s =>
    match _sock (conn s c) with
    | None => (Raises AttributeError, s, [])
    | Some sk =>
        match status sk with
        | connected =>
            (Returns tt,
             set_conn s c (with_sock (conn s c)
                             (Some {| status := closed; sent := sent sk |})),
             [ev_shutdown c true; ev_close c])
        | _ => (Raises OSError, s, [ev_shutdown c false])
        end
    end.

(** [stop], unfolded at most [fuel] times along the cascade. *)
Fixpoint stop_rec (fuel : nat) (self : conn_id) : Eff unit :=
  match fuel with
  | O => fun s => (Unfinished, s, [])
  | S fuel' =>
      try_finally
        (try_except (shutdown_and_close self) is_OSError
           (* Socket was already closed on other end *)
           (fun _ => print (line_stop_error self)))
        (* Send a stop event to this thread *)
        (update self (fun v => with_stop_event v true) ;;;
         (* If the destination connection is still running, stop that too *)
         fun s => if is_running (dest_conn self) s
                  then stop_rec fuel' (dest_conn self) s
                  else ret tt s)
  end.

(** The cascade visits each connection of the pair at most once
    (see [stop_rec_enough]). *)
Definition stop (self : conn_id) : Eff unit := stop_rec 2 self.

(** [owner._sock.sendall(data)] *)
Definition sendall (owner : conn_id) (data : bytes) : Eff unit :=
  fun s =>
    match _sock (conn s owner) with
    | None => (Raises AttributeError, s, [])
    | Some sk =>
        match status sk with
        | connected =>
            (Returns tt,
             set_conn s owner
               (with_sock (conn s owner)
                  (Some {| status := connected; sent := sent sk ++ [data] |})),
             [ev_sendall owner data true])
        | _ => (Raises OSError, s, [ev_sendall owner data false])
        end
    end.

Definition send (self : conn_id) (data : bytes) : Eff unit :=
  (* Wait for destination to be connected before sending anything *)
  await_conn (dest_conn self) ;;;
  try_except (sendall (dest_conn self) data) is_OSError
    (fun _ => print (line_send_error self) ;;; stop self).

(** [receive]: [incoming] is what [recv] yields this time. *)
Definition receive (self : conn_id) (incoming : result bytes) : Eff bytes :=
  fun s =>
    match _sock (conn s self) with
    | None => (Raises AttributeError, s, [])
    | Some _ =>
        match incoming with
        | Ok data => (Returns data, s, [ev_recv self data])
        | Raise e => (Raises e, s, [])
        end
    end.

(** The signature of [parser.parse] once the loop is known to finish. *)
Definition decoder : Type :=
  bytes -> Z -> ConnectionType -> parser.world -> result unit * parser.world.

Definition call_parse (parse : decoder) (data : bytes) (self : conn_id)
  : Eff unit :=
  fun s =>
    match parse data (port (conn s self)) (_conn_type (conn s self)) (process s) with
    | (r, w) =>
        (match r with Ok _ => Returns tt | Raise e => Raises e end,
         {| the_listener := the_listener s; the_broker := the_broker s;
            process := w |},
         [ev_parse data])
    end.

(** [helpers.PACKET_QUEUE.get_nowait()] *)
Definition PACKET_QUEUE_get_nowait : Eff bytes :=
  fun s =>
    match get_nowait (parser.PACKET_QUEUE (process s)) with
    | Ok (packet, q) =>
        (Returns packet,
         {| the_listener := the_listener s; the_broker := the_broker s;
            process := {| parser.PACKET_QUEUE := q;
                          parser.stdout := parser.stdout (process s) |} |},
         [])
    | Raise e => (Raises e, s, [])
    end.

(** One turn of the [while self.is_running()] loop of [run]. *)
Definition run_iteration (parse : decoder) (self : conn_id)
           (incoming : result bytes) : Eff unit :=
  data <- receive self incoming ;;
  send self data ;;;
  (if bytes_eqb data [] then
     (* Source wants to close... stop the connection *)
     stop self
   else
     (* Try to parse the payload *)
     try_except (call_parse parse data self) any_Exception
       (fun e => print (line_failed_parse e data))) ;;;
  (* Send data from server packet *)
  fun s =>
    if ConnectionType_eqb (_conn_type (conn s self)) CLIENT then
      try_except
        (packet <- PACKET_QUEUE_get_nowait ;;
         send self packet)
        (* the bookkeeping call that follows on the queue only updates the
           counter used by join() *)
        any_Exception
        (fun _ => ret tt) s
    else ret tt s.

(** [parser.parse] as the run loop calls it. *)
Definition parse : decoder :=
  fun data p origin w =>
    match parser.parse data p origin w with
    | (Ok _, w') => (Ok tt, w')
    | (Raise e, w') => (Raise e, w')
    end.

(** ** Threads

    Each connection is a thread whose [run] first calls [open] and then
    loops.  A thread is at one of the following points. *)
Inductive pc : Type :=
| at_start       (* run() entered, open() not yet dispatched *)
| in_accept      (* _listen: bound and listening, inside sock.accept() *)
| in_await       (* _connect: inside self.dest_conn.await_conn() *)
| in_connect     (* _connect: in the retry loop *)
| at_signal      (* open: about to call self._conn_event.set() *)
| in_run         (* run: at the head of the while loop *)
| exited         (* run returned *)
| crashed.       (* the thread died of an uncaught exception *)

Record system : Type := System {
  shared : state;
  pc_listener : pc;
  pc_broker : pc;
  history : list event              (* oldest first *)
}.

Definition pc_of (sys : system) (c : conn_id) : pc :=
  match c with
  | listener => pc_listener sys
  | broker => pc_broker sys
  end.

(** Thread [c] moves to [p], leaving the shared objects as [s] and having
    done [t]. *)
Definition advance (sys : system) (c : conn_id) (p : pc) (s : state)
           (t : list event) : system :=
  match c with
  | listener => {| shared := s; pc_listener := p; pc_broker := pc_broker sys;
                   history := history sys ++ t |}
  | broker => {| shared := s; pc_listener := pc_listener sys; pc_broker := p;
                 history := history sys ++ t |}
  end.

(** What [ProxyServer.run] starts: a CLIENT listener and a SERVER broker
    for the same port. *)
Definition initial (p : Z) (w : parser.world) : system :=
  {| shared := {| the_listener := init CLIENT p; the_broker := init SERVER p;
                  process := w |};
     pc_listener := at_start; pc_broker := at_start; history := [] |}.

Definition new_socket (st : sock_status) : option socket :=
  Some {| status := st; sent := [] |}.

Definition set_status (v : ProxyConnection) (st : sock_status) : ProxyConnection :=
  with_sock v (match _sock v with
               | Some sk => Some {| status := st; sent := sent sk |}
               | None => None
               end).

Section Threads.
Variable parse : decoder.

(** One atomic action of one thread (or of the peer of a socket). *)
Inductive step : system -> system -> Prop :=
(* open, CLIENT: _listen binds and listens ... *)
| step_listen c sys :
    pc_of sys c = at_start ->
    _conn_type (conn (shared sys) c) = CLIENT ->
    step sys (advance sys c in_accept (shared sys) [ev_listen c])
(* an exception nothing catches (socket, bind, accept, recv ...) ends the
   thread wherever it is *)
| step_dies c sys :
    pc_of sys c <> exited ->
    step sys (advance sys c crashed (shared sys) [])
(* self._sock, _ = sock.accept() *)
| step_accept c sys :
    pc_of sys c = in_accept ->
    step sys (advance sys c at_signal
                (set_conn (shared sys) c
                   (with_sock (conn (shared sys) c) (new_socket connected)))
                [ev_accept c])
(* open, SERVER: _connect starts by waiting for the destination *)
| step_connect_enter c sys :
    pc_of sys c = at_start ->
    _conn_type (conn (shared sys) c) = SERVER ->
    step sys (advance sys c in_await (shared sys) [])
(* await_conn returned; self._sock = sock *)
| step_await_done c sys s t :
    pc_of sys c = in_await ->
    await_conn (dest_conn c) (shared sys) = (Returns tt, s, t) ->
    step sys (advance sys c in_connect
                (set_conn s c (with_sock (conn s c) (new_socket unconnected))) t)
(* self._sock.connect(...) succeeded *)
| step_connect_ok c sys :
    pc_of sys c = in_connect ->
    let v := conn (shared sys) c in
    step sys (advance sys c at_signal
                (set_conn (shared sys) c
                   (with_retries (set_status v connected) (_retries v + 1)))
                [ev_connect c true])
(* ConnectionRefusedError: print, sleep, try again *)
| step_connect_refused c sys :
    pc_of sys c = in_connect ->
    let v := conn (shared sys) c in
    step sys (advance sys c in_connect
                (set_conn (shared sys) c (with_retries v (_retries v + 1)))
                [ev_connect c false;
                 ev_print (line_refused (retry_interval (_retries v)));
                 ev_sleep (retry_interval (_retries v))])
(* any other error of connect: the finally clause still counts the try *)
| step_connect_error c sys :
    pc_of sys c = in_connect ->
    let v := conn (shared sys) c in
    step sys (advance sys c crashed
                (set_conn (shared sys) c (with_retries v (_retries v + 1)))
                [ev_connect c false])
(* Signal that this thread has successfully opened a connection *)
| step_signal c sys :
    pc_of sys c = at_signal ->
    step sys (advance sys c in_run
                (set_conn (shared sys) c
                   (with_conn_event (conn (shared sys) c) true))
                [ev_conn_set c; ev_print (line_new_connection c)])
(* one turn of the run loop *)
| step_iteration c sys incoming s t :
    pc_of sys c = in_run ->
    is_running c (shared sys) = true ->
    run_iteration parse c incoming (shared sys) = (Returns tt, s, t) ->
    step sys (advance sys c in_run s t)
| step_iteration_raises c sys incoming e s t :
    pc_of sys c = in_run ->
    is_running c (shared sys) = true ->
    run_iteration parse c incoming (shared sys) = (Raises e, s, t) ->
    step sys (advance sys c crashed s t)
(* the loop condition fails *)
| step_exit c sys :
    pc_of sys c = in_run ->
    is_running c (shared sys) = false ->
    step sys (advance sys c exited (shared sys) [ev_print (line_exiting c)])
(* the remote end of c's socket drops the connection *)
| step_peer_reset c sys sk :
    _sock (conn (shared sys) c) = Some sk ->
    status sk = connected ->
    step sys {| shared := set_conn (shared sys) c
                            (set_status (conn (shared sys) c) reset);
                pc_listener := pc_listener sys; pc_broker := pc_broker sys;
                history := history sys |}.

(** The states of a generation started on port [p]. *)
Inductive reachable (p : Z) (w : parser.world) : system -> Prop :=
| reach_initial : reachable p w (initial p w)
| reach_step sys sys' :
    reachable p w sys -> step sys sys' -> reachable p w sys'.

End Threads.

End proxy.

(* ================================================================== *)
(** * Vocabulary of the properties: the decoder *)
(* ================================================================== *)

Unset Implicit Arguments.

Module wire.
Import Python helpers parser.

(** The wire layout of an actor-drop packet after its tag: item id,
    four unknown octets, one unknown octet, the length-prefixed name, the
    position, then whatever follows in the buffer. *)
Definition actor_drop_packet (id_bytes unknown : bytes) (unknown2 : byte)
           (name_bytes position rest : bytes) : bytes :=
  id_bytes ++ unknown ++ [unknown2]
  ++ le_bytes 2 (Z.of_nat (len name_bytes)) ++ name_bytes ++ position ++ rest.

(** The injected pickup request for an item. *)
Definition pickup_packet (item_id : Z) : bytes :=
  [x65; x65] ++ le_bytes 4 item_id.


(** The injected reload request. *)
Definition reload_packet : bytes := [x72; x6c].

(** The wire layout of a shoot packet after its tag. *)
Definition shoot_packet (name_bytes direction rest : bytes) : bytes :=
  le_bytes 2 (Z.of_nat (len name_bytes)) ++ name_bytes ++ direction ++ rest.

(** The wire layout of a reload packet after its tag. *)
Definition reload_fields (weapon_bytes ammo_bytes count_bytes rest : bytes)
  : bytes :=
  le_bytes 2 (Z.of_nat (len weapon_bytes)) ++ weapon_bytes
  ++ le_bytes 2 (Z.of_nat (len ammo_bytes)) ++ ammo_bytes
  ++ count_bytes ++ rest.

(** What [handle_reload] makes of a framed packet: the reload report when
    both names decode, the need-to-reload signal and the whole input
    otherwise. *)
Definition reload_outcome (weapon_bytes ammo_bytes count_bytes rest : bytes)
  : bytes * message :=
  match decode weapon_bytes, decode ammo_bytes with
  | Ok weapon_name, Ok ammo_name =>
      (rest, msg_reloaded weapon_name (le_value count_bytes) ammo_name)
  | _, _ =>
      (reload_fields weapon_bytes ammo_bytes count_bytes rest, msg_need_reload)
  end.

(** A handler leaves the console alone and, when it returns, returns a
    suffix [data[k:]] of the buffer it was given. *)
Definition well_behaved (func : bytes -> M (bytes * message)) : Prop :=
  forall data w r w1,
    func data w = (r, w1) ->
    stdout w1 = stdout w /\
    forall rest m, r = Ok (rest, m) -> exists k, rest = slice_from k data.

Definition is_unknown (l : line) : bool :=
  match l with
  | line_unknown _ _ => true
  | line_message _ _ => false
  end.

(** Number of unrecognized-tag lines on the console. *)
Definition unknown_lines (out : list line) : nat :=
  List.length (filter is_unknown out).

(** A decorated handler prints at most its own message and, when it
    returns, returns a suffix of the buffer it was given. *)
Definition decorated_ok (h : bytes -> ConnectionType -> M bytes) : Prop :=
  forall data origin w r w1,
    h data origin w = (r, w1) ->
    unknown_lines (stdout w1) = unknown_lines (stdout w) /\
    forall rest, r = Ok rest -> exists k, rest = slice_from k data.

(** For each turn the loop takes on [data], whether the tag it met was
    unrecognized. *)
Fixpoint loop_tags (fuel : nat) (origin : ConnectionType) (data : bytes)
         (reads : nat) (w : world) : list bool :=
  if 2 <=? len data then
    match fuel with
    | O => []
    | S fuel' =>
        match get PACKET_HANDLERS (slice 0 2 data) with
        | Some _ => false
        | None => true
        end ::
        match loop_body origin data reads w with
        | (Ok (data', reads'), w') => loop_tags fuel' origin data' reads' w'
        | (Raise _, _) => []
        end
    end
  else [].

(** Number of maximal blocks of consecutive [true]. *)
Fixpoint runs (tags : list bool) : nat :=
  match tags with
  | [] => 0
  | true :: ((true :: _) as rest) => runs rest
  | true :: rest => S (runs rest)
  | false :: rest => runs rest
  end.

(** "Each occurrence-run of unrecognized tags is logged once". *)
Definition logged_once_per_run (data : bytes) (origin : ConnectionType)
           (w : world) : Prop :=
  unknown_lines (stdout (snd (while_loop (len data) origin data 0 w)))
  = unknown_lines (stdout w) + runs (loop_tags (len data) origin data 0 w).

Definition empty_world : world := {| PACKET_QUEUE := []; stdout := [] |}.

End wire.

(* ================================================================== *)
(** * Vocabulary of the properties: the relay engine *)
(* ================================================================== *)

Module relay.
Import Python helpers proxy.

(** ** Reasoning about effects

    [respects R E c]: whatever state [c] starts from and however it
    ends, the state it leaves is related to the initial one by [R] and
    every event it emits satisfies [E]. *)
Definition respects {A} (R : state -> state -> Prop) (E : event -> Prop)
           (c : Eff A) : Prop :=
  forall s o s' t, c s = (o, s', t) -> R s s' /\ Forall E t.

(** The part of a turn of the run loop that follows the forwarding. *)
Definition after_forwarding (parse : decoder) (self : conn_id) (data : bytes)
  : Eff unit :=
  bind
    (if bytes_eqb data [] then stop self
     else try_except (call_parse parse data self) any_Exception
            (fun e => print (line_failed_parse e data)))
    (fun _ s =>
       if ConnectionType_eqb (_conn_type (conn s self)) CLIENT then
         try_except
           (bind PACKET_QUEUE_get_nowait (fun packet => send self packet))
           any_Exception (fun _ => ret tt) s
       else ret tt s).

Definition live (sk : socket) : bool :=
  match status sk with
  | connected => true
  | _ => false
  end.

(** Closed: the stop event is set and the socket is no longer a live
    connection (shut down and closed here, or already gone on the other
    end). *)
Definition is_closed (s : state) (c : conn_id) : bool :=
  _stop_event (conn s c) &&
  match _sock (conn s c) with
  | Some sk => negb (live sk)
  | None => false
  end.

(** The connection has been opened: it owns a socket, and if it has
    been stopped already the socket is as [stop] leaves it. *)
Definition opened (s : state) (c : conn_id) : bool :=
  match _sock (conn s c) with
  | Some sk => negb (_stop_event (conn s c) && live sk)
  | None => false
  end.

Definition relaying_pair : state :=
  {| the_listener :=
       {| _stop_event := false; _conn_event := true; _retries := 0;
          _sock := Some {| status := connected; sent := [] |};
          _conn_type := CLIENT; port := 3000 |};
     the_broker :=
       {| _stop_event := false; _conn_event := true; _retries := 1;
          _sock := Some {| status := connected; sent := [] |};
          _conn_type := SERVER; port := 3000 |};
     process := {| parser.PACKET_QUEUE := []; parser.stdout := [] |} |}.

(** The chunks written so far to the socket of [c]. *)
Definition sent_of (s : state) (c : conn_id) : list bytes :=
  match _sock (conn s c) with
  | Some sk => sent sk
  | None => []
  end.

(** During a turn of [self], nothing is written to the socket of [self]
    and what was written to the destination's socket stays there. *)
Definition forwards (self : conn_id) (s s' : state) : Prop :=
  sent_of s' self = sent_of s self /\
  exists more, sent_of s' (dest_conn self) = sent_of s (dest_conn self) ++ more.

(** What a turn of [self] on [data] may do once the chunk is forwarded:
    write to the destination's socket only, decode [data] only, print,
    shut sockets down. *)
Definition after_write (self : conn_id) (data : bytes) (e : event) : Prop :=
  match e with
  | ev_sendall owner _ _ => owner = dest_conn self
  | ev_parse d => d = data
  | ev_print _ | ev_shutdown _ _ | ev_close _ => True
  | _ => False
  end.

(** Preserved by everything a turn of the run loop does. *)
Definition frame (s s' : state) : Prop :=
  forall c, _conn_event (conn s' c) = _conn_event (conn s c)
            /\ _conn_type (conn s' c) = _conn_type (conn s c).

(** Events of the run loop: none of those of [open]. *)
Definition not_opening (e : event) : Prop :=
  match e with
  | ev_listen _ | ev_accept _ | ev_connect _ _ | ev_conn_set _ | ev_sleep _ => False
  | _ => True
  end.

(** Every connect attempt recorded in [h] is the broker's and comes
    after the listener's accept and after the listener's signal. *)
Definition connects_after_accept (h : list event) : Prop :=
  forall h1 c ok h2,
    h = h1 ++ ev_connect c ok :: h2 ->
    c = broker /\ In (ev_accept listener) h1 /\ In (ev_conn_set listener) h1.

Definition no_connect (e : event) : Prop :=
  match e with
  | ev_connect _ _ => False
  | _ => True
  end.

(** What holds of every state a generation can reach. *)
Record invariant (sys : system) : Prop := {
  inv_listener : _conn_type (conn (shared sys) listener) = CLIENT;
  inv_broker : _conn_type (conn (shared sys) broker) = SERVER;
  inv_pc_listener :
    pc_listener sys <> in_await /\ pc_listener sys <> in_connect;
  inv_pc_broker : pc_broker sys <> in_accept;
  inv_accepted :
    pc_listener sys = at_signal -> In (ev_accept listener) (history sys);
  inv_signalled :
    _conn_event (conn (shared sys) listener) = true ->
    In (ev_accept listener) (history sys)
    /\ In (ev_conn_set listener) (history sys);
  inv_awaited :
    pc_broker sys = in_connect ->
    _conn_event (conn (shared sys) listener) = true;
  inv_history : connects_after_accept (history sys)
}.

Definition has_sock (s : state) (c : conn_id) : bool :=
  match _sock (conn s c) with
  | Some _ => true
  | None => false
  end.

Definition both_signalled (s : state) : bool :=
  _conn_event (conn s listener) && _conn_event (conn s broker).

Definition any_stopped (s : state) : bool :=
  _stop_event (conn s listener) || _stop_event (conn s broker).

(** Both connections have opened and signalled, and they are either
    both still relaying or both Closed. *)
Definition settled (s : state) : bool :=
  both_signalled s && opened s listener && opened s broker
  && implb (any_stopped s) (is_closed s listener && is_closed s broker).

Definition keeps_settled (s s' : state) : Prop :=
  settled s = true -> settled s' = true.

Definition keeps_sockets (s s' : state) : Prop :=
  forall c, has_sock s' c = has_sock s c.

Definition any_event (e : event) : Prop := True.

(** What holds of the pair in every state a generation can reach. *)
Record pair_invariant (sys : system) : Prop := {
  pi_signalled :
    forall c, _conn_event (conn (shared sys) c) = true ->
              pc_of sys c = in_run \/ pc_of sys c = exited
              \/ pc_of sys c = crashed;
  pi_run :
    forall c, pc_of sys c = in_run -> _conn_event (conn (shared sys) c) = true;
  pi_sock :
    forall c, _conn_event (conn (shared sys) c) = true
              \/ pc_of sys c = at_signal \/ pc_of sys c = in_connect ->
              has_sock (shared sys) c = true;
  pi_quiet :
    both_signalled (shared sys) = false -> any_stopped (shared sys) = false;
  pi_settled :
    both_signalled (shared sys) = true -> settled (shared sys) = true
}.

(** A run of a generation up to the broker's first connect. *)
Definition sys0 : system := initial 3000 wire.empty_world.

Definition sys1 : system :=
  advance sys0 listener in_accept (shared sys0) [ev_listen listener].

Definition sys2 : system :=
  advance sys1 listener at_signal
    (set_conn (shared sys1) listener
       (with_sock (conn (shared sys1) listener) (new_socket connected)))
    [ev_accept listener].

Definition sys3 : system :=
  advance sys2 listener in_run
    (set_conn (shared sys2) listener
       (with_conn_event (conn (shared sys2) listener) true))
    [ev_conn_set listener; ev_print (line_new_connection listener)].

Definition sys4 : system := advance sys3 broker in_await (shared sys3) [].

Definition sys5 : system :=
  advance sys4 broker in_connect
    (set_conn (shared sys4) broker
       (with_sock (conn (shared sys4) broker) (new_socket unconnected)))
    [].

Definition sys6 : system :=
  advance sys5 broker at_signal
    (set_conn (shared sys5) broker
       (with_retries (set_status (conn (shared sys5) broker) connected)
          (_retries (conn (shared sys5) broker) + 1)))
    [ev_connect broker true].

End relay.

(* ================================================================== *)
(** * Vocabulary of the properties: packets and what decoding leaves *)
(* ================================================================== *)

Module frames.
Import Python helpers parser wire.

(** The world [w] with [q] appended to the queue and [out] to the console. *)
Definition extend (w : world) (q : list bytes) (out : list line) : world :=
  {| PACKET_QUEUE := PACKET_QUEUE w ++ q; stdout := stdout w ++ out |}.

(** A printed line with the direction marker of [origin]. *)
Definition remark (origin : ConnectionType) (l : line) : line :=
  match l with
  | line_message _ m => line_message (DIRECTION_FORMAT origin) m
  | line_unknown pid data => line_unknown pid data
  end.

(** The exceptions of [struct.unpack], [struct.pack], [bytes.decode] and
    indexing. *)
Definition decoding_error (e : exn) : bool :=
  match e with
  | struct_error | UnicodeDecodeError | IndexError => true
  | _ => false
  end.

(** The packets the handlers queue: the reload request [72 6c], and a
    pickup request, [65 65] followed by four octets. *)
Definition is_request (p : bytes) : bool :=
  bytes_eqb p reload_packet
  || (bytes_eqb (slice 0 2 p) [x65; x65] && (len p =? 6)).

(** A handler that reads nothing of the world: on any world it returns
    what it returns on the empty one and queues the same packets. *)
Definition oblivious (func : bytes -> M (bytes * message)) : Prop :=
  forall data w,
    func data w
    = (fst (func data empty_world),
       extend w (PACKET_QUEUE (snd (func data empty_world))) []).

(** A handler that prints nothing itself, queues requests only, and has
    queued nothing when it raises, which it does with a decoding error. *)
Definition tidy (func : bytes -> M (bytes * message)) : Prop :=
  forall data r w1,
    func data empty_world = (r, w1) ->
    stdout w1 = [] /\
    forallb is_request (PACKET_QUEUE w1) = true /\
    forall e, r = Raise e -> PACKET_QUEUE w1 = [] /\ decoding_error e = true.

(** A packet made of one length-prefixed text: chat and region change. *)
Definition text_packet (text_bytes rest : bytes) : bytes :=
  le_bytes 2 (Z.of_nat (len text_bytes)) ++ text_bytes ++ rest.

(** The wire layout of an item-acquire packet after its tag. *)
Definition item_acquire_packet (name_bytes amount_bytes rest : bytes) : bytes :=
  le_bytes 2 (Z.of_nat (len name_bytes)) ++ name_bytes ++ amount_bytes ++ rest.

(** The wire layout of a state packet after its tag. *)
Definition state_packet (id_bytes state_bytes rest : bytes) : bytes :=
  id_bytes ++ le_bytes 2 (Z.of_nat (len state_bytes)) ++ state_bytes ++ rest.

(** The wire layout of an attack packet after its tag. *)
Definition attack_packet (attacker_bytes attack_bytes victim_bytes rest : bytes)
  : bytes :=
  attacker_bytes ++ le_bytes 2 (Z.of_nat (len attack_bytes)) ++ attack_bytes
  ++ victim_bytes ++ rest.

(** The world after a decorated handler has printed its message. *)
Definition say (w : world) (origin : ConnectionType) (m : message) : world :=
  {| PACKET_QUEUE := PACKET_QUEUE w;
     stdout := stdout w ++ [line_message (DIRECTION_FORMAT origin) m] |}.

(** No two consecutive octets of the buffer are a tag of the table. *)
Fixpoint no_known_tag (data : bytes) : bool :=
  match data with
  | [] => true
  | a :: rest =>
      match rest with
      | [] => true
      | c :: _ =>
          match get PACKET_HANDLERS [a; c] with
          | Some _ => false
          | None => no_known_tag rest
          end
      end
  end.

(** The packets whose size does not depend on their content, with the
    octets of their fields. *)
Inductive fixed_packet : Type :=
| pk_ack
| pk_jump (flag : byte)
| pk_sneak (flag : byte)
| pk_slot (slot : byte)
| pk_pickup (i0 i1 i2 i3 : byte)
| pk_mana (m0 m1 : byte)
| pk_health (i0 i1 i2 i3 h0 h1 : byte).

(** Tag and fields as they travel. *)
Definition encode (p : fixed_packet) : bytes :=
  match p with
  | pk_ack => [x00; x00]
  | pk_jump flag => b "jp" ++ [flag]
  | pk_sneak flag => b "rn" ++ [flag]
  | pk_slot slot => b "s=" ++ [slot]
  | pk_pickup i0 i1 i2 i3 => b "ee" ++ [i0; i1; i2; i3]
  | pk_mana m0 m1 => b "ma" ++ [m0; m1]
  | pk_health i0 i1 i2 i3 h0 h1 => b "++" ++ [i0; i1; i2; i3; h0; h1]
  end.

(** The message the console shows for a packet, if any. *)
Definition report (p : fixed_packet) : option message :=
  match p with
  | pk_ack => None
  | pk_jump flag => Some (msg_jump (negb (ord flag =? 0)%Z))
  | pk_sneak flag => Some (msg_sneak (ord flag =? 0)%Z)
  | pk_slot slot => Some (msg_slot (ord slot))
  | pk_pickup i0 i1 i2 i3 => Some (msg_item_pickup (le_value [i0; i1; i2; i3]))
  | pk_mana _ _ => None
  | pk_health i0 i1 i2 i3 h0 h1 =>
      Some (msg_health (le_value [i0; i1; i2; i3])
              (to_signed16 (le_value [h0; h1])))
  end.

(** The lines the console shows for a run of packets. *)
Definition reports (origin : ConnectionType) (ps : list fixed_packet)
  : list line :=
  flat_map (fun p => match report p with
                     | Some m => [line_message (DIRECTION_FORMAT origin) m]
                     | None => []
                     end) ps.

(** A computation that depends on the origin only for the marker it
    prints, and on the world only to append to it. *)
Definition replays {A} (c : ConnectionType -> M A) : Prop :=
  forall origin w,
    c origin w
    = (fst (c CLIENT empty_world),
       extend w (PACKET_QUEUE (snd (c CLIENT empty_world)))
         (map (remark origin) (stdout (snd (c CLIENT empty_world))))).

(** What a run from the empty world shows: only requests queued, only
    decoding errors raised. *)
Definition sound {A} (c : M A) : Prop :=
  forall r w1,
    c empty_world = (r, w1) ->
    forallb is_request (PACKET_QUEUE w1) = true /\
    forall e, r = Raise e -> decoding_error e = true.

End frames.

(* ================================================================== *)
(** * Vocabulary of the properties: the books of a generation *)
(* ================================================================== *)

Module ledger.
Import Python helpers proxy relay frames.

(** Both connections are open and relaying: events set, no stop event,
    both sockets live. *)
Definition relaying (s : state) : bool :=
  both_signalled s && negb (any_stopped s)
  && match _sock (conn s listener), _sock (conn s broker) with
     | Some sl, Some sb => live sl && live sb
     | _, _ => false
     end.

(** Events other than a call of the decoder. *)
Definition no_parse (e : event) : Prop :=
  match e with
  | ev_parse _ => False
  | _ => True
  end.

(** What a turn of [self] takes from the queue the decoder left. *)
Definition injected (self : ConnectionType) (q : Queue) : list bytes :=
  match self with
  | CLIENT => firstn 1 q
  | SERVER => []
  end.

(** What that turn leaves on the queue. *)
Definition left_over (self : ConnectionType) (q : Queue) : Queue :=
  match self with
  | CLIENT => skipn 1 q
  | SERVER => q
  end.

(** Whether the socket of [c] is a live connection. *)
Definition is_live (s : state) (c : conn_id) : bool :=
  match _sock (conn s c) with
  | Some sk => live sk
  | None => false
  end.

(** The world the decoder leaves when [self] hands it [data]. *)
Definition decoded (parse : decoder) (self : conn_id) (data : bytes)
           (s : state) : parser.world :=
  snd (parse data (port (conn s self)) (_conn_type (conn s self)) (process s)).

(** Equality of the two names of a pair. *)
Definition conn_id_eqb (a c : conn_id) : bool :=
  match a, c with
  | listener, listener | broker, broker => true
  | _, _ => false
  end.

(** The intervals slept, oldest first. *)
Definition sleeps (h : list event) : list R :=
  flat_map (fun e => match e with ev_sleep r => [r] | _ => [] end) h.

(** The chunks [c] read from its socket, oldest first. *)
Definition received (c : conn_id) (h : list event) : list bytes :=
  flat_map (fun e => match e with
                     | ev_recv c' d => if conn_id_eqb c' c then [d] else []
                     | _ => []
                     end) h.

(** Accepts and successful connects. *)
Definition is_accept (e : event) : bool :=
  match e with ev_accept _ => true | _ => false end.

Definition is_connected (e : event) : bool :=
  match e with ev_connect _ true => true | _ => false end.

(** Number of events of [h] that satisfy [f]. *)
Definition count (f : event -> bool) (h : list event) : nat :=
  List.length (filter f h).

(** [e] reads from or writes to the socket of [c]. *)
Definition touches (e : event) (c : conn_id) : Prop :=
  match e with
  | ev_recv c' _ => c' = c
  | ev_sendall owner _ _ => owner = c
  | _ => False
  end.

(** Every read or write on a connection's socket comes after that
    connection set its connection event. *)
Definition traffic_after_open (h : list event) : Prop :=
  forall h1 e h2 c,
    h = h1 ++ e :: h2 -> touches e c -> In (ev_conn_set c) h1.

(** The thread has not got past [connect] yet. *)
Definition connecting (p : pc) : Prop :=
  p = at_start \/ p = in_await \/ p = in_connect.

(** Preserved by a turn of the run loop: the retry counters, and the
    stop events once set. *)
Definition retries_kept (s s' : state) : Prop :=
  forall c, _retries (conn s' c) = _retries (conn s c).

Definition stops_kept (s s' : state) : Prop :=
  forall c, _stop_event (conn s c) = true -> _stop_event (conn s' c) = true.

(** Events of a turn of [self]: reads on its own socket, writes on the
    destination's. *)
Definition own_traffic (self : conn_id) (e : event) : Prop :=
  match e with
  | ev_recv c _ => c = self
  | ev_sendall owner _ _ => owner = dest_conn self
  | _ => True
  end.

(** What holds of the history of every state a generation can reach:
    a connection whose event is set has set it, and sockets are used
    only after that. *)
Record opening_invariant (sys : system) : Prop := {
  oi_set :
    forall c, _conn_event (conn (shared sys) c) = true ->
              In (ev_conn_set c) (history sys);
  oi_traffic : traffic_after_open (history sys)
}.

(** Events that are neither an accept, nor a connect attempt, nor a
    sleep. *)
Definition uncounted (e : event) : Prop :=
  match e with
  | ev_accept _ | ev_connect _ _ | ev_sleep _ => False
  | _ => True
  end.

(** The connect attempts of [c]. *)
Definition is_attempt (c : conn_id) (e : event) : bool :=
  match e with
  | ev_connect c' _ => conn_id_eqb c' c
  | _ => false
  end.

(** What holds of the opening of every generation: the retry counter
    counts the connect attempts, the sleeps follow the retry schedule, and
    nobody accepts or connects twice. *)
Record attempt_invariant (sys : system) : Prop := {
  ai_sleeps :
    sleeps (history sys)
    = map retry_interval (seq 0 (List.length (sleeps (history sys))));
  ai_retries :
    forall c, _retries (conn (shared sys) c)
              = count (is_attempt c) (history sys);
  ai_refused :
    connecting (pc_broker sys) ->
    count (is_attempt broker) (history sys)
    = List.length (sleeps (history sys))
    /\ count is_connected (history sys) = 0;
  ai_accepts : count is_accept (history sys) <= 1;
  ai_fresh :
    pc_listener sys = at_start \/ pc_listener sys = in_accept ->
    count is_accept (history sys) = 0;
  ai_connects : count is_connected (history sys) <= 1
}.

(** The thread is past [await_conn]. *)
Definition past_await (p : pc) : Prop :=
  p = in_connect \/ p = at_signal \/ p = in_run.

(** What holds of the server-to-client direction in every state a
    generation can reach: the client socket was sent the chunks the
    broker read, in the order read; only the last one read may be missing,
    and then the broker is stopped. *)
Record fidelity_invariant (sys : system) : Prop := {
  fi_waited :
    past_await (pc_broker sys) ->
    _conn_event (conn (shared sys) listener) = true;
  fi_before :
    _conn_event (conn (shared sys) listener) = false ->
    received broker (history sys) = []
    /\ sent_of (shared sys) listener = [];
  fi_fidelity :
    exists tail,
      received broker (history sys) = sent_of (shared sys) listener ++ tail
      /\ (tail = []
          \/ (List.length tail = 1
              /\ _stop_event (conn (shared sys) broker) = true))
}.

(** A chunk on the server's socket is one the listener read, or a
    request of the decoder. *)
Definition relayed_or_request (h : list event) (x : bytes) : Prop :=
  In x (received listener h) \/ is_request x = true.

(** What holds, with the decoder of [parser.py], of every state a
    generation can reach from a queue of requests. *)
Record injection_invariant (sys : system) : Prop := {
  ii_queue :
    forallb is_request (parser.PACKET_QUEUE (process (shared sys))) = true;
  ii_server :
    Forall (relayed_or_request (history sys)) (sent_of (shared sys) broker)
}.

(** The run of [sys6] continued: the broker signals, then reads a mana
    packet from the server. *)
Definition sys7 : system :=
  advance sys6 broker in_run
    (set_conn (shared sys6) broker
       (with_conn_event (conn (shared sys6) broker) true))
    [ev_conn_set broker; ev_print (line_new_connection broker)].

Definition mana_chunk : bytes := b "ma" ++ [x05; x00].

Definition sys8 : system :=
  advance sys7 broker in_run
    (snd (fst (run_iteration proxy.parse broker (Ok mana_chunk) (shared sys7))))
    (snd (run_iteration proxy.parse broker (Ok mana_chunk) (shared sys7))).

(** Or the listener reads a loaded-ammo packet that reports an empty
    magazine. *)
Definition ammo_chunk : bytes :=
  b "la" ++ [x01; x00] ++ b "G" ++ [x00; x00; x00; x00].

Definition sys9 : system :=
  advance sys7 listener in_run
    (snd (fst (run_iteration proxy.parse listener (Ok ammo_chunk) (shared sys7))))
    (snd (run_iteration proxy.parse listener (Ok ammo_chunk) (shared sys7))).

(** The run of [sys5] with a first connect refused. *)
Definition sys5_refused : system :=
  advance sys5 broker in_connect
    (set_conn (shared sys5) broker
       (with_retries (conn (shared sys5) broker)
          (_retries (conn (shared sys5) broker) + 1)))
    [ev_connect broker false;
     ev_print (line_refused (retry_interval (_retries (conn (shared sys5) broker))));
     ev_sleep (retry_interval (_retries (conn (shared sys5) broker)))].

(** A pair whose server side was reset by the peer. *)
Definition half_open_pair : state :=
  set_conn relaying_pair broker (set_status (conn relaying_pair broker) reset).

(** A relaying pair on the master port, with a pickup request waiting on
    the queue. *)
Definition master_pair : state :=
  {| the_listener :=
       {| _stop_event := false; _conn_event := true; _retries := 0;
          _sock := Some {| status := connected; sent := [] |};
          _conn_type := CLIENT; port := MASTER_PORT |};
     the_broker :=
       {| _stop_event := false; _conn_event := true; _retries := 1;
          _sock := Some {| status := connected; sent := [] |};
          _conn_type := SERVER; port := MASTER_PORT |};
     process := {| parser.PACKET_QUEUE := [wire.pickup_packet 42];
                   parser.stdout := [] |} |}.

End ledger.

(* ================================================================== *)
(** * Properties of the Python fragment *)
(* ================================================================== *)

Module PythonFacts.
Import Python.

Lemma ord_range (x : byte) : (0 <= ord x < 256)%Z.
Proof.
  unfold ord. pose proof (Byte.to_N_bounded x). lia.
Qed.

Lemma byte_of_ord (x : byte) (v : Z) : byte_of (ord x + 256 * v) = x.
Proof.
  unfold byte_of.
  replace ((ord x + 256 * v) mod 256)%Z with (ord x).
  - unfold ord. rewrite N2Z.id, Byte.of_to_N. reflexivity.
  - pose proof (ord_range x). Z.div_mod_to_equations. lia.
Qed.

Lemma shift_ord (x : byte) (v : Z) : ((ord x + 256 * v) / 256 = v)%Z.
Proof.
  pose proof (ord_range x). Z.div_mod_to_equations. lia.
Qed.

(** Packing what was unpacked gives the octets back. *)
Lemma le_bytes_le_value (data : bytes) :
  le_bytes (len data) (le_value data) = data.
Proof.
  induction data as [|x r IH]; [reflexivity|].
  unfold len in *. cbn [List.length le_value le_bytes].
  rewrite byte_of_ord, shift_ord. now rewrite IH.
Qed.

Lemma le_value_range (data : bytes) :
  (0 <= le_value data < 256 ^ Z.of_nat (len data))%Z.
Proof.
  induction data as [|x r IH]; unfold len in *; cbn [List.length le_value].
  - simpl. lia.
  - pose proof (ord_range x).
    rewrite Nat2Z.inj_succ, Z.pow_succ_r by lia. lia.
Qed.

Lemma ord_byte_of (v : Z) : ord (byte_of v) = (v mod 256)%Z.
Proof.
  unfold byte_of, ord.
  pose proof (Z.mod_pos_bound v 256 ltac:(lia)) as Hb.
  destruct (Byte.of_N (Z.to_N (v mod 256))) as [x|] eqn:E.
  - apply Byte.to_of_N in E. rewrite E. lia.
  - apply Byte.of_N_None_iff in E. lia.
Qed.

(** Unpacking what was packed gives the value back. *)
Lemma le_value_le_bytes (size : nat) (v : Z) :
  (0 <= v < 256 ^ Z.of_nat size)%Z -> le_value (le_bytes size v) = v.
Proof.
  revert v. induction size as [|n IH]; intros v Hv.
  - simpl in *. lia.
  - cbn [le_bytes le_value]. rewrite ord_byte_of.
    rewrite IH.
    + pose proof (Z.div_mod v 256 ltac:(lia)). lia.
    + rewrite Nat2Z.inj_succ, Z.pow_succ_r in Hv by lia.
      split; [apply Z.div_pos; lia|].
      apply Z.div_lt_upper_bound; lia.
Qed.

Lemma len_le_bytes (size : nat) (v : Z) : len (le_bytes size v) = size.
Proof.
  revert v. induction size as [|n IH]; intros v; simpl; [reflexivity|].
  unfold len in IH. now rewrite IH.
Qed.

Lemma len_app (x y : bytes) : len (x ++ y) = len x + len y.
Proof. apply length_app. Qed.

(** Slices of a buffer laid out as [pre ++ field ++ rest]. *)
Lemma slice_at (data pre field rest : bytes) (lo hi : nat) :
  data = pre ++ field ++ rest ->
  len pre = lo -> hi = lo + len field ->
  slice lo hi data = field.
Proof.
  intros -> Hlo ->. unfold slice, len in *.
  rewrite skipn_app, Hlo, Nat.sub_diag, skipn_all2 by lia. simpl.
  replace (lo + List.length field - lo) with (List.length field + 0) by lia.
  rewrite firstn_app_2. simpl. apply app_nil_r.
Qed.

Lemma slice_from_at (data pre rest : bytes) (lo : nat) :
  data = pre ++ rest -> len pre = lo -> slice_from lo data = rest.
Proof.
  intros -> Hlo. unfold slice_from, len in *.
  rewrite skipn_app, Hlo, Nat.sub_diag, skipn_all2 by lia. reflexivity.
Qed.

Lemma index_at (data pre rest : bytes) (x : byte) (i : nat) :
  data = pre ++ x :: rest -> len pre = i -> nth_error data i = Some x.
Proof.
  intros -> Hlo. unfold len in *.
  rewrite nth_error_app2 by lia. now rewrite Hlo, Nat.sub_diag.
Qed.

(** A slice is never longer than asked for, and [data[lo:]] is a suffix. *)
Lemma len_slice (lo hi : nat) (data : bytes) : len (slice lo hi data) <= hi - lo.
Proof. unfold slice, len. rewrite length_firstn. lia. Qed.

Lemma len_slice_from (lo : nat) (data : bytes) :
  len (slice_from lo data) = len data - lo.
Proof. unfold slice_from, len. apply length_skipn. Qed.

Lemma bytes_eqb_eq (x y : bytes) : bytes_eqb x y = true <-> x = y.
Proof.
  revert y. induction x as [|a x IH]; intros [|c y]; simpl; split;
    try congruence; try reflexivity.
  - intros H. apply andb_true_iff in H as [H1 H2].
    apply Byte.byte_dec_bl in H1. apply IH in H2. congruence.
  - intros [= -> ->]. apply andb_true_iff. split.
    + now apply Byte.byte_dec_lb.
    + now apply IH.
Qed.

End PythonFacts.

(* ================================================================== *)
(** * Properties of the packet handlers *)
(* ================================================================== *)

Module ParserSpec.
Import Python helpers parser wire PythonFacts.

Lemma unpack_uint_ok (size : nat) (data : bytes) :
  len data = size -> unpack_uint size data = Ok (le_value data).
Proof.
  intros H. unfold unpack_uint. now rewrite H, Nat.eqb_refl.
Qed.

Lemma unpack_uint_short (size : nat) (data : bytes) :
  len data <> size -> unpack_uint size data = Raise struct_error.
Proof.
  intros H. unfold unpack_uint.
  destruct (Nat.eqb_spec (len data) size); congruence.
Qed.

Lemma unpack_fff_ok (data : bytes) :
  len data = 12 -> exists d, unpack_fff data = Ok d.
Proof.
  intros H. unfold unpack_fff. rewrite H. simpl. eauto.
Qed.

Lemma u16_roundtrip (n : nat) :
  (Z.of_nat n < 65536)%Z -> Z.to_nat (le_value (le_bytes 2 (Z.of_nat n))) = n.
Proof.
  intros H. rewrite le_value_le_bytes; [apply Nat2Z.id|].
  change (256 ^ Z.of_nat 2)%Z with 65536%Z. lia.
Qed.

Lemma handle_actor_drop_framed
      (id_bytes unknown : bytes) (unknown2 : byte)
      (name_bytes position rest : bytes) (item_name : str) (w : world) :
  len id_bytes = 4 -> len unknown = 4 -> len position = 12 ->
  (Z.of_nat (len name_bytes) < 65536)%Z ->
  decode name_bytes = Ok item_name ->
  exists x y z,
    handle_actor_drop
      (actor_drop_packet id_bytes unknown unknown2 name_bytes position rest) w
    = (Ok (rest, msg_actor_drop (le_value id_bytes) item_name x y z
                   (contains (literal "Drop") item_name)),
       {| PACKET_QUEUE :=
            PACKET_QUEUE w ++
            (if contains (literal "Drop") item_name
             then [pickup_packet (le_value id_bytes)] else []);
          stdout := stdout w |}).
Proof.
  intros Hid Hun Hpos Hname Hdec.
  destruct (unpack_fff_ok position Hpos) as [[[x y] z] Hfff].
  exists x, y, z.
  set (L := le_bytes 2 (Z.of_nat (len name_bytes))).
  assert (HL : len L = 2) by apply len_le_bytes.
  unfold handle_actor_drop, actor_drop_packet. fold L.
  set (data := id_bytes ++ unknown ++ [unknown2] ++ L ++ name_bytes ++ position ++ rest).
  assert (S1 : slice 0 4 data = id_bytes).
  { apply (@slice_at _ [] id_bytes (unknown ++ [unknown2] ++ L ++ name_bytes ++ position ++ rest));
      [reflexivity | reflexivity | lia]. }
  assert (S2 : slice 4 8 data = unknown).
  { apply (@slice_at _ id_bytes unknown ([unknown2] ++ L ++ name_bytes ++ position ++ rest));
      [reflexivity | assumption | lia]. }
  assert (S3 : slice 9 11 data = L).
  { apply (@slice_at _ (id_bytes ++ unknown ++ [unknown2]) L (name_bytes ++ position ++ rest)).
    - unfold data. now rewrite <- !app_assoc.
    - rewrite !len_app. simpl. lia.
    - lia. }
  assert (S4 : exists u, index data 9 = Ok u).
  { unfold index. destruct L as [|l0 [|l1 [|]]] eqn:EL; try discriminate HL.
    exists l0.
    erewrite (@index_at data (id_bytes ++ unknown ++ [unknown2]) (l1 :: name_bytes ++ position ++ rest) l0);
      [reflexivity| |].
    - unfold data. now rewrite <- !app_assoc.
    - rewrite !len_app. simpl. lia. }
  destruct S4 as [u S4].
  assert (S5 : slice 11 (11 + len name_bytes) data = name_bytes).
  { apply (@slice_at _ (id_bytes ++ unknown ++ [unknown2] ++ L) name_bytes (position ++ rest)).
    - unfold data. now rewrite <- !app_assoc.
    - rewrite !len_app. simpl. lia.
    - lia. }
  assert (S6 : slice (11 + len name_bytes) (11 + len name_bytes + 3 * 4) data = position).
  { apply (@slice_at _ (id_bytes ++ unknown ++ [unknown2] ++ L ++ name_bytes) position rest).
    - unfold data. now rewrite <- !app_assoc.
    - rewrite !len_app. simpl. lia.
    - lia. }
  assert (S7 : slice_from (11 + len name_bytes + 3 * 4) data = rest).
  { apply (@slice_from_at _ (id_bytes ++ unknown ++ [unknown2] ++ L ++ name_bytes ++ position) rest).
    - unfold data. now rewrite <- !app_assoc.
    - rewrite !len_app. simpl. lia. }
  unfold bind, lift, ret.
  rewrite S1, S2, S3, S4.
  unfold unpack_I, unpack_H.
  rewrite !unpack_uint_ok by assumption.
  rewrite !(u16_roundtrip _ Hname : Z.to_nat (le_value L) = _).
  rewrite S5, Hdec, S6, Hfff, S7.
  destruct (contains (literal "Drop") item_name); [|now rewrite app_nil_r; destruct w].
  unfold pack_eq_HI.
  assert (Hfit : fits 4 (le_value id_bytes) = true).
  { pose proof (le_value_range id_bytes) as R. rewrite Hid in R.
    unfold fits. apply andb_true_iff. split; [apply Z.leb_le|apply Z.ltb_lt]; lia. }
  rewrite Hfit. reflexivity.
Qed.

Ltac layout :=
  match goal with
  | data := _ |- _ = _ => unfold data; now rewrite <- ?app_assoc
  end.

Ltac sizes := rewrite ?len_app, ?len_le_bytes; simpl; lia.

Ltac slice_of pre fld rst :=
  apply (@slice_at _ pre fld rst); [layout | sizes | sizes].

Ltac suffix_of pre rst :=
  apply (@slice_from_at _ pre rst); [layout | sizes].


(** [handle_shoot] reads the direction but hands it back with the
    remainder: the returned slice starts right after the name. *)
Lemma handle_shoot_framed
      (name_bytes direction rest : bytes) (name : str) (w : world) :
  (Z.of_nat (len name_bytes) < 65536)%Z -> len direction = 12 ->
  decode name_bytes = Ok name ->
  exists d,
    handle_shoot (shoot_packet name_bytes direction rest) w
    = (Ok (direction ++ rest, msg_shoot name d), w).
Proof.
  intros Hname Hdir Hdec.
  destruct (unpack_fff_ok direction Hdir) as [d Hfff]. exists d.
  set (L := le_bytes 2 (Z.of_nat (len name_bytes))).
  assert (HL : len L = 2) by apply len_le_bytes.
  pose proof (u16_roundtrip _ Hname : Z.to_nat (le_value L) = _) as HLv.
  unfold handle_shoot, shoot_packet. fold L.
  set (data := L ++ name_bytes ++ direction ++ rest).
  assert (S1 : slice 0 2 data = L)
    by slice_of (@nil byte) L (name_bytes ++ direction ++ rest).
  assert (S2 : slice 2 (len name_bytes + 2) data = name_bytes)
    by slice_of L name_bytes (direction ++ rest).
  assert (S3 : slice (len name_bytes + 2) (len name_bytes + 2 + 12) data
               = direction)
    by slice_of (L ++ name_bytes) direction rest.
  assert (S4 : slice_from (2 + len name_bytes) data = direction ++ rest)
    by suffix_of (L ++ name_bytes) (direction ++ rest).
  unfold bind, lift, ret.
  rewrite S1. unfold unpack_H. rewrite unpack_uint_ok by assumption.
  rewrite !HLv, S3, Hfff, S2, Hdec, S4. reflexivity.
Qed.

Lemma decode_raises (data : bytes) (e : exn) :
  decode data = Raise e -> e = UnicodeDecodeError.
Proof.
  remember (List.length data) as n eqn:Hn.
  revert data Hn. induction n as [n IH] using lt_wf_ind. intros data Hn.
  destruct data as [|b0 r0]; simpl; [discriminate|].
  simpl in Hn.
  repeat match goal with
         | |- (if ?c then _ else _) = _ -> _ => destruct c
         | |- match ?l with [] => _ | _ :: _ => _ end = _ -> _ =>
             destruct l; simpl in Hn
         | |- Raise _ = Raise _ -> _ => intros [= <-]; reflexivity
         | |- rbind (decode ?r) ?k = _ -> _ =>
             intros H; destruct (decode r) as [s|e'] eqn:E; simpl in H;
             [discriminate|injection H as <-;
                           refine (IH _ _ r eq_refl E); subst n; simpl; lia]
         end.
Qed.

Lemma handle_reload_framed
      (weapon_bytes ammo_bytes count_bytes rest : bytes) (w : world) :
  (Z.of_nat (len weapon_bytes) < 65536)%Z ->
  (Z.of_nat (len ammo_bytes) < 65536)%Z ->
  len count_bytes = 4 ->
  handle_reload (reload_fields weapon_bytes ammo_bytes count_bytes rest) w
  = (Ok (reload_outcome weapon_bytes ammo_bytes count_bytes rest), w).
Proof.
  intros Hw Ha Hc.
  set (L := le_bytes 2 (Z.of_nat (len weapon_bytes))).
  set (K := le_bytes 2 (Z.of_nat (len ammo_bytes))).
  assert (HL : len L = 2) by apply len_le_bytes.
  assert (HK : len K = 2) by apply len_le_bytes.
  pose proof (u16_roundtrip _ Hw : Z.to_nat (le_value L) = _) as HLv.
  pose proof (u16_roundtrip _ Ha : Z.to_nat (le_value K) = _) as HKv.
  unfold handle_reload, reload_outcome, reload_fields. fold L K.
  set (data := L ++ weapon_bytes ++ K ++ ammo_bytes ++ count_bytes ++ rest).
  assert (S1 : slice 0 2 data = L)
    by slice_of (@nil byte) L
         (weapon_bytes ++ K ++ ammo_bytes ++ count_bytes ++ rest).
  assert (S2 : slice 2 (2 + len weapon_bytes) data = weapon_bytes)
    by slice_of L weapon_bytes (K ++ ammo_bytes ++ count_bytes ++ rest).
  assert (S3 : slice (2 + len weapon_bytes) (2 + len weapon_bytes + 2) data = K)
    by slice_of (L ++ weapon_bytes) K (ammo_bytes ++ count_bytes ++ rest).
  assert (S4 : slice (2 + len weapon_bytes + 2)
                     (2 + len weapon_bytes + 2 + len ammo_bytes) data
               = ammo_bytes)
    by slice_of (L ++ weapon_bytes ++ K) ammo_bytes (count_bytes ++ rest).
  assert (S5 : slice (2 + len weapon_bytes + 2 + len ammo_bytes)
                     (2 + len weapon_bytes + 2 + len ammo_bytes + 4) data
               = count_bytes)
    by slice_of (L ++ weapon_bytes ++ K ++ ammo_bytes) count_bytes rest.
  assert (S6 : slice_from (2 + len weapon_bytes + 2 + len ammo_bytes + 4) data
               = rest)
    by suffix_of (L ++ weapon_bytes ++ K ++ ammo_bytes ++ count_bytes) rest.
  unfold bind, lift, ret, try_except.
  rewrite S1. unfold unpack_H, unpack_I. rewrite unpack_uint_ok by assumption.
  rewrite !HLv, S2.
  destruct (decode weapon_bytes) as [weapon_name|e] eqn:Ew.
  - rewrite S3, unpack_uint_ok by assumption. rewrite !HKv, S4.
    destruct (decode ammo_bytes) as [ammo_name|e] eqn:Ea.
    + rewrite S5, unpack_uint_ok, S6 by assumption. reflexivity.
    + apply decode_raises in Ea. subst e. reflexivity.
  - apply decode_raises in Ew. subst e. reflexivity.
Qed.

(** The decode failure is caught whatever follows the weapon name, framed
    or not. *)
Lemma handle_reload_weapon_undecodable (data : bytes) (w : world) (e : exn) :
  len (slice 0 2 data) = 2 ->
  decode (slice 2 (2 + Z.to_nat (le_value (slice 0 2 data))) data) = Raise e ->
  handle_reload data w = (Ok (data, msg_need_reload), w).
Proof.
  intros H2 Hdec. unfold handle_reload, bind, lift, ret, try_except.
  unfold unpack_H. rewrite unpack_uint_ok by assumption.
  rewrite Hdec. apply decode_raises in Hdec. subst e. reflexivity.
Qed.

(** A reload packet cut short raises [struct.error], which [handle_reload]
    does not catch: the empty packet is such a case. *)
Lemma handle_reload_empty (w : world) :
  handle_reload [] w = (Raise struct_error, w).
Proof. reflexivity. Qed.

(** ** What every handler guarantees *)

Ltac step_through H :=
  unfold bind, lift, ret, try_except, PACKET_QUEUE_put in H;
  repeat match type of H with
         | context [match ?x with _ => _ end] =>
             lazymatch x with
             | context [match _ with _ => _ end] => fail
             | _ => destruct x eqn:?
             end
         end;
  pose proof (f_equal fst H) as Hfst; pose proof (f_equal snd H) as Hsnd;
  cbn [fst snd] in Hfst, Hsnd; clear H; subst.

Ltac suffix_case :=
  split; [reflexivity|];
  intros rest m' Hr;
  match type of Hr with
  | Raise _ = _ => discriminate Hr
  | Ok (?X, _) = Ok (_, _) => replace rest with X by congruence
  end;
  first [ eexists; reflexivity | exists 0; reflexivity ].

Ltac behave H := step_through H; suffix_case.

Lemma handle_ack_ok : well_behaved handle_ack.
Proof. intros data w r w1 H. unfold handle_ack in H. behave H. Qed.
Lemma handle_position_ok : well_behaved handle_position.
Proof. intros data w r w1 H. unfold handle_position in H. behave H. Qed.
Lemma handle_jump_ok : well_behaved handle_jump.
Proof. intros data w r w1 H. unfold handle_jump in H. behave H. Qed.
Lemma handle_sneak_ok : well_behaved handle_sneak.
Proof. intros data w r w1 H. unfold handle_sneak in H. behave H. Qed.
Lemma handle_slot_select_ok : well_behaved handle_slot_select.
Proof. intros data w r w1 H. unfold handle_slot_select in H. behave H. Qed.
Lemma handle_shoot_ok : well_behaved handle_shoot.
Proof. intros data w r w1 H. unfold handle_shoot in H. behave H. Qed.
Lemma handle_chat_ok : well_behaved handle_chat.
Proof. intros data w r w1 H. unfold handle_chat in H. behave H. Qed.
Lemma handle_actor_drop_ok : well_behaved handle_actor_drop.
Proof. intros data w r w1 H. unfold handle_actor_drop in H. behave H. Qed.
Lemma handle_region_change_ok : well_behaved handle_region_change.
Proof. intros data w r w1 H. unfold handle_region_change in H. behave H. Qed.
Lemma handle_item_acquire_ok : well_behaved handle_item_acquire.
Proof. intros data w r w1 H. unfold handle_item_acquire in H. behave H. Qed.
Lemma handle_item_pickup_ok : well_behaved handle_item_pickup.
Proof. intros data w r w1 H. unfold handle_item_pickup in H. behave H. Qed.
Lemma handle_reload_ok : well_behaved handle_reload.
Proof. intros data w r w1 H. unfold handle_reload in H. behave H. Qed.
Lemma handle_health_ok : well_behaved handle_health.
Proof. intros data w r w1 H. unfold handle_health in H. behave H. Qed.
Lemma handle_mana_ok : well_behaved handle_mana.
Proof. intros data w r w1 H. unfold handle_mana in H. behave H. Qed.
Lemma handle_ps_ok : well_behaved handle_ps.
Proof. intros data w r w1 H. unfold handle_ps in H. behave H. Qed.
Lemma handle_state_ok : well_behaved handle_state.
Proof. intros data w r w1 H. unfold handle_state in H. behave H. Qed.
Lemma handle_attack_ok : well_behaved handle_attack.
Proof. intros data w r w1 H. unfold handle_attack in H. behave H. Qed.
Lemma handle_loaded_ammo_ok : well_behaved handle_loaded_ammo.
Proof. intros data w r w1 H. unfold handle_loaded_ammo in H. behave H. Qed.

(** ** The decorated handlers and the dispatch table *)

Lemma unknown_lines_app (x y : list line) :
  unknown_lines (x ++ y) = unknown_lines x + unknown_lines y.
Proof. unfold unknown_lines. now rewrite filter_app, length_app. Qed.

Lemma format_result (name : string) (func : bytes -> M (bytes * message))
      (data rest : bytes) (m : message) (origin : ConnectionType) (w w1 : world) :
  func data w = (Ok (rest, m), w1) ->
  format name func data origin w
  = (Ok rest,
     if existsb (String.eqb name) NO_PRINT then w1
     else {| PACKET_QUEUE := PACKET_QUEUE w1;
             stdout := stdout w1 ++ [line_message (DIRECTION_FORMAT origin) m] |}).
Proof.
  intros H. unfold format, bind. rewrite H.
  destruct (existsb (String.eqb name) NO_PRINT); reflexivity.
Qed.

Lemma format_ok (name : string) (func : bytes -> M (bytes * message)) :
  well_behaved func -> decorated_ok (format name func).
Proof.
  intros Hf data origin w r w1 H.
  destruct (func data w) as [[[rest m]|e] w0] eqn:E.
  - destruct (Hf _ _ _ _ E) as [Hout Hsuf].
    rewrite (@format_result name func data rest m origin w w0 E) in H.
    pose proof (f_equal fst H) as H1. pose proof (f_equal snd H) as H2.
    cbn [fst snd] in H1, H2. subst r w1. split.
    + destruct (existsb (String.eqb name) NO_PRINT); cbn [stdout].
      * now rewrite Hout.
      * rewrite unknown_lines_app, Hout.
        change (unknown_lines [line_message (DIRECTION_FORMAT origin) m]) with 0.
        lia.
    + intros rest' [= <-]. eauto.
  - destruct (Hf _ _ _ _ E) as [Hout _].
    unfold format, bind in H. rewrite E in H.
    pose proof (f_equal fst H) as H1. pose proof (f_equal snd H) as H2.
    cbn [fst snd] in H1, H2. subst r w1. split; [now rewrite Hout|].
    discriminate.
Qed.

Lemma dispatch_ok (pid : bytes) (h : bytes -> ConnectionType -> M bytes) :
  get PACKET_HANDLERS pid = Some h -> decorated_ok h.
Proof.
  unfold PACKET_HANDLERS. cbn [get].
  repeat match goal with
         | |- (if ?c then _ else _) = _ -> _ => destruct c
         | |- Some _ = Some _ -> _ => intros [= <-]; apply format_ok
         | |- None = Some _ -> _ => discriminate
         end.
  - apply handle_ack_ok.
  - apply handle_position_ok.
  - apply handle_jump_ok.
  - apply handle_sneak_ok.
  - apply handle_slot_select_ok.
  - apply handle_shoot_ok.
  - apply handle_chat_ok.
  - apply handle_actor_drop_ok.
  - apply handle_region_change_ok.
  - apply handle_item_acquire_ok.
  - apply handle_item_pickup_ok.
  - apply handle_reload_ok.
  - apply handle_health_ok.
  - apply handle_mana_ok.
  - apply handle_ps_ok.
  - apply handle_state_ok.
  - apply handle_attack_ok.
  - apply handle_loaded_ammo_ok.
Qed.

(** ** One turn of the loop *)

Lemma loop_body_unknown (origin : ConnectionType) (data : bytes) (reads : nat)
      (w : world) :
  get PACKET_HANDLERS (slice 0 2 data) = None ->
  loop_body origin data reads w
  = (Ok (slice_from 1 data, reads + 1),
     {| PACKET_QUEUE := PACKET_QUEUE w;
        stdout := stdout w ++
                  (if reads =? 0 then [line_unknown (slice 0 2 data) data]
                   else []) |}).
Proof.
  intros H. unfold loop_body. rewrite H. unfold bind, print, ret.
  destruct reads as [|n].
  - reflexivity.
  - replace (S n + 1 <=? 1) with false
      by (symmetry; apply Nat.leb_gt; lia).
    cbn [Nat.eqb]. rewrite app_nil_r. now destruct w.
Qed.

Lemma loop_body_known (origin : ConnectionType) (data : bytes) (reads : nat)
      (w : world) (h : bytes -> ConnectionType -> M bytes) r w1 :
  get PACKET_HANDLERS (slice 0 2 data) = Some h ->
  loop_body origin data reads w = (r, w1) ->
  unknown_lines (stdout w1) = unknown_lines (stdout w) /\
  forall data' reads', r = Ok (data', reads') ->
    reads' = reads + 1 /\ exists k, data' = slice_from (2 + k) data.
Proof.
  intros Hget H. unfold loop_body in H. rewrite Hget in H. unfold bind, ret in H.
  destruct (h (slice_from 2 data) origin w) as [[d|e] w0] eqn:E;
    destruct (dispatch_ok _ _ Hget _ _ _ _ _ E) as [Hout Hsuf];
    pose proof (f_equal fst H) as H1; pose proof (f_equal snd H) as H2;
    cbn [fst snd] in H1, H2; subst r w1; (split; [assumption|]).
  - intros data' reads' [= <- <-]. split; [reflexivity|].
    destruct (Hsuf d eq_refl) as [k ->]. exists k.
    unfold slice_from. rewrite skipn_skipn. f_equal. lia.
  - discriminate.
Qed.

(** Each turn shortens the buffer: by two octets or more after a
    handler, by exactly one on an unrecognized tag. *)
Lemma loop_body_shrinks (origin : ConnectionType) (data : bytes) (reads : nat)
      (w : world) data' reads' w1 :
  2 <= len data ->
  loop_body origin data reads w = (Ok (data', reads'), w1) ->
  reads' = reads + 1 /\
  match get PACKET_HANDLERS (slice 0 2 data) with
  | Some _ => len data' + 2 <= len data
  | None => data' = slice_from 1 data /\ len data' + 1 = len data
  end.
Proof.
  intros Hlen H.
  destruct (get PACKET_HANDLERS (slice 0 2 data)) as [h|] eqn:Hget.
  - destruct (loop_body_known _ _ _ _ _ _ _ Hget H) as [_ Hk].
    destruct (Hk _ _ eq_refl) as [-> [k ->]]. split; [reflexivity|].
    rewrite len_slice_from. lia.
  - rewrite (loop_body_unknown origin _ reads w Hget) in H.
    assert (reads' = reads + 1) by congruence.
    assert (Hd : data' = slice_from 1 data) by congruence.
    repeat split; try assumption.
    rewrite Hd, len_slice_from. lia.
Qed.

(** ** The whole loop *)

Lemma while_loop_exit (fuel : nat) (origin : ConnectionType) (data : bytes)
      (reads : nat) (w : world) :
  len data < 2 ->
  while_loop fuel origin data reads w = (Ok (Some (data, reads)), w).
Proof.
  intros H. destruct fuel; cbn [while_loop];
    (replace (2 <=? len data) with false by (symmetry; apply Nat.leb_gt; lia));
    reflexivity.
Qed.

Lemma while_loop_turn (fuel : nat) (origin : ConnectionType) (data : bytes)
      (reads : nat) (w : world) :
  2 <= len data ->
  while_loop (S fuel) origin data reads w
  = match loop_body origin data reads w with
    | (Ok (data', reads'), w') => while_loop fuel origin data' reads' w'
    | (Raise e, w') => (Raise e, w')
    end.
Proof.
  intros H. cbn [while_loop].
  replace (2 <=? len data) with true by (symmetry; apply Nat.leb_le; lia).
  unfold bind. destruct (loop_body origin data reads w) as [[[d n]|e] w'];
    reflexivity.
Qed.

(** With [len data] unfoldings the loop always reaches its exit (or an
    exception), and on exit fewer than two octets remain. *)
Lemma while_loop_finishes (fuel : nat) :
  forall origin data reads w r w1,
    len data <= fuel ->
    while_loop fuel origin data reads w = (r, w1) ->
    match r with
    | Ok None => False
    | Ok (Some (rest, _)) => len rest < 2
    | Raise _ => True
    end.
Proof.
  induction fuel as [|fuel IH]; intros origin data reads w r w1 Hlen H.
  - rewrite while_loop_exit in H by lia.
    assert (r = Ok (Some (data, reads))) by congruence. subst r. lia.
  - destruct (Nat.lt_ge_cases (len data) 2) as [Hs|Hl].
    + rewrite while_loop_exit in H by lia.
      assert (r = Ok (Some (data, reads))) by congruence. now subst r.
    + rewrite while_loop_turn in H by assumption.
      destruct (loop_body origin data reads w) as [[[d n]|e] w'] eqn:E.
      * apply (IH origin d n w' r w1); [|assumption].
        destruct (loop_body_shrinks _ _ _ _ _ _ _ Hl E) as [_ Hs].
        destruct (get PACKET_HANDLERS (slice 0 2 data)); lia.
      * assert (r = Raise e) by congruence. now subst r.
Qed.

(** More unfoldings than [len data] change nothing. *)
Lemma while_loop_fuel (f1 : nat) :
  forall f2 origin data reads w,
    len data <= f1 -> len data <= f2 ->
    while_loop f1 origin data reads w = while_loop f2 origin data reads w.
Proof.
  induction f1 as [|f1 IH]; intros f2 origin data reads w H1 H2.
  - now rewrite !while_loop_exit by lia.
  - destruct (Nat.lt_ge_cases (len data) 2) as [Hs|Hl].
    + now rewrite !while_loop_exit by lia.
    + destruct f2 as [|f2]; [lia|].
      rewrite !while_loop_turn by assumption.
      destruct (loop_body origin data reads w) as [[[d n]|e] w'] eqn:E;
        [|reflexivity].
      destruct (loop_body_shrinks _ _ _ _ _ _ _ Hl E) as [_ Hs].
      apply IH; destruct (get PACKET_HANDLERS (slice 0 2 data)); lia.
Qed.

(** After the first turn the loop never prints an unrecognized tag. *)
Lemma while_loop_quiet (fuel : nat) :
  forall origin data reads w r w1,
    1 <= reads ->
    while_loop fuel origin data reads w = (r, w1) ->
    unknown_lines (stdout w1) = unknown_lines (stdout w).
Proof.
  induction fuel as [|fuel IH]; intros origin data reads w r w1 Hr H.
  - cbn [while_loop] in H. destruct (2 <=? len data); unfold ret in H;
      now replace w1 with w by congruence.
  - destruct (Nat.lt_ge_cases (len data) 2) as [Hs|Hl].
    + rewrite while_loop_exit in H by lia. now replace w1 with w by congruence.
    + rewrite while_loop_turn in H by assumption.
      destruct (loop_body origin data reads w) as [[[d n]|e] w'] eqn:E.
      * destruct (loop_body_shrinks _ _ _ _ _ _ _ Hl E) as [Hn _].
        rewrite (IH origin d n w' r w1 ltac:(lia) H).
        destruct (get PACKET_HANDLERS (slice 0 2 data)) as [h|] eqn:Hget.
        -- exact (proj1 (loop_body_known _ _ _ _ _ _ _ Hget E)).
        -- rewrite (loop_body_unknown origin _ reads w Hget) in E.
           replace w' with
             {| PACKET_QUEUE := PACKET_QUEUE w;
                stdout := stdout w ++
                          (if reads =? 0
                           then [line_unknown (slice 0 2 data) data] else []) |}
             by congruence.
           cbn [stdout]. destruct reads; [lia|]. cbn [Nat.eqb].
           now rewrite app_nil_r.
      * replace w1 with w' by congruence.
        destruct (get PACKET_HANDLERS (slice 0 2 data)) as [h|] eqn:Hget.
        -- exact (proj1 (loop_body_known _ _ _ _ _ _ _ Hget E)).
        -- rewrite (loop_body_unknown origin _ reads w Hget) in E. discriminate.
Qed.

(** A call of the loop prints the unrecognized-tag line once when its
    first tag is unrecognized, and never otherwise. *)
Lemma while_loop_unknown_lines (fuel : nat) (origin : ConnectionType)
      (data : bytes) (w : world) r w1 :
  2 <= len data -> 1 <= fuel ->
  while_loop fuel origin data 0 w = (r, w1) ->
  unknown_lines (stdout w1)
  = unknown_lines (stdout w)
    + match get PACKET_HANDLERS (slice 0 2 data) with
      | Some _ => 0
      | None => 1
      end.
Proof.
  intros Hl Hf H. destruct fuel as [|fuel]; [lia|].
  rewrite while_loop_turn in H by assumption.
  destruct (get PACKET_HANDLERS (slice 0 2 data)) as [h|] eqn:Hget.
  - destruct (loop_body origin data 0 w) as [[[d n]|e] w'] eqn:E.
    + destruct (loop_body_known _ _ _ _ _ _ _ Hget E) as [Hout Hk].
      destruct (Hk _ _ eq_refl) as [-> _].
      rewrite (while_loop_quiet fuel origin d (0 + 1) w' r w1 ltac:(lia) H).
      lia.
    + replace w1 with w' by congruence.
      rewrite (proj1 (loop_body_known _ _ _ _ _ _ _ Hget E)). lia.
  - rewrite (loop_body_unknown origin _ 0 w Hget) in H.
    rewrite (while_loop_quiet fuel origin _ (0 + 1) _ r w1 ltac:(lia) H).
    cbn [stdout Nat.eqb]. rewrite unknown_lines_app. reflexivity.
Qed.

(** ** Injection, framing, resynchronisation, termination *)

(** C1.  For every actor-drop packet (item id, four unknown octets, one
    unknown octet, length-prefixed name, position) whose name decodes,
    the handler registered for tag [mk] returns the rest of the buffer and
    leaves the queue extended by exactly one pickup packet, the octets
    65 65 followed by the item id on four octets in little-endian order,
    when the name contains "Drop", and unchanged otherwise. *)
Theorem actor_drop_injects_pickup
        (id_bytes unknown : bytes) (unknown2 : byte)
        (name_bytes position rest : bytes) (item_name : str)
        (origin : ConnectionType) (w : world) :
  len id_bytes = 4 -> len unknown = 4 -> len position = 12 ->
  (Z.of_nat (len name_bytes) < 65536)%Z ->
  decode name_bytes = Ok item_name ->
  exists handler m,
    get PACKET_HANDLERS (b "mk") = Some handler /\
    handler (actor_drop_packet id_bytes unknown unknown2 name_bytes position rest)
            origin w
    = (Ok rest,
       {| PACKET_QUEUE :=
            PACKET_QUEUE w ++
            (if contains (literal "Drop") item_name
             then [[x65; x65] ++ le_bytes 4 (le_value id_bytes)] else []);
          stdout := stdout w ++ [line_message (DIRECTION_FORMAT origin) m] |}).
Proof.
  intros Hid Hun Hpos Hname Hdec.
  destruct (handle_actor_drop_framed id_bytes unknown unknown2 name_bytes
              position rest item_name w Hid Hun Hpos Hname Hdec)
    as (x & y & z & H).
  eexists. eexists. split; [reflexivity|].
  rewrite (format_result _ _ _ _ _ origin _ _ H). reflexivity.
Qed.

Lemma actor_drop_injects_pickup_witness :
  exists handler m,
    get PACKET_HANDLERS (b "mk") = Some handler /\
    handler (actor_drop_packet [x2a; x00; x00; x00] [x00; x00; x00; x00] x00
               (b "GunDrop")
               [x00; x00; x80; x3f; x00; x00; x00; x00; x00; x00; x00; x00]
               (b "jp" ++ [x01]))
            CLIENT empty_world
    = (Ok (b "jp" ++ [x01]),
       {| PACKET_QUEUE := [] ++ [[x65; x65] ++ le_bytes 4 42];
          stdout := [] ++ [line_message (DIRECTION_FORMAT CLIENT) m] |}).
Proof.
  apply (actor_drop_injects_pickup
           [x2a; x00; x00; x00] [x00; x00; x00; x00] x00 (b "GunDrop")
           [x00; x00; x80; x3f; x00; x00; x00; x00; x00; x00; x00; x00]
           (b "jp" ++ [x01]) (literal "GunDrop") CLIENT empty_world);
    reflexivity.
Defined.

(** The item id goes out as it came in. *)
Lemma pickup_packet_echoes_id (id_bytes : bytes) :
  len id_bytes = 4 ->
  [x65; x65] ++ le_bytes 4 (le_value id_bytes) = [x65; x65] ++ id_bytes.
Proof.
  intros H. f_equal. rewrite <- H. apply le_bytes_le_value.
Qed.



(** C3.  On the shoot packet for "Pistol" with direction (1.0, 0, 0),
    followed in the buffer by a jump packet, the handler registered for
    tag [*i] returns the twelve direction octets together with the jump
    packet: the direction is read but not consumed. *)
Theorem shoot_leaves_direction_in_buffer :
  let direction :=
    [x00; x00; x80; x3f; x00; x00; x00; x00; x00; x00; x00; x00] in
  let rest := b "jp" ++ [x01] in
  exists handler w1,
    get PACKET_HANDLERS (b "*i") = Some handler /\
    handler (shoot_packet (b "Pistol") direction rest) CLIENT empty_world
    = (Ok (direction ++ rest), w1) /\
    direction ++ rest <> rest.
Proof.
  eexists. eexists. split; [reflexivity|]. split; [reflexivity|]. discriminate.
Qed.

(** C6.  For every reload packet (length-prefixed weapon name,
    length-prefixed ammo name, count on four octets), the handler
    registered for tag [rl] returns without raising: when both names
    decode it returns the rest of the buffer and reports the reload; when
    either name fails to decode it returns the buffer it was given,
    unchanged, and reports "Need to reload!". *)
Theorem reload_falls_back_on_decode_error
        (weapon_bytes ammo_bytes count_bytes rest : bytes)
        (origin : ConnectionType) (w : world) :
  (Z.of_nat (len weapon_bytes) < 65536)%Z ->
  (Z.of_nat (len ammo_bytes) < 65536)%Z ->
  len count_bytes = 4 ->
  exists handler,
    get PACKET_HANDLERS (b "rl") = Some handler /\
    handler (reload_fields weapon_bytes ammo_bytes count_bytes rest) origin w
    = match decode weapon_bytes, decode ammo_bytes with
      | Ok weapon_name, Ok ammo_name =>
          (Ok rest,
           {| PACKET_QUEUE := PACKET_QUEUE w;
              stdout := stdout w ++
                [line_message (DIRECTION_FORMAT origin)
                   (msg_reloaded weapon_name (le_value count_bytes) ammo_name)] |})
      | _, _ =>
          (Ok (reload_fields weapon_bytes ammo_bytes count_bytes rest),
           {| PACKET_QUEUE := PACKET_QUEUE w;
              stdout := stdout w ++
                [line_message (DIRECTION_FORMAT origin) msg_need_reload] |})
      end.
Proof.
  intros Hw Ha Hc.
  pose proof (handle_reload_framed weapon_bytes ammo_bytes count_bytes rest w
                Hw Ha Hc) as H.
  eexists. split; [reflexivity|].
  unfold reload_outcome in H.
  destruct (decode weapon_bytes); [destruct (decode ammo_bytes)|];
    rewrite (format_result _ _ _ _ _ origin _ _ H); reflexivity.
Qed.

Lemma reload_falls_back_on_decode_error_witness :
  exists handler,
    get PACKET_HANDLERS (b "rl") = Some handler /\
    handler (reload_fields [xff; xfe] (b "Bullets") [x06; x00; x00; x00] [x01])
            SERVER empty_world
    = (Ok (reload_fields [xff; xfe] (b "Bullets") [x06; x00; x00; x00] [x01]),
       {| PACKET_QUEUE := [];
          stdout := [] ++ [line_message (DIRECTION_FORMAT SERVER) msg_need_reload] |}).
Proof.
  apply (reload_falls_back_on_decode_error
           [xff; xfe] (b "Bullets") [x06; x00; x00; x00] [x01] SERVER empty_world);
    reflexivity.
Defined.

Lemma parse_unfold (data : bytes) (port : Z) (origin : ConnectionType)
      (w : world) :
  port <> MASTER_PORT ->
  parse data port origin w
  = match while_loop (len data) origin data 0 w with
    | (Ok r, w1) => (Ok (option_map (fun _ => tt) r), w1)
    | (Raise e, w1) => (Raise e, w1)
    end.
Proof.
  intros H. unfold parse.
  destruct (Z.eqb_spec port MASTER_PORT) as [E|_]; [contradiction|].
  unfold bind, ret. destruct (while_loop (len data) origin data 0 w) as [[r|e] w1];
    reflexivity.
Qed.

(** C10.  The loop of [parse] terminates on every buffer.  A turn taken
    with two octets or more shortens the buffer, by two or more when a
    handler is dispatched (it returns a suffix of the buffer without its
    tag) and by exactly one on an unrecognized tag; hence [len data] turns
    are enough for the loop to reach its exit or an exception, further
    unfoldings change nothing, fewer than two octets are left on exit, and
    [parse] returns or raises.  A buffer shorter than two octets is
    dropped without any output. *)
Theorem parse_terminates (data : bytes) (port : Z) (origin : ConnectionType)
        (w : world) :
  (forall reads w0 data' reads' w1,
      2 <= len data ->
      loop_body origin data reads w0 = (Ok (data', reads'), w1) ->
      match get PACKET_HANDLERS (slice 0 2 data) with
      | Some _ => (exists k, data' = slice_from (2 + k) data)
                  /\ len data' + 2 <= len data
      | None => data' = slice_from 1 data /\ len data' + 1 = len data
      end) /\
  (forall fuel,
      len data <= fuel ->
      while_loop fuel origin data 0 w = while_loop (len data) origin data 0 w /\
      match fst (while_loop fuel origin data 0 w) with
      | Ok None => False
      | Ok (Some (rest, _)) => len rest < 2
      | Raise _ => True
      end) /\
  (exists w1, parse data port origin w = (Ok (Some tt), w1)
              \/ exists e, parse data port origin w = (Raise e, w1)) /\
  (len data < 2 -> parse data port origin w = (Ok (Some tt), w)).
Proof.
  split; [|split; [|split]].
  - intros reads w0 data' reads' w1 Hl H.
    pose proof (loop_body_shrinks _ _ _ _ _ _ _ Hl H) as [_ Hs].
    destruct (get PACKET_HANDLERS (slice 0 2 data)) as [h|] eqn:Hget;
      [|assumption].
    split; [|assumption].
    destruct (loop_body_known _ _ _ _ _ _ _ Hget H) as [_ Hk].
    now destruct (Hk _ _ eq_refl) as [_ Hsuf].
  - intros fuel Hf. split.
    + apply while_loop_fuel; lia.
    + destruct (while_loop fuel origin data 0 w) as [r w1] eqn:E.
      exact (while_loop_finishes fuel _ _ _ _ _ _ Hf E).
  - unfold parse. destruct (port =? MASTER_PORT)%Z.
    + exists w. now left.
    + unfold bind, ret.
      destruct (while_loop (len data) origin data 0 w) as [r w1] eqn:E.
      pose proof (while_loop_finishes _ _ _ _ _ _ _ (Nat.le_refl _) E) as F.
      exists w1. destruct r as [[[rest n]|]|e]; [now left|contradiction|].
      right. now exists e.
  - intros Hs. unfold parse. destruct (port =? MASTER_PORT)%Z; [reflexivity|].
    unfold bind. now rewrite while_loop_exit by assumption.
Qed.

Lemma parse_terminates_witness :
  parse [x7a] 3000 CLIENT empty_world = (Ok (Some tt), empty_world) /\
  len (slice_from 1 (b "zjp")) + 1 = len (b "zjp").
Proof.
  split.
  - apply (parse_terminates [x7a] 3000 CLIENT empty_world). simpl. lia.
  - refine (proj2 (proj1 (parse_terminates (b "zjp") 3000 CLIENT empty_world)
                     0 empty_world (slice_from 1 (b "zjp")) 1 _ _ _)).
    + simpl. lia.
    + reflexivity.
Defined.

(** C4, as the code has it.  For every buffer whose leading two octets
    have no entry in the dispatch table, each turn of the loop taken on it
    advances by exactly one octet, and prints the unrecognized-tag line
    only when it is the first turn of the call; a call of [parse] on such
    a buffer prints that line exactly once, and a call on any buffer
    prints it at most once.  Unrecognized tags met after the first turn
    are not logged. *)
Theorem unknown_tag_resync
        (data : bytes) (port : Z) (origin : ConnectionType) (w : world) :
  2 <= len data ->
  get PACKET_HANDLERS (slice 0 2 data) = None ->
  (forall reads w0,
      loop_body origin data reads w0
      = (Ok (slice_from 1 data, reads + 1),
         {| PACKET_QUEUE := PACKET_QUEUE w0;
            stdout := stdout w0 ++
                      (if reads =? 0 then [line_unknown (slice 0 2 data) data]
                       else []) |})) /\
  (forall r w1,
      port <> MASTER_PORT ->
      parse data port origin w = (r, w1) ->
      unknown_lines (stdout w1) = unknown_lines (stdout w) + 1) /\
  (forall any r w1,
      parse any port origin w = (r, w1) ->
      unknown_lines (stdout w1) <= unknown_lines (stdout w) + 1).
Proof.
  intros Hl Hget. split; [|split].
  - intros reads w0. now apply loop_body_unknown.
  - intros r w1 Hp H. rewrite parse_unfold in H by assumption.
    destruct (while_loop (len data) origin data 0 w) as [r0 w0] eqn:E.
    assert (Hf : 1 <= len data) by lia.
    pose proof (while_loop_unknown_lines _ _ _ _ _ _ Hl Hf E) as U.
    rewrite Hget in U.
    destruct r0; now replace w1 with w0 by congruence.
  - intros any r w1 H. unfold parse in H.
    destruct (port =? MASTER_PORT)%Z.
    + unfold ret in H. replace w1 with w by congruence. lia.
    + unfold bind, ret in H.
      destruct (while_loop (len any) origin any 0 w) as [r0 w0] eqn:E.
      assert (w1 = w0) by (destruct r0; congruence). subst w1.
      destruct (Nat.lt_ge_cases (len any) 2) as [Hs|Hg].
      * rewrite while_loop_exit in E by assumption.
        replace w0 with w by congruence. lia.
      * assert (Hf : 1 <= len any) by lia.
        rewrite (while_loop_unknown_lines _ _ _ _ _ _ Hg Hf E).
        destruct (get PACKET_HANDLERS (slice 0 2 any)); lia.
Qed.

Lemma unknown_tag_resync_witness :
  unknown_lines
    (stdout (snd (parse (b "zjp" ++ [x01] ++ b "zz") 3000 CLIENT empty_world)))
  = unknown_lines (stdout empty_world) + 1.
Proof.
  refine (proj1 (proj2 (unknown_tag_resync (b "zjp" ++ [x01] ++ b "zz") 3000
                          CLIENT empty_world _ _)) _ _ _ (surjective_pairing _)).
  - simpl. lia.
  - reflexivity.
  - discriminate.
Defined.

(** C4, as stated, fails.  On the buffer [z j p 01 z z] the loop meets an
    unrecognized tag, then a jump packet, then an unrecognized tag again:
    two occurrence-runs, of which only the first is logged. *)
Lemma second_run_not_logged :
  let data := b "zjp" ++ [x01] ++ b "zz" in
  2 <= len data /\
  get PACKET_HANDLERS (slice 0 2 data) = None /\
  loop_tags (len data) CLIENT data 0 empty_world = [true; false; true] /\
  runs (loop_tags (len data) CLIENT data 0 empty_world) = 2 /\
  stdout (snd (parse data 3000 CLIENT empty_world))
  = [line_unknown (b "zj") data;
     line_message (DIRECTION_FORMAT CLIENT) (msg_jump true)] /\
  ~ logged_once_per_run data CLIENT empty_world.
Proof.
  cbv zeta. repeat split; try reflexivity.
  - simpl. lia.
  - unfold logged_once_per_run. vm_compute. discriminate.
Qed.

End ParserSpec.

(* ================================================================== *)
(** * Properties of the relay engine *)
(* ================================================================== *)

Module BackoffSpec.
Import proxy.
Local Open Scope R_scope.

(** [math.e ** x] is the exponential. *)
Lemma e_pow (x : R) : Rpower (exp 1) x = exp x.
Proof. unfold Rpower. now rewrite ln_exp, Rmult_1_r. Qed.




Lemma exp_le_1 (retries : nat) : exp (- INR retries / 10) <= 1.
Proof.
  pose proof (pos_INR retries) as Hp.
  destruct (Req_dec (INR retries) 0) as [E|N].
  - rewrite E. replace (- 0 / 10) with 0 by field. rewrite exp_0. lra.
  - left. rewrite <- exp_0. apply exp_increasing. lra.
Qed.








End BackoffSpec.

Module DoubleSpec.
Import proxy PrimFloat.
#[local] Set Warnings "-inexact-float".

(** In double precision the value at retry count 0 is the double just
    below 2: [x ** 0.0] is 1.0 whatever [x], and
    [20 * (0.5 - 0.4)] rounds to 1.9999999999999996. *)
Lemma retry_interval_double_0 (e_pow : PrimFloat.float -> PrimFloat.float) :
  e_pow 0%float = 1%float ->
  double.retry_interval_double e_pow 0 = 1.9999999999999996%float /\
  PrimFloat.ltb (double.retry_interval_double e_pow 0) 2%float = true.
Proof.
  intros H. unfold double.retry_interval_double.
  change (PrimFloat.div (double.float_of_int (- Z.of_nat 0)) 10%float) with 0%float.
  rewrite H. split; vm_compute; reflexivity.
Qed.

(** Once [math.e ** x] is too small to change the sum [1 + ...], the
    interval is the double 12 exactly. *)
Lemma retry_interval_double_saturates
      (e_pow : PrimFloat.float -> PrimFloat.float) (retries : nat) :
  PrimFloat.add 1%float
    (e_pow (PrimFloat.div (double.float_of_int (- Z.of_nat retries)) 10%float))
  = 1%float ->
  double.retry_interval_double e_pow retries = 12%float.
Proof.
  intros H. unfold double.retry_interval_double. rewrite H.
  vm_compute. reflexivity.
Qed.

End DoubleSpec.

Module ProxySpec.
Import Python helpers proxy wire relay.

Ltac pair3 H :=
  let H1 := fresh in let H2 := fresh in let H3 := fresh in
  pose proof (f_equal (fun x => fst (fst x)) H) as H1;
  pose proof (f_equal (fun x => snd (fst x)) H) as H2;
  pose proof (f_equal snd H) as H3;
  cbn [fst snd] in H1, H2, H3; clear H; subst.

Section Respects.
Variable R : state -> state -> Prop.
Variable E : event -> Prop.
Hypothesis R_refl : forall s, R s s.
Hypothesis R_trans : forall s1 s2 s3, R s1 s2 -> R s2 s3 -> R s1 s3.

Lemma respects_ret {A} (a : A) : respects R E (ret a).
Proof. intros s o s' t H. unfold ret in H. pair3 H. auto. Qed.

Lemma respects_raise {A} (e : exn) : respects R E (@raise A e).
Proof. intros s o s' t H. unfold raise in H. pair3 H. auto. Qed.

Lemma respects_emit (e : event) : E e -> respects R E (emit e).
Proof. intros He s o s' t H. unfold emit in H. pair3 H. auto. Qed.

Lemma respects_await (c : conn_id) : respects R E (await_conn c).
Proof.
  intros s o s' t H. unfold await_conn in H.
  destruct (_conn_event (conn s c)); pair3 H; auto.
Qed.

Lemma respects_bind {A B} (c : Eff A) (k : A -> Eff B) :
  respects R E c -> (forall a, respects R E (k a)) -> respects R E (bind c k).
Proof.
  intros Hc Hk s o s' t H. unfold bind in H.
  destruct (c s) as [[o1 s1] t1] eqn:Ec.
  destruct (Hc _ _ _ _ Ec) as [R1 E1].
  destruct o1 as [a| | |]; try (pair3 H; auto; fail).
  destruct (k a s1) as [[o2 s2] t2] eqn:Ek.
  destruct (Hk a _ _ _ _ Ek) as [R2 E2].
  pair3 H. split; [eauto|]. apply Forall_app. auto.
Qed.

Lemma respects_try_except {A} (body : Eff A) (m : exn -> bool)
      (handler : exn -> Eff A) :
  respects R E body -> (forall e, respects R E (handler e)) ->
  respects R E (try_except body m handler).
Proof.
  intros Hb Hh s o s' t H. unfold try_except in H.
  destruct (body s) as [[o1 s1] t1] eqn:Eb.
  destruct (Hb _ _ _ _ Eb) as [R1 E1].
  destruct o1 as [a|e| |]; try (pair3 H; auto; fail).
  destruct (m e); [|pair3 H; auto].
  destruct (handler e s1) as [[o2 s2] t2] eqn:Eh.
  destruct (Hh e _ _ _ _ Eh) as [R2 E2].
  pair3 H. split; [eauto|]. apply Forall_app. auto.
Qed.

Lemma respects_try_finally {A} (body : Eff A) (final : Eff unit) :
  respects R E body -> respects R E final ->
  respects R E (try_finally body final).
Proof.
  intros Hb Hf s o s' t H. unfold try_finally in H.
  destruct (body s) as [[o1 s1] t1] eqn:Eb.
  destruct (Hb _ _ _ _ Eb) as [R1 E1].
  destruct (final s1) as [[o2 s2] t2] eqn:Ef.
  destruct (Hf _ _ _ _ Ef) as [R2 E2].
  destruct o1 as [a|e| |]; try (pair3 H; auto; fail);
    destruct o2 as [u|e2| |]; pair3 H;
    (split; [eauto|]; apply Forall_app; auto).
Qed.

Lemma respects_branch {A} (test : state -> bool) (c1 c2 : Eff A) :
  respects R E c1 -> respects R E c2 ->
  respects R E (fun s => if test s then c1 s else c2 s).
Proof.
  intros H1 H2 s o s' t H. destruct (test s); eauto.
Qed.

Hypothesis E_print : forall l, E (ev_print l).

(** [stop], from what its primitive state changes and events satisfy. *)
Section Primitive.
Hypothesis R_stop :
  forall s c, R s (set_conn s c (with_stop_event (conn s c) true)).
Hypothesis R_close :
  forall s c sk,
    _sock (conn s c) = Some sk ->
    R s (set_conn s c (with_sock (conn s c)
                         (Some {| status := closed; sent := sent sk |}))).
Hypothesis E_shutdown : forall c ok, E (ev_shutdown c ok).
Hypothesis E_close : forall c, E (ev_close c).

Lemma respects_shutdown_and_close (c : conn_id) :
  respects R E (shutdown_and_close c).
Proof.
  intros s o s' t H. unfold shutdown_and_close in H.
  destruct (_sock (conn s c)) as [sk|] eqn:Es; [|pair3 H; auto].
  destruct (status sk); pair3 H; auto.
Qed.

Lemma respects_stop_rec (fuel : nat) :
  forall self, respects R E (stop_rec fuel self).
Proof.
  induction fuel as [|fuel IH]; intros self.
  - intros s o s' t H. cbn [stop_rec] in H. pair3 H. auto.
  - cbn [stop_rec]. apply respects_try_finally.
    + apply respects_try_except.
      * apply respects_shutdown_and_close.
      * intros e. apply respects_emit. apply E_print.
    + apply respects_bind.
      * intros s o s' t H. unfold update in H. pair3 H. split; [|auto].
        apply R_stop.
      * intros _. apply respects_branch; [apply IH|apply respects_ret].
Qed.

Lemma respects_stop (self : conn_id) : respects R E (stop self).
Proof. apply respects_stop_rec. Qed.

End Primitive.

Lemma run_iteration_unfold (parse : decoder) (self : conn_id)
      (incoming : result bytes) :
  run_iteration parse self incoming
  = bind (receive self incoming)
      (fun data => bind (send self data)
                     (fun _ => after_forwarding parse self data)).
Proof. reflexivity. Qed.

(** A turn of the run loop of [self], from what [stop self], the change
    of the module state and a write on the destination's socket satisfy. *)
Section Turn.
Variable self : conn_id.
Hypothesis stop_ok : respects R E (stop self).
Hypothesis R_process :
  forall s w,
    R s {| the_listener := the_listener s; the_broker := the_broker s;
           process := w |}.
Hypothesis R_append :
  forall data s sk,
    _sock (conn s (dest_conn self)) = Some sk -> status sk = connected ->
    R s (set_conn s (dest_conn self)
           (with_sock (conn s (dest_conn self))
              (Some {| status := connected; sent := sent sk ++ [data] |}))).
Hypothesis E_sendall : forall data ok, E (ev_sendall (dest_conn self) data ok).

Lemma respects_call_parse (parse : decoder) (data : bytes) :
  E (ev_parse data) -> respects R E (call_parse parse data self).
Proof.
  intros E_parse s o s' t H. unfold call_parse in H.
  destruct (parse data (port (conn s self)) (_conn_type (conn s self))
              (process s)) as [r w].
  pair3 H. auto.
Qed.

Lemma respects_get_nowait : respects R E PACKET_QUEUE_get_nowait.
Proof.
  intros s o s' t H. unfold PACKET_QUEUE_get_nowait in H.
  destruct (get_nowait (parser.PACKET_QUEUE (process s))) as [[packet q]|e];
    pair3 H; auto.
Qed.

Lemma respects_send (data : bytes) : respects R E (send self data).
Proof.
  unfold send. apply respects_bind; [apply respects_await|].
  intros _. apply respects_try_except.
  - intros s o s' t H. unfold sendall in H.
    destruct (_sock (conn s (dest_conn self))) as [sk|] eqn:Ek; [|pair3 H; auto].
    destruct (status sk) eqn:Est; pair3 H; auto.
  - intros e. apply respects_bind.
    + apply respects_emit. apply E_print.
    + intros _. apply stop_ok.
Qed.

Lemma respects_after_forwarding (parse : decoder) (data : bytes) :
  E (ev_parse data) -> respects R E (after_forwarding parse self data).
Proof.
  intros E_parse. unfold after_forwarding. apply respects_bind.
  - destruct (bytes_eqb data []).
    + apply stop_ok.
    + apply respects_try_except; [now apply respects_call_parse|].
      intros e. apply respects_emit, E_print.
  - intros _.
    apply (respects_branch
             (fun s => ConnectionType_eqb (_conn_type (conn s self)) CLIENT));
      [|apply respects_ret].
    apply respects_try_except; [|intros _; apply respects_ret].
    apply respects_bind; [apply respects_get_nowait|].
    intros packet. apply respects_send.
Qed.

Lemma respects_run_iteration (parse : decoder) (incoming : result bytes) :
  (forall data, E (ev_recv self data)) -> (forall data, E (ev_parse data)) ->
  respects R E (run_iteration parse self incoming).
Proof.
  intros E_recv E_parse. rewrite run_iteration_unfold. apply respects_bind.
  - intros s o s' t H. unfold receive in H.
    destruct (_sock (conn s self)); [|pair3 H; auto].
    destruct incoming; pair3 H; auto.
  - intros data. apply respects_bind.
    + apply respects_send.
    + intros _. apply respects_after_forwarding, E_parse.
Qed.

End Turn.

End Respects.

(** ** stop *)

Ltac expose s :=
  destruct s as [[se1 ce1 r1 [[st1 sent1]|] ct1 p1]
                 [se2 ce2 r2 [[st2 sent2]|] ct2 p2] w].

(** Two unfoldings are all the cascade ever uses. *)
Lemma stop_rec_enough (fuel : nat) (self : conn_id) (s : state) :
  stop_rec (2 + fuel) self s = stop self s.
Proof.
  expose s; destruct self, se1, se2;
    try destruct st1; try destruct st2; reflexivity.
Qed.

(** C9.  For a linked pair whose two connections have been opened,
    [stop] on either of them returns without raising and leaves both
    Closed: both stop events set, neither socket a live connection any
    more.  Called again on either connection of the pair it returns
    without raising and leaves the state as it is.  The cascade needs no
    more than the two unfoldings [stop] is defined with. *)
Theorem stop_closes_pair (self : conn_id) (s : state) :
  opened s listener = true -> opened s broker = true ->
  exists s1 t1,
    stop self s = (Returns tt, s1, t1) /\
    is_closed s1 listener = true /\ is_closed s1 broker = true /\
    (forall again, exists t2, stop again s1 = (Returns tt, s1, t2)) /\
    (forall fuel, stop_rec (2 + fuel) self s = stop self s).
Proof.
  intros Hl Hb.
  assert (Hfuel : forall fuel, stop_rec (2 + fuel) self s = stop self s)
    by (intros; apply stop_rec_enough).
  revert Hl Hb Hfuel. expose s; try discriminate.
  destruct self, se1, se2, st1, st2; try discriminate; intros _ _ Hfuel;
    (eexists; eexists; split; [reflexivity|];
     split; [reflexivity|]; split; [reflexivity|];
     split; [intros again; destruct again; eexists; reflexivity|exact Hfuel]).
Qed.

Lemma stop_closes_pair_witness :
  exists s1 t1,
    stop listener relaying_pair = (Returns tt, s1, t1) /\
    is_closed s1 listener = true /\ is_closed s1 broker = true /\
    (forall again, exists t2, stop again s1 = (Returns tt, s1, t2)) /\
    (forall fuel, stop_rec (2 + fuel) listener relaying_pair
                  = stop listener relaying_pair).
Proof.
  apply (stop_closes_pair listener relaying_pair); reflexivity.
Defined.

(** Before the socket exists [stop] still sets both stop events, but
    raises: [None] has no [shutdown]. *)
Lemma stop_before_open (p : Z) (w : parser.world) :
  exists s1,
    stop listener {| the_listener := init CLIENT p; the_broker := init SERVER p;
                     process := w |}
    = (Raises AttributeError, s1, []) /\
    _stop_event (conn s1 listener) = true /\
    _stop_event (conn s1 broker) = true.
Proof. eexists. split; [reflexivity|]. split; reflexivity. Qed.

(** ** run: forwarding *)

Lemma forwards_refl (self : conn_id) (s : state) : forwards self s s.
Proof. split; [reflexivity|]. exists []. now rewrite app_nil_r. Qed.

Lemma forwards_trans (self : conn_id) (s1 s2 s3 : state) :
  forwards self s1 s2 -> forwards self s2 s3 -> forwards self s1 s3.
Proof.
  intros [A1 [m1 B1]] [A2 [m2 B2]]. split; [congruence|].
  exists (m1 ++ m2). now rewrite B2, B1, app_assoc.
Qed.

Lemma forwards_stop (self : conn_id) (s : state) (c : conn_id) :
  forwards self s (set_conn s c (with_stop_event (conn s c) true)).
Proof.
  split; [|exists []; rewrite app_nil_r];
    destruct s as [l k w], self, c; reflexivity.
Qed.

Lemma forwards_close (self : conn_id) (s : state) (c : conn_id) (sk : socket) :
  _sock (conn s c) = Some sk ->
  forwards self s
    (set_conn s c (with_sock (conn s c)
                     (Some {| status := closed; sent := sent sk |}))).
Proof.
  intros H. unfold forwards, sent_of.
  split; [|exists []; rewrite app_nil_r];
    destruct s as [l k w], self, c; cbn in *; try rewrite H; reflexivity.
Qed.

Lemma forwards_process (self : conn_id) (s : state) (w : parser.world) :
  forwards self s {| the_listener := the_listener s;
                     the_broker := the_broker s; process := w |}.
Proof.
  split; [|exists []; rewrite app_nil_r]; destruct s, self; reflexivity.
Qed.

Lemma forwards_append (self : conn_id) (data : bytes) (s : state) (sk : socket) :
  _sock (conn s (dest_conn self)) = Some sk -> status sk = connected ->
  forwards self s
    (set_conn s (dest_conn self)
       (with_sock (conn s (dest_conn self))
          (Some {| status := connected; sent := sent sk ++ [data] |}))).
Proof.
  intros H _. unfold forwards, sent_of.
  split; [|exists [data]];
    destruct s as [l k w], self; cbn in *; try rewrite H; reflexivity.
Qed.

Lemma stop_forwards (self : conn_id) (data : bytes) :
  respects (forwards self) (after_write self data) (stop self).
Proof.
  apply respects_stop; intros; try exact I.
  - apply forwards_refl.
  - eapply forwards_trans; eassumption.
  - apply forwards_stop.
  - now apply forwards_close.
Qed.

Lemma after_forwarding_forwards (parse : decoder) (self : conn_id)
      (data : bytes) :
  respects (forwards self) (after_write self data)
           (after_forwarding parse self data).
Proof.
  apply respects_after_forwarding; intros; try exact I; try reflexivity.
  - apply forwards_refl.
  - eapply forwards_trans; eassumption.
  - apply stop_forwards.
  - apply forwards_process.
  - now apply forwards_append.
Qed.

Lemma after_forwarding_decodes (parse : decoder) (self : conn_id)
      (data : bytes) (s : state) o s1 t :
  data <> [] ->
  after_forwarding parse self data s = (o, s1, t) ->
  exists t', t = ev_parse data :: t'.
Proof.
  intros Hd H. unfold after_forwarding in H.
  destruct (bytes_eqb data []) eqn:Eb.
  - apply PythonFacts.bytes_eqb_eq in Eb. contradiction.
  - unfold bind, try_except, call_parse in H.
    destruct (parse data (port (conn s self)) (_conn_type (conn s self))
                (process s)) as [[u|e] w].
    + match type of H with
      | context [match ?c with _ => _ end] => destruct c as [[o2 s2] t2]
      end.
      pair3 H. eexists. reflexivity.
    + cbn [any_Exception] in H. unfold print, emit in H.
      match type of H with
      | context [match ?c with _ => _ end] => destruct c as [[o2 s2] t2]
      end.
      pair3 H. eexists. reflexivity.
Qed.

(** What [send] does once the destination has signalled its connection:
    one write on the destination's socket, then, if the write failed, the
    error path. *)
Lemma send_shape (self : conn_id) (data : bytes) (s : state) (partner : socket) :
  _sock (conn s (dest_conn self)) = Some partner ->
  _conn_event (conn s (dest_conn self)) = true ->
  exists o s1 t1 more,
    send self data s
    = (o, s1, ev_sendall (dest_conn self) data (live partner) :: t1) /\
    Forall (after_write self data) t1 /\
    sent_of s1 self = sent_of s self /\
    sent_of s1 (dest_conn self)
    = sent partner ++ (if live partner then [data] else []) ++ more /\
    (live partner = true -> o = Returns tt /\ t1 = []).
Proof.
  intros Hp Hc. unfold send, bind, await_conn, print, emit. rewrite Hc.
  unfold try_except, sendall. rewrite Hp. unfold live.
  assert (Hs : sent_of s (dest_conn self) = sent partner)
    by (unfold sent_of; now rewrite Hp).
  destruct (status partner) eqn:Est; cbn [is_OSError exn_eqb app].
  2: { do 3 eexists. exists []. split; [reflexivity|]. split; [constructor|].
       destruct (forwards_append self data s partner Hp Est) as [F1 _].
       split; [exact F1|]. split; [|split; reflexivity].
       unfold sent_of. destruct s as [l k w], self; reflexivity. }
  all: destruct (stop self s) as [[o1 s1] t1] eqn:Es;
    destruct (stop_forwards self data _ _ _ _ Es) as [[F1 [more F2]] Ev];
    exists o1, s1, (ev_print (line_send_error self) :: t1), more;
    (split; [reflexivity|]); (split; [constructor; [exact I|exact Ev]|]);
    (split; [exact F1|]); (split; [|discriminate]);
    now rewrite F2, Hs.
Qed.

(** C8.  In a turn of the run loop of [self] on the chunk [data] that
    [receive] returned, with the destination's connection signalled: the
    first thing done after the read is one [sendall] of exactly [data] on
    the destination's socket; whatever follows in the turn (decoding
    [data], logging, stopping, the injected packet) writes to no other
    socket than the destination's and decodes nothing but [data]; this
    holds for every decoder, failing or not.  Nothing is written to the
    socket of [self], and when the destination's socket is a live
    connection the chunk is appended, whole and in order, to what was
    written to it before, and a non-empty chunk is handed to the decoder
    right after that write. *)
Theorem run_forwards_before_decoding
        (parse : decoder) (self : conn_id) (data : bytes) (s : state)
        (own partner : socket) :
  _sock (conn s self) = Some own ->
  _sock (conn s (dest_conn self)) = Some partner ->
  _conn_event (conn s (dest_conn self)) = true ->
  exists o s1 t1 injected,
    run_iteration parse self (Ok data) s
    = (o, s1,
       ev_recv self data :: ev_sendall (dest_conn self) data (live partner) :: t1)
    /\ Forall (after_write self data) t1
    /\ sent_of s1 self = sent own
    /\ sent_of s1 (dest_conn self)
       = sent partner ++ (if live partner then [data] else []) ++ injected
    /\ (live partner = true -> data <> [] ->
        exists t2, t1 = ev_parse data :: t2).
Proof.
  intros Ho Hp Hc.
  assert (Hown : sent_of s self = sent own) by (unfold sent_of; now rewrite Ho).
  destruct (send_shape self data s partner Hp Hc)
    as (o0 & s0 & t0 & more & Hsend & Ev0 & F0 & G0 & L0).
  rewrite run_iteration_unfold.
  unfold bind at 1. unfold receive. rewrite Ho.
  unfold bind at 1. rewrite Hsend.
  destruct o0 as [[]|e| |].
  - destruct (after_forwarding parse self data s0) as [[o1 s1] t1] eqn:Ea.
    destruct (after_forwarding_forwards parse self data _ _ _ _ Ea)
      as [[F1 [more1 G1]] Ev1].
    exists o1, s1, (t0 ++ t1), (more ++ more1).
    split; [reflexivity|]. split; [now apply Forall_app|].
    split; [congruence|]. split; [rewrite G1, G0; now rewrite <- !app_assoc|].
    intros Hl Hd. destruct (L0 Hl) as [_ ->].
    exact (after_forwarding_decodes parse self data s0 _ _ _ Hd Ea).
  - exists (Raises e), s0, t0, more.
    split; [reflexivity|]. split; [assumption|]. split; [congruence|].
    split; [assumption|]. intros Hl. now destruct (L0 Hl).
  - exists Blocks, s0, t0, more.
    split; [reflexivity|]. split; [assumption|]. split; [congruence|].
    split; [assumption|]. intros Hl. now destruct (L0 Hl).
  - exists Unfinished, s0, t0, more.
    split; [reflexivity|]. split; [assumption|]. split; [congruence|].
    split; [assumption|]. intros Hl. now destruct (L0 Hl).
Qed.

(** Until the destination has signalled its connection the turn waits
    in [send]: nothing is written and nothing is decoded. *)
Lemma run_waits_for_destination
      (parse : decoder) (self : conn_id) (data : bytes) (s : state)
      (own : socket) :
  _sock (conn s self) = Some own ->
  _conn_event (conn s (dest_conn self)) = false ->
  run_iteration parse self (Ok data) s = (Blocks, s, [ev_recv self data]).
Proof.
  intros Ho Hc. rewrite run_iteration_unfold.
  unfold bind at 1. unfold receive. rewrite Ho.
  unfold bind at 1. unfold send. unfold bind at 1. unfold await_conn.
  now rewrite Hc.
Qed.

Lemma run_forwards_before_decoding_witness :
  exists o s1 t1 injected,
    run_iteration proxy.parse listener (Ok (b "jp" ++ [x01])) relaying_pair
    = (o, s1,
       ev_recv listener (b "jp" ++ [x01])
       :: ev_sendall broker (b "jp" ++ [x01]) true :: t1)
    /\ Forall (after_write listener (b "jp" ++ [x01])) t1
    /\ sent_of s1 listener = []
    /\ sent_of s1 broker = [] ++ [b "jp" ++ [x01]] ++ injected
    /\ (true = true -> b "jp" ++ [x01] <> [] ->
        exists t2, t1 = ev_parse (b "jp" ++ [x01]) :: t2).
Proof.
  apply (run_forwards_before_decoding proxy.parse listener (b "jp" ++ [x01])
           relaying_pair {| status := connected; sent := [] |}
           {| status := connected; sent := [] |}); reflexivity.
Defined.

(** ** open: the broker waits for the listener *)

Lemma frame_refl (s : state) : frame s s.
Proof. intros c. auto. Qed.

Lemma frame_trans (s1 s2 s3 : state) : frame s1 s2 -> frame s2 s3 -> frame s1 s3.
Proof. intros H H0 c. destruct (H c), (H0 c). split; congruence. Qed.

Lemma stop_frame (self : conn_id) : respects frame not_opening (stop self).
Proof.
  apply respects_stop; intros; try exact I.
  - apply frame_refl.
  - eapply frame_trans; eassumption.
  - intros c0. destruct s as [l k w], c, c0; auto.
  - intros c0. destruct s as [l k w], c, c0; auto.
Qed.

Lemma run_iteration_frame (parse : decoder) (self : conn_id)
      (incoming : result bytes) :
  respects frame not_opening (run_iteration parse self incoming).
Proof.
  apply respects_run_iteration; intros; try exact I.
  - apply frame_refl.
  - eapply frame_trans; eassumption.
  - apply stop_frame.
  - intros c. destruct s, c; auto.
  - intros c. destruct s as [l k w], self, c; auto.
Qed.

Lemma not_opening_no_connect (t : list event) :
  Forall not_opening t -> Forall no_connect t.
Proof.
  apply Forall_impl. intros [] H; try exact I; exact H.
Qed.

Lemma connects_after_accept_app (h t : list event) :
  connects_after_accept h -> Forall no_connect t ->
  connects_after_accept (h ++ t).
Proof.
  intros Hh Ht h1 c ok h2 E.
  apply app_eq_app in E as [l [[E1 E2]|[E1 E2]]].
  - destruct l as [|e l].
    + simpl in E2. rewrite <- E2 in Ht. inversion Ht as [|? ? F _].
      contradiction.
    + injection E2 as <- _. exact (Hh h1 c ok l E1).
  - rewrite E2 in Ht. apply Forall_app in Ht as [_ Ht].
    inversion Ht as [|? ? F _]. contradiction.
Qed.

Lemma connects_after_accept_connect (h t : list event) (ok : bool) :
  connects_after_accept h ->
  In (ev_accept listener) h -> In (ev_conn_set listener) h ->
  Forall no_connect t ->
  connects_after_accept (h ++ ev_connect broker ok :: t).
Proof.
  intros Hh Ha Hs Ht h1 c ok' h2 E.
  apply app_eq_app in E as [l [[E1 E2]|[E1 E2]]].
  - destruct l as [|e l].
    + simpl in E2. injection E2 as <- _ _. rewrite app_nil_r in E1.
      subst h1. auto.
    + injection E2 as <- _. exact (Hh h1 c ok' l E1).
  - destruct l as [|e l].
    + simpl in E2. injection E2 as <- _ _. rewrite app_nil_r in E1.
      subst h1. auto.
    + injection E2 as _ E2. rewrite E2 in Ht. apply Forall_app in Ht as [_ Ht].
      inversion Ht as [|? ? F _]. contradiction.
Qed.

Lemma invariant_initial (p : Z) (w : parser.world) : invariant (initial p w).
Proof.
  constructor; cbn; try reflexivity; try discriminate.
  - split; discriminate.
  - intros h1 c ok h2 E. destruct h1; discriminate.
Qed.

Ltac quiet_history :=
  match goal with
  | |- connects_after_accept (_ ++ _) =>
      apply connects_after_accept_app;
      [assumption | repeat constructor]
  end.

Lemma invariant_step (parse : decoder) (sys sys' : system) :
  invariant sys -> step parse sys sys' -> invariant sys'.
Proof.
  intros [Il Ib [Ip1 Ip2] Ipb Ia Is Iw Ih] Hstep.
  destruct sys as [[l k w] pl pb h]. cbn in *.
  inversion Hstep as
      [ c ? Hpc Hty | c ? Hpc | c ? Hpc | c ? Hpc Hty
      | c ? s t Hpc Haw | c ? Hpc | c ? Hpc | c ? Hpc | c ? Hpc
      | c ? incoming s t Hpc Hrun Hit | c ? incoming e s t Hpc Hrun Hit
      | c ? Hpc Hrun | c ? sk Hsk Hst ]; subst; cbn in *.
  - (* listen *)
    destruct c; cbn in *; [|congruence].
    constructor; cbn; auto; try discriminate.
    + split; discriminate.
    + intros H. destruct (Is H). split; apply in_or_app; auto.
    + quiet_history.
  - (* a thread dies *)
    destruct c; cbn in *;
      constructor; cbn; rewrite ?app_nil_r; auto; try discriminate.
    split; discriminate.
  - (* accept *)
    destruct c; cbn in *; [|congruence].
    constructor; cbn; auto; try discriminate.
    + split; discriminate.
    + intros _. apply in_or_app. right. now left.
    + intros H. destruct (Is H). split; apply in_or_app; auto.
    + quiet_history.
  - (* the broker enters _connect *)
    destruct c; cbn in *; [congruence|].
    constructor; cbn; rewrite ?app_nil_r; auto; try discriminate.
  - (* await_conn returns *)
    destruct c; cbn in *; [congruence|].
    unfold await_conn in Haw. cbn in Haw.
    destruct (_conn_event l) eqn:Ec; [|discriminate].
    pair3 Haw.
    constructor; cbn; rewrite ?app_nil_r; auto; try discriminate.
  - (* connect succeeds *)
    destruct c; cbn in *; [congruence|].
    specialize (Iw Hpc). destruct (Is Iw) as [Ha Hs].
    constructor; cbn; auto; try discriminate.
    + intros _. apply in_or_app. auto.
    + intros _. split; apply in_or_app; auto.
    + apply connects_after_accept_connect; auto.
  - (* connect refused *)
    destruct c; cbn in *; [congruence|].
    specialize (Iw Hpc). destruct (Is Iw) as [Ha Hs].
    constructor; cbn; auto; try discriminate.
    + intros _. apply in_or_app. auto.
    + intros _. split; apply in_or_app; auto.
    + apply connects_after_accept_connect; auto. repeat constructor.
  - (* connect fails otherwise *)
    destruct c; cbn in *; [congruence|].
    specialize (Iw Hpc). destruct (Is Iw) as [Ha Hs].
    constructor; cbn; auto; try discriminate.
    + intros _. apply in_or_app. auto.
    + intros _. split; apply in_or_app; auto.
    + apply connects_after_accept_connect; auto.
  - (* the connection event is set *)
    destruct c; cbn in *.
    + specialize (Ia Hpc).
      constructor; cbn; auto; try discriminate.
      * split; discriminate.
      * intros _. split; apply in_or_app; [auto|right; now left].
      * quiet_history.
    + constructor; cbn; auto; try discriminate.
      * intros H. apply in_or_app. auto.
      * intros H. destruct (Is H). split; apply in_or_app; auto.
      * quiet_history.
  - (* a turn of the run loop *)
    destruct (run_iteration_frame parse c incoming _ _ _ _ Hit) as [Fr Ev].
    destruct (Fr listener) as [Fl1 Fl2], (Fr broker) as [Fb1 Fb2]. cbn in *.
    assert (Hh : connects_after_accept (h ++ t))
      by (apply connects_after_accept_app;
          [assumption|now apply not_opening_no_connect]).
    destruct c; cbn in *; constructor; cbn; auto; try congruence;
      try discriminate.
    + split; discriminate.
    + rewrite Fl1. intros H. destruct (Is H). split; apply in_or_app; auto.
    + rewrite Fl1. auto.
    + intros H. apply in_or_app. auto.
    + rewrite Fl1. intros H. destruct (Is H). split; apply in_or_app; auto.
  - (* a turn of the run loop raises *)
    destruct (run_iteration_frame parse c incoming _ _ _ _ Hit) as [Fr Ev].
    destruct (Fr listener) as [Fl1 Fl2], (Fr broker) as [Fb1 Fb2]. cbn in *.
    assert (Hh : connects_after_accept (h ++ t))
      by (apply connects_after_accept_app;
          [assumption|now apply not_opening_no_connect]).
    destruct c; cbn in *; constructor; cbn; auto; try congruence;
      try discriminate.
    + split; discriminate.
    + rewrite Fl1. intros H. destruct (Is H). split; apply in_or_app; auto.
    + rewrite Fl1. auto.
    + intros H. apply in_or_app. auto.
    + rewrite Fl1. intros H. destruct (Is H). split; apply in_or_app; auto.
  - (* the run loop ends *)
    destruct c; cbn in *; constructor; cbn; auto; try discriminate.
    + split; discriminate.
    + intros H. destruct (Is H). split; apply in_or_app; auto.
    + quiet_history.
    + intros H. apply in_or_app. auto.
    + intros H. destruct (Is H). split; apply in_or_app; auto.
    + quiet_history.
  - (* the peer resets a socket *)
    destruct c; cbn in *; constructor; cbn; auto.
Qed.

Lemma reachable_invariant (parse : decoder) (p : Z) (w : parser.world)
      (sys : system) :
  reachable parse p w sys -> invariant sys.
Proof.
  induction 1 as [|sys sys' _ IH Hstep].
  - apply invariant_initial.
  - exact (invariant_step parse sys sys' IH Hstep).
Qed.

(** C7.  In every state a generation can reach, whatever the decoder
    and whatever the peers do, each connect attempt in the history was
    made by the broker (the SERVER connection) and is preceded by the
    listener's accept and by the listener setting its connection event. *)
Theorem connect_waits_for_accept
        (parse : decoder) (p : Z) (w : parser.world) (sys : system)
        (h1 : list event) (c : conn_id) (ok : bool) (h2 : list event) :
  reachable parse p w sys ->
  history sys = h1 ++ ev_connect c ok :: h2 ->
  c = broker /\ In (ev_accept listener) h1 /\ In (ev_conn_set listener) h1.
Proof.
  intros Hr. exact (inv_history sys (reachable_invariant parse p w sys Hr) h1 c ok h2).
Qed.

(** While the broker is in its connect loop the listener's event is set. *)
Lemma connecting_after_signal (parse : decoder) (p : Z) (w : parser.world)
      (sys : system) :
  reachable parse p w sys ->
  pc_broker sys = in_connect ->
  _conn_event (conn (shared sys) listener) = true.
Proof.
  intros Hr. exact (inv_awaited sys (reachable_invariant parse p w sys Hr)).
Qed.

Lemma sys6_reachable : reachable proxy.parse 3000 wire.empty_world sys6.
Proof.
  refine (@reach_step _ _ _ sys5 sys6 _
            (@step_connect_ok proxy.parse broker sys5 eq_refl)).
  refine (@reach_step _ _ _ sys4 sys5 _
            (@step_await_done proxy.parse broker sys4 (shared sys4) []
               eq_refl eq_refl)).
  refine (@reach_step _ _ _ sys3 sys4 _
            (@step_connect_enter proxy.parse broker sys3 eq_refl eq_refl)).
  refine (@reach_step _ _ _ sys2 sys3 _
            (@step_signal proxy.parse listener sys2 eq_refl)).
  refine (@reach_step _ _ _ sys1 sys2 _
            (@step_accept proxy.parse listener sys1 eq_refl)).
  refine (@reach_step _ _ _ sys0 sys1 _
            (@step_listen proxy.parse listener sys0 eq_refl eq_refl)).
  apply reach_initial.
Defined.

Lemma connect_waits_for_accept_witness :
  broker = broker
  /\ In (ev_accept listener)
        [ev_listen listener; ev_accept listener; ev_conn_set listener;
         ev_print (line_new_connection listener)]
  /\ In (ev_conn_set listener)
        [ev_listen listener; ev_accept listener; ev_conn_set listener;
         ev_print (line_new_connection listener)].
Proof.
  exact (connect_waits_for_accept proxy.parse 3000 wire.empty_world sys6
           [ev_listen listener; ev_accept listener; ev_conn_set listener;
            ev_print (line_new_connection listener)]
           broker true [] sys6_reachable eq_refl).
Defined.

(** ** Cascading stop along an execution *)

Lemma stop_keeps_settled (self : conn_id) :
  respects keeps_settled any_event (stop self).
Proof.
  intros s o s' t H. split; [|apply Forall_forall; intros; exact I].
  revert H. unfold keeps_settled.
  expose s; destruct self, se1, se2, ce1, ce2;
    try destruct st1; try destruct st2;
    intros H Hs; try discriminate Hs; pair3 H; reflexivity.
Qed.

Lemma append_keeps_settled (self : conn_id) (data : bytes) (s : state)
      (sk : socket) :
  _sock (conn s (dest_conn self)) = Some sk -> status sk = connected ->
  keeps_settled s
    (set_conn s (dest_conn self)
       (with_sock (conn s (dest_conn self))
          (Some {| status := connected; sent := sent sk ++ [data] |}))).
Proof.
  unfold keeps_settled. destruct sk as [st snt]. cbn [status sent].
  intros Hp ->. revert Hp.
  expose s; destruct self; cbn; intros Hp; try discriminate Hp;
    injection Hp as -> ->;
    destruct se1, se2, ce1, ce2; try destruct st1; try destruct st2;
    intros Hs; try discriminate Hs; reflexivity.
Qed.

Lemma run_iteration_keeps_settled (parse : decoder) (self : conn_id)
      (incoming : result bytes) :
  respects keeps_settled any_event (run_iteration parse self incoming).
Proof.
  apply respects_run_iteration; intros; try exact I.
  - intros H. exact H.
  - intros Hs. auto.
  - apply stop_keeps_settled.
  - unfold keeps_settled. now destruct s.
  - now apply append_keeps_settled.
Qed.

Lemma stop_keeps_sockets (self : conn_id) :
  respects keeps_sockets any_event (stop self).
Proof.
  apply respects_stop; intros; try exact I.
  - intros c. reflexivity.
  - intros c. rewrite H0. apply H.
  - intros c0. destruct s as [l k w], c, c0; reflexivity.
  - intros c0. unfold has_sock.
    destruct s as [l k w], c, c0; cbn in *; try rewrite H; reflexivity.
Qed.

Lemma run_iteration_keeps_sockets (parse : decoder) (self : conn_id)
      (incoming : result bytes) :
  respects keeps_sockets any_event (run_iteration parse self incoming).
Proof.
  apply respects_run_iteration; intros; try exact I.
  - intros c. reflexivity.
  - intros c. rewrite H0. apply H.
  - apply stop_keeps_sockets.
  - intros c. now destruct s, c.
  - intros c. unfold has_sock.
    destruct s as [l k w], self, c; cbn in *; try rewrite H; reflexivity.
Qed.

(** As long as the destination has not signalled, a turn changes nothing. *)
Lemma run_iteration_idle (parse : decoder) (self : conn_id)
      (incoming : result bytes) (s : state) o s' t :
  _conn_event (conn s (dest_conn self)) = false ->
  run_iteration parse self incoming s = (o, s', t) -> s' = s.
Proof.
  intros Hc H. rewrite run_iteration_unfold in H.
  unfold bind at 1 in H. unfold receive in H.
  destruct (_sock (conn s self)); [|now pair3 H].
  destruct incoming as [data|e]; [|now pair3 H].
  unfold bind at 1 in H. unfold send in H. unfold bind at 1 in H.
  unfold await_conn in H. rewrite Hc in H. now pair3 H.
Qed.

Lemma both_signalled_false (s : state) (c : conn_id) :
  _conn_event (conn s c) = false -> both_signalled s = false.
Proof.
  unfold both_signalled. destruct c; intros ->; [reflexivity|apply andb_false_r].
Qed.

Lemma both_signalled_true (s : state) (c : conn_id) :
  both_signalled s = true -> _conn_event (conn s c) = true.
Proof.
  unfold both_signalled. intros H. apply andb_true_iff in H as [H1 H2].
  now destruct c.
Qed.

Lemma settled_fresh (s : state) :
  both_signalled s = true -> any_stopped s = false ->
  has_sock s listener = true -> has_sock s broker = true ->
  settled s = true.
Proof.
  unfold settled, any_stopped, has_sock, opened, is_closed.
  intros -> Hs. apply orb_false_iff in Hs as [-> ->].
  destruct (_sock (conn s listener)), (_sock (conn s broker));
    try discriminate; reflexivity.
Qed.

Lemma settled_signalled (s : state) : settled s = true -> both_signalled s = true.
Proof.
  unfold settled. intros H.
  do 3 (apply andb_true_iff in H as [H _]). exact H.
Qed.

Lemma reset_keeps_settled (s : state) (c : conn_id) :
  settled s = true ->
  settled (set_conn s c (set_status (conn s c) reset)) = true.
Proof.
  destruct s as [[se1 ce1 r1 [[st1 sent1]|] ct1 p1]
                 [se2 ce2 r2 [[st2 sent2]|] ct2 p2] w];
    destruct c, se1, se2, ce1, ce2; try destruct st1; try destruct st2;
    intros Hs; try discriminate Hs; reflexivity.
Qed.

(** Updates of one connection that leave its events alone. *)
Lemma events_update (s : state) (c : conn_id) (v : ProxyConnection) :
  _conn_event v = _conn_event (conn s c) ->
  _stop_event v = _stop_event (conn s c) ->
  both_signalled (set_conn s c v) = both_signalled s /\
  any_stopped (set_conn s c v) = any_stopped s.
Proof.
  unfold both_signalled, any_stopped.
  destruct s as [l k w], c; cbn; intros -> ->; auto.
Qed.

Lemma shared_advance (sys : system) (c : conn_id) (p : pc) (s : state)
      (t : list event) :
  shared (advance sys c p s t) = s.
Proof. now destruct c. Qed.

Lemma conn_set_conn (s : state) (c : conn_id) (v : ProxyConnection) :
  conn (set_conn s c v) c = v.
Proof. now destruct s, c. Qed.

(** A connection that has not signalled changes itself without touching
    its stop event: the pair stays unsettled and quiet. *)
Lemma unsignalled_update (s : state) (c : conn_id) (v : ProxyConnection) :
  _conn_event v = false ->
  _stop_event v = _stop_event (conn s c) ->
  _conn_event (conn s c) = false ->
  (both_signalled s = false -> any_stopped s = false) ->
  any_stopped (set_conn s c v) = false /\
  both_signalled (set_conn s c v) = false.
Proof.
  intros Hv Hst Hc Hq.
  pose proof (Hq (both_signalled_false s c Hc)) as Ha.
  split.
  - rewrite <- Ha. unfold any_stopped.
    destruct s as [l k w], c; cbn in *; now rewrite Hst.
  - apply (both_signalled_false _ c). now rewrite conn_set_conn.
Qed.

Ltac structural :=
  let c' := fresh "c'" in
  intros c'; destruct c'; cbn in *; intuition (try congruence; try discriminate).

Lemma not_signalled_yet (sys : system) (c : conn_id) :
  pair_invariant sys ->
  pc_of sys c <> in_run -> pc_of sys c <> exited -> pc_of sys c <> crashed ->
  _conn_event (conn (shared sys) c) = false.
Proof.
  intros Inv H1 H2 H3.
  destruct (_conn_event (conn (shared sys) c)) eqn:E; [|reflexivity].
  destruct (pi_signalled sys Inv c E) as [|[|]]; contradiction.
Qed.

(** Setting the connection event of [c]. *)
Lemma signal_update (s : state) (c : conn_id) :
  _conn_event (conn s c) = false ->
  (both_signalled s = false -> any_stopped s = false) ->
  has_sock s c = true ->
  (_conn_event (conn s (dest_conn c)) = true ->
   has_sock s (dest_conn c) = true) ->
  any_stopped (set_conn s c (with_conn_event (conn s c) true)) = false /\
  (both_signalled (set_conn s c (with_conn_event (conn s c) true)) = true ->
   settled (set_conn s c (with_conn_event (conn s c) true)) = true).
Proof.
  intros Hc Hq Hown Hdest.
  pose proof (Hq (both_signalled_false s c Hc)) as Ha.
  assert (Ha' : any_stopped (set_conn s c (with_conn_event (conn s c) true))
                = false)
    by (rewrite <- Ha; destruct s as [l k w], c; reflexivity).
  split; [exact Ha'|]. intros Hb.
  apply settled_fresh; try assumption.
  - unfold both_signalled in Hb.
    destruct s as [l k w], c; cbn in *; rewrite ?andb_true_r in Hb;
      try assumption; now apply Hdest.
  - unfold both_signalled in Hb.
    destruct s as [l k w], c; cbn in *; rewrite ?andb_true_r in Hb;
      try assumption; now apply Hdest.
Qed.

(** What a turn of the run loop of a signalled connection preserves. *)
Lemma iteration_pair (parse : decoder) (c : conn_id) (incoming : result bytes)
      (s : state) o s' t :
  _conn_event (conn s c) = true ->
  (both_signalled s = false -> any_stopped s = false) ->
  (both_signalled s = true -> settled s = true) ->
  run_iteration parse c incoming s = (o, s', t) ->
  (both_signalled s' = false -> any_stopped s' = false) /\
  (both_signalled s' = true -> settled s' = true) /\
  (forall c0, _conn_event (conn s' c0) = _conn_event (conn s c0)) /\
  (forall c0, has_sock s' c0 = has_sock s c0).
Proof.
  intros Hc Hq Hs Hit.
  destruct (run_iteration_frame parse c incoming _ _ _ _ Hit) as [Fr _].
  destruct (run_iteration_keeps_sockets parse c incoming _ _ _ _ Hit) as [Ks _].
  destruct (run_iteration_keeps_settled parse c incoming _ _ _ _ Hit) as [Kt _].
  assert (Hb : both_signalled s' = both_signalled s).
  { unfold both_signalled. destruct (Fr listener) as [-> _].
    now destruct (Fr broker) as [-> _]. }
  split; [|split; [|split]].
  - rewrite Hb. intros Hf.
    assert (Hd : _conn_event (conn s (dest_conn c)) = false).
    { unfold both_signalled in Hf. destruct c; cbn in *; rewrite Hc in Hf;
        [exact Hf|now rewrite andb_true_r in Hf]. }
    rewrite (run_iteration_idle parse c incoming s o s' t Hd Hit). auto.
  - rewrite Hb. intros Ht. apply Kt. auto.
  - intros c0. apply Fr.
  - exact Ks.
Qed.

Lemma pair_invariant_step (parse : decoder) (sys sys' : system) :
  pair_invariant sys -> step parse sys sys' -> pair_invariant sys'.
Proof.
  intros Inv Hstep.
  pose proof (pi_quiet sys Inv) as Hq. pose proof (pi_settled sys Inv) as Hs.
  pose proof (pi_signalled sys Inv listener) as SigL.
  pose proof (pi_signalled sys Inv broker) as SigB.
  pose proof (pi_run sys Inv listener) as RunL.
  pose proof (pi_run sys Inv broker) as RunB.
  pose proof (pi_sock sys Inv listener) as SockL.
  pose proof (pi_sock sys Inv broker) as SockB.
  inversion Hstep as
      [ c ? Hpc Hty | c ? Hpc | c ? Hpc | c ? Hpc Hty
      | c ? s t Hpc Haw | c ? Hpc | c ? Hpc | c ? Hpc | c ? Hpc
      | c ? incoming s t Hpc Hrun Hit | c ? incoming e s t Hpc Hrun Hit
      | c ? Hpc Hrun | c ? sk Hsk Hst ]; subst;
    repeat match goal with v := _ |- _ => subst v end.
  - (* listen *)
    constructor; rewrite ?shared_advance; try assumption;
      clear Hq Hs Inv Hstep; destruct sys as [[l k w] pl pb h], c; structural.
  - (* a thread dies *)
    constructor; rewrite ?shared_advance; try assumption;
      clear Hq Hs Inv Hstep; destruct sys as [[l k w] pl pb h], c; structural.
  - (* accept *)
    assert (Hc : _conn_event (conn (shared sys) c) = false)
      by (apply not_signalled_yet; [assumption|congruence..]).
    destruct (unsignalled_update (shared sys) c
                (with_sock (conn (shared sys) c) (new_socket connected))
                Hc eq_refl Hc Hq) as [Ha Hb].
    constructor; rewrite ?shared_advance;
      [| | | intros _; exact Ha | congruence];
      clear Hq Hs Inv Hstep Ha Hb; destruct sys as [[l k w] pl pb h], c; structural.
  - (* the broker enters _connect *)
    constructor; rewrite ?shared_advance; try assumption;
      clear Hq Hs Inv Hstep; destruct sys as [[l k w] pl pb h], c; structural.
  - (* await_conn returns *)
    unfold await_conn in Haw.
    destruct (_conn_event (conn (shared sys) (dest_conn c))) eqn:Ec;
      [|discriminate].
    pair3 Haw.
    assert (Hc : _conn_event (conn (shared sys) c) = false)
      by (apply not_signalled_yet; [assumption|congruence..]).
    destruct (unsignalled_update (shared sys) c
                (with_sock (conn (shared sys) c) (new_socket unconnected))
                Hc eq_refl Hc Hq) as [Ha Hb].
    constructor; rewrite ?shared_advance;
      [| | | intros _; exact Ha | congruence];
      clear Hq Hs Inv Hstep Ha Hb; destruct sys as [[l k w] pl pb h], c; structural.
  - (* connect succeeds *)
    assert (Hc : _conn_event (conn (shared sys) c) = false)
      by (apply not_signalled_yet; [assumption|congruence..]).
    destruct (unsignalled_update (shared sys) c
                (with_retries (set_status (conn (shared sys) c) connected)
                   (_retries (conn (shared sys) c) + 1))
                Hc eq_refl Hc Hq) as [Ha Hb].
    constructor; rewrite ?shared_advance;
      [| | | intros _; exact Ha | congruence];
      clear Hq Hs Inv Hstep Ha Hb; destruct sys as [[l k w] pl pb h], c;
      try (destruct l as [? ? ? [?|] ? ?]); try (destruct k as [? ? ? [?|] ? ?]);
      structural.
  - (* connect refused *)
    assert (Hc : _conn_event (conn (shared sys) c) = false)
      by (apply not_signalled_yet; [assumption|congruence..]).
    destruct (unsignalled_update (shared sys) c
                (with_retries (conn (shared sys) c)
                   (_retries (conn (shared sys) c) + 1))
                Hc eq_refl Hc Hq) as [Ha Hb].
    constructor; rewrite ?shared_advance;
      [| | | intros _; exact Ha | congruence];
      clear Hq Hs Inv Hstep Ha Hb; destruct sys as [[l k w] pl pb h], c; structural.
  - (* connect fails otherwise *)
    assert (Hc : _conn_event (conn (shared sys) c) = false)
      by (apply not_signalled_yet; [assumption|congruence..]).
    destruct (unsignalled_update (shared sys) c
                (with_retries (conn (shared sys) c)
                   (_retries (conn (shared sys) c) + 1))
                Hc eq_refl Hc Hq) as [Ha Hb].
    constructor; rewrite ?shared_advance;
      [| | | intros _; exact Ha | congruence];
      clear Hq Hs Inv Hstep Ha Hb; destruct sys as [[l k w] pl pb h], c; structural.
  - (* the connection event is set *)
    assert (Hc : _conn_event (conn (shared sys) c) = false)
      by (apply not_signalled_yet; [assumption|congruence..]).
    destruct (signal_update (shared sys) c Hc Hq) as [Ha Hb].
    { apply (pi_sock sys Inv c). auto. }
    { intros Hd. apply (pi_sock sys Inv (dest_conn c)). auto. }
    constructor; rewrite ?shared_advance;
      [| | | intros _; exact Ha | exact Hb];
      clear Hq Hs Inv Hstep Ha Hb; destruct sys as [[l k w] pl pb h], c; structural.
  - (* a turn of the run loop *)
    destruct (iteration_pair parse c incoming _ _ _ _
                (pi_run sys Inv c Hpc) Hq Hs Hit) as (Q & S & Fr & Ks).
    pose proof (Fr listener) as FrL. pose proof (Fr broker) as FrB.
    pose proof (Ks listener) as KsL. pose proof (Ks broker) as KsB.
    constructor; rewrite ?shared_advance; try assumption;
      clear Q S Fr Ks Hq Hs Inv Hstep Hit Hrun;
      destruct sys as [[l k w] pl pb h], c; cbn in *;
      intros c'; destruct c'; cbn in *;
      rewrite ?FrL, ?FrB, ?KsL, ?KsB;
      intuition (try congruence; try discriminate).
  - (* a turn of the run loop raises *)
    destruct (iteration_pair parse c incoming _ _ _ _
                (pi_run sys Inv c Hpc) Hq Hs Hit) as (Q & S & Fr & Ks).
    pose proof (Fr listener) as FrL. pose proof (Fr broker) as FrB.
    pose proof (Ks listener) as KsL. pose proof (Ks broker) as KsB.
    constructor; rewrite ?shared_advance; try assumption;
      clear Q S Fr Ks Hq Hs Inv Hstep Hit Hrun;
      destruct sys as [[l k w] pl pb h], c; cbn in *;
      intros c'; destruct c'; cbn in *;
      rewrite ?FrL, ?FrB, ?KsL, ?KsB;
      intuition (try congruence; try discriminate).
  - (* the run loop ends *)
    constructor; rewrite ?shared_advance; try assumption;
      clear Hq Hs Inv Hstep; destruct sys as [[l k w] pl pb h], c; structural.
  - (* the peer resets a socket *)
    constructor; cbn [shared pc_of pc_listener pc_broker].
    + clear Hq Hs Inv Hstep. destruct sys as [[l k w] pl pb h], c; structural.
    + clear Hq Hs Inv Hstep. destruct sys as [[l k w] pl pb h], c; structural.
    + clear Hq Hs Inv Hstep. unfold has_sock in *.
      destruct sys as [[l k w] pl pb h], c; cbn in *;
        intros c'; destruct c'; cbn in *; try rewrite Hsk;
        intuition (try congruence; try discriminate).
    + destruct (events_update (shared sys) c
                  (set_status (conn (shared sys) c) reset) eq_refl eq_refl)
        as [-> ->]. exact Hq.
    + destruct (events_update (shared sys) c
                  (set_status (conn (shared sys) c) reset) eq_refl eq_refl)
        as [-> _]. intros Hb. apply reset_keeps_settled. auto.
Qed.

Lemma pair_invariant_initial (p : Z) (w : parser.world) :
  pair_invariant (initial p w).
Proof.
  constructor; try (intros c; destruct c); cbn;
    intuition (try congruence; try discriminate).
Qed.

Lemma reachable_pair_invariant (parse : decoder) (p : Z) (w : parser.world)
      (sys : system) :
  reachable parse p w sys -> pair_invariant sys.
Proof.
  induction 1 as [|sys sys' _ IH Hstep].
  - apply pair_invariant_initial.
  - exact (pair_invariant_step parse sys sys' IH Hstep).
Qed.

(** Along an execution the two halves of a pair are stopped together:
    in every reachable state where either stop event is set, both
    connections are Closed. *)
Lemma stopped_pair_is_closed (parse : decoder) (p : Z) (w : parser.world)
      (sys : system) :
  reachable parse p w sys ->
  any_stopped (shared sys) = true ->
  is_closed (shared sys) listener = true /\ is_closed (shared sys) broker = true.
Proof.
  intros Hr Ha. pose proof (reachable_pair_invariant parse p w sys Hr) as Inv.
  destruct (both_signalled (shared sys)) eqn:Eb.
  - pose proof (pi_settled sys Inv Eb) as Hs. unfold settled in Hs.
    rewrite Ha in Hs. apply andb_true_iff in Hs as [_ Hs]. cbn in Hs.
    now apply andb_true_iff in Hs.
  - rewrite (pi_quiet sys Inv Eb) in Ha. discriminate.
Qed.

(** And [stop] only ever runs on an opened pair: once both connections
    have signalled, both own a socket. *)
Lemma signalled_pair_is_opened (parse : decoder) (p : Z) (w : parser.world)
      (sys : system) :
  reachable parse p w sys ->
  both_signalled (shared sys) = true ->
  opened (shared sys) listener = true /\ opened (shared sys) broker = true.
Proof.
  intros Hr Hb. pose proof (reachable_pair_invariant parse p w sys Hr) as Inv.
  pose proof (pi_settled sys Inv Hb) as Hs. unfold settled in Hs.
  apply andb_true_iff in Hs as [Hs _].
  apply andb_true_iff in Hs as [Hs H2].
  apply andb_true_iff in Hs as [_ H1]. auto.
Qed.

End ProxySpec.

(* ================================================================== *)
(** * Properties of the decoder as a whole *)
(* ================================================================== *)

Module HandlerSpec.
Import Python helpers parser wire frames PythonFacts ParserSpec.

Ltac run_alike :=
  unfold bind, lift, ret, try_except, PACKET_QUEUE_put;
  repeat (match goal with
          | |- context [match ?x with _ => _ end] =>
              lazymatch x with
              | context [match _ with _ => _ end] => fail
              | _ => destruct x eqn:?
              end
          end; cbv beta iota zeta);
  cbn [fst snd PACKET_QUEUE stdout empty_world];
  unfold extend, put;
  match goal with w : world |- _ => destruct w end;
  cbn [fst snd PACKET_QUEUE stdout app]; rewrite ?app_nil_r; reflexivity.

Lemma handle_ack_oblivious : oblivious handle_ack.
Proof. intros data w. unfold handle_ack. run_alike. Qed.
Lemma handle_position_oblivious : oblivious handle_position.
Proof. intros data w. unfold handle_position. run_alike. Qed.
Lemma handle_jump_oblivious : oblivious handle_jump.
Proof. intros data w. unfold handle_jump. run_alike. Qed.
Lemma handle_sneak_oblivious : oblivious handle_sneak.
Proof. intros data w. unfold handle_sneak. run_alike. Qed.
Lemma handle_slot_select_oblivious : oblivious handle_slot_select.
Proof. intros data w. unfold handle_slot_select. run_alike. Qed.
Lemma handle_shoot_oblivious : oblivious handle_shoot.
Proof. intros data w. unfold handle_shoot. run_alike. Qed.
Lemma handle_chat_oblivious : oblivious handle_chat.
Proof. intros data w. unfold handle_chat. run_alike. Qed.
Lemma handle_actor_drop_oblivious : oblivious handle_actor_drop.
Proof. intros data w. unfold handle_actor_drop. run_alike. Qed.
Lemma handle_region_change_oblivious : oblivious handle_region_change.
Proof. intros data w. unfold handle_region_change. run_alike. Qed.
Lemma handle_item_acquire_oblivious : oblivious handle_item_acquire.
Proof. intros data w. unfold handle_item_acquire. run_alike. Qed.
Lemma handle_item_pickup_oblivious : oblivious handle_item_pickup.
Proof. intros data w. unfold handle_item_pickup. run_alike. Qed.
Lemma handle_reload_oblivious : oblivious handle_reload.
Proof. intros data w. unfold handle_reload. run_alike. Qed.
Lemma handle_health_oblivious : oblivious handle_health.
Proof. intros data w. unfold handle_health. run_alike. Qed.
Lemma handle_mana_oblivious : oblivious handle_mana.
Proof. intros data w. unfold handle_mana. run_alike. Qed.
Lemma handle_ps_oblivious : oblivious handle_ps.
Proof. intros data w. unfold handle_ps. run_alike. Qed.
Lemma handle_state_oblivious : oblivious handle_state.
Proof. intros data w. unfold handle_state. run_alike. Qed.
Lemma handle_attack_oblivious : oblivious handle_attack.
Proof. intros data w. unfold handle_attack. run_alike. Qed.
Lemma handle_loaded_ammo_oblivious : oblivious handle_loaded_ammo.
Proof. intros data w. unfold handle_loaded_ammo. run_alike. Qed.

Lemma unpack_uint_raises (size : nat) (data : bytes) (e : exn) :
  unpack_uint size data = Raise e -> e = struct_error.
Proof. unfold unpack_uint. destruct (len data =? size); congruence. Qed.

Lemma unpack_bool_raises (data : bytes) (e : exn) :
  unpack_bool data = Raise e -> e = struct_error.
Proof.
  unfold unpack_bool, unpack_uint. destruct (len data =? 1); simpl; congruence.
Qed.

Lemma unpack_fff_raises (data : bytes) (e : exn) :
  unpack_fff data = Raise e -> e = struct_error.
Proof. unfold unpack_fff. destruct (len data =? 12); congruence. Qed.

Lemma unpack_Ih_raises (data : bytes) (e : exn) :
  unpack_Ih data = Raise e -> e = struct_error.
Proof. unfold unpack_Ih. destruct (len data =? 6); congruence. Qed.

Lemma unpack_IH_raises (data : bytes) (e : exn) :
  unpack_IH data = Raise e -> e = struct_error.
Proof. unfold unpack_IH. destruct (len data =? 6); congruence. Qed.

Lemma index_raises (data : bytes) (i : nat) (e : exn) :
  index data i = Raise e -> e = IndexError.
Proof. unfold index. destruct (nth_error data i); congruence. Qed.

Lemma pack_eq_HI_raises (x y : Z) (e : exn) :
  pack_eq_HI x y = Raise e -> e = struct_error.
Proof. unfold pack_eq_HI. destruct (fits 2 x && fits 4 y); congruence. Qed.

Lemma pack_be_H_raises (x : Z) (e : exn) :
  pack_be_H x = Raise e -> e = struct_error.
Proof. unfold pack_be_H. destruct (fits 2 x); congruence. Qed.

Lemma pack_eq_HI_request (item_id : Z) (packet : bytes) :
  pack_eq_HI 25957 item_id = Ok packet -> is_request packet = true.
Proof.
  unfold pack_eq_HI. destruct (fits 2 25957 && fits 4 item_id); [|discriminate].
  intros [= <-]. reflexivity.
Qed.

Lemma pack_be_H_request (packet : bytes) :
  pack_be_H 29292 = Ok packet -> is_request packet = true.
Proof. intros [= <-]. reflexivity. Qed.

Ltac blame :=
  unfold unpack_H, unpack_I, unpack_B in *;
  match goal with
  | H : unpack_uint _ _ = Raise ?e |- decoding_error ?e = true =>
      apply unpack_uint_raises in H
  | H : unpack_bool _ = Raise ?e |- decoding_error ?e = true =>
      apply unpack_bool_raises in H
  | H : unpack_fff _ = Raise ?e |- decoding_error ?e = true =>
      apply unpack_fff_raises in H
  | H : unpack_Ih _ = Raise ?e |- decoding_error ?e = true =>
      apply unpack_Ih_raises in H
  | H : unpack_IH _ = Raise ?e |- decoding_error ?e = true =>
      apply unpack_IH_raises in H
  | H : index _ _ = Raise ?e |- decoding_error ?e = true =>
      apply index_raises in H
  | H : decode _ = Raise ?e |- decoding_error ?e = true =>
      apply decode_raises in H
  | H : pack_eq_HI _ _ = Raise ?e |- decoding_error ?e = true =>
      apply pack_eq_HI_raises in H
  | H : pack_be_H _ = Raise ?e |- decoding_error ?e = true =>
      apply pack_be_H_raises in H
  end; subst; reflexivity.

Ltac tidy_failure :=
  let e' := fresh "e" in
  let He' := fresh "He" in
  intros e' He';
  first [ discriminate He'
        | injection He' as <-; (split; [reflexivity | blame]) ].

Ltac tidy_queue :=
  first [ reflexivity
        | rewrite andb_true_r;
          first [ eapply pack_eq_HI_request; eassumption
                | eapply pack_be_H_request; eassumption ] ].

Ltac tidy_up H :=
  unfold empty_world in H; step_through H;
  cbn [PACKET_QUEUE stdout put app forallb];
  (split; [reflexivity|]);
  (split; [tidy_queue | tidy_failure]).

Lemma handle_ack_tidy : tidy handle_ack.
Proof. intros data r w1 H. unfold handle_ack in H. tidy_up H. Qed.
Lemma handle_position_tidy : tidy handle_position.
Proof. intros data r w1 H. unfold handle_position in H. tidy_up H. Qed.
Lemma handle_jump_tidy : tidy handle_jump.
Proof. intros data r w1 H. unfold handle_jump in H. tidy_up H. Qed.
Lemma handle_sneak_tidy : tidy handle_sneak.
Proof. intros data r w1 H. unfold handle_sneak in H. tidy_up H. Qed.
Lemma handle_slot_select_tidy : tidy handle_slot_select.
Proof. intros data r w1 H. unfold handle_slot_select in H. tidy_up H. Qed.
Lemma handle_shoot_tidy : tidy handle_shoot.
Proof. intros data r w1 H. unfold handle_shoot in H. tidy_up H. Qed.
Lemma handle_chat_tidy : tidy handle_chat.
Proof. intros data r w1 H. unfold handle_chat in H. tidy_up H. Qed.
Lemma handle_actor_drop_tidy : tidy handle_actor_drop.
Proof. intros data r w1 H. unfold handle_actor_drop in H. tidy_up H. Qed.
Lemma handle_region_change_tidy : tidy handle_region_change.
Proof. intros data r w1 H. unfold handle_region_change in H. tidy_up H. Qed.
Lemma handle_item_acquire_tidy : tidy handle_item_acquire.
Proof. intros data r w1 H. unfold handle_item_acquire in H. tidy_up H. Qed.
Lemma handle_item_pickup_tidy : tidy handle_item_pickup.
Proof. intros data r w1 H. unfold handle_item_pickup in H. tidy_up H. Qed.
Lemma handle_reload_tidy : tidy handle_reload.
Proof. intros data r w1 H. unfold handle_reload in H. tidy_up H. Qed.
Lemma handle_health_tidy : tidy handle_health.
Proof. intros data r w1 H. unfold handle_health in H. tidy_up H. Qed.
Lemma handle_mana_tidy : tidy handle_mana.
Proof. intros data r w1 H. unfold handle_mana in H. tidy_up H. Qed.
Lemma handle_ps_tidy : tidy handle_ps.
Proof. intros data r w1 H. unfold handle_ps in H. tidy_up H. Qed.
Lemma handle_state_tidy : tidy handle_state.
Proof. intros data r w1 H. unfold handle_state in H. tidy_up H. Qed.
Lemma handle_attack_tidy : tidy handle_attack.
Proof. intros data r w1 H. unfold handle_attack in H. tidy_up H. Qed.
Lemma handle_loaded_ammo_tidy : tidy handle_loaded_ammo.
Proof. intros data r w1 H. unfold handle_loaded_ammo in H. tidy_up H. Qed.

(** ** Composition *)

Lemma remark_remark (o o' : ConnectionType) (l : line) :
  remark o (remark o' l) = remark o l.
Proof. now destruct l. Qed.

Lemma extend_extend (w : world) (q q' : list bytes) (out out' : list line) :
  extend (extend w q out) q' out' = extend w (q ++ q') (out ++ out').
Proof. unfold extend. cbn [PACKET_QUEUE stdout]. now rewrite !app_assoc. Qed.

Lemma extend_empty (w : world) : extend w [] [] = w.
Proof. unfold extend. rewrite !app_nil_r. now destruct w. Qed.

Lemma replays_ret {A} (a : A) : replays (fun _ => ret a).
Proof. intros origin w. unfold ret. cbn. now rewrite extend_empty. Qed.

Lemma replays_print_unknown (pid data : bytes) :
  replays (fun _ => print (line_unknown pid data)).
Proof. intros origin w. unfold print, extend. cbn. now rewrite app_nil_r. Qed.

Lemma replays_print_message (m : message) :
  replays (fun origin => print (line_message (DIRECTION_FORMAT origin) m)).
Proof. intros origin w. unfold print, extend. cbn. now rewrite app_nil_r. Qed.

Lemma replays_bind {A B} (c : ConnectionType -> M A)
      (k : A -> ConnectionType -> M B) :
  replays c -> (forall a, replays (k a)) ->
  replays (fun origin => bind (c origin) (fun a => k a origin)).
Proof.
  intros Hc Hk origin w. unfold bind.
  rewrite (Hc origin w).
  pose proof (Hc CLIENT empty_world) as H0.
  destruct (c CLIENT empty_world) as [[a|e] w0] eqn:E; cbn [fst snd] in *.
  - rewrite (Hk a origin).
    rewrite (Hk a CLIENT w0).
    destruct (k a CLIENT empty_world) as [r1 w1]; cbn [fst snd].
    f_equal. rewrite extend_extend. unfold extend; cbn [PACKET_QUEUE stdout].
    rewrite !map_app, map_map.
    f_equal. f_equal. f_equal. apply map_ext. intros l. symmetry. apply remark_remark.
  - reflexivity.
Qed.

Lemma replays_oblivious (func : bytes -> M (bytes * message)) (data : bytes) :
  oblivious func -> tidy func -> replays (fun _ => func data).
Proof.
  intros Ho Ht origin w. rewrite (Ho data w).
  destruct (func data empty_world) as [r w0] eqn:E.
  destruct (Ht _ _ _ E) as [Hout _]. cbn [fst snd]. now rewrite Hout.
Qed.

Lemma format_replays (name : string) (func : bytes -> M (bytes * message))
      (data : bytes) :
  oblivious func -> tidy func -> replays (format name func data).
Proof.
  intros Ho Ht. unfold format.
  apply (replays_bind (fun _ => func data)
           (fun x origin =>
              match x with
              | (data', message) =>
                  bind (if existsb (String.eqb name) NO_PRINT then ret tt
                        else print (line_message (DIRECTION_FORMAT origin) message))
                       (fun _ => ret data')
              end)).
  - now apply replays_oblivious.
  - intros [d m].
    apply (replays_bind
             (fun origin =>
                if existsb (String.eqb name) NO_PRINT then ret tt
                else print (line_message (DIRECTION_FORMAT origin) m))
             (fun _ _ => ret d)).
    + destruct (existsb (String.eqb name) NO_PRINT).
      * apply replays_ret.
      * apply replays_print_message.
    + intros _. apply replays_ret.
Qed.

(** Every entry of the table is a decorated handler. *)
Lemma table_entry (pid : bytes) (h : bytes -> ConnectionType -> M bytes) :
  get PACKET_HANDLERS pid = Some h ->
  exists name func, h = format name func /\ oblivious func /\ tidy func.
Proof.
  unfold PACKET_HANDLERS. cbn [get].
  repeat match goal with
         | |- (if ?c then _ else _) = _ -> _ => destruct c
         | |- Some _ = Some _ -> _ =>
             intros [= <-]; eexists; eexists; split; [reflexivity|]
         | |- None = Some _ -> _ => discriminate
         end.
  - split; [apply handle_ack_oblivious | apply handle_ack_tidy].
  - split; [apply handle_position_oblivious | apply handle_position_tidy].
  - split; [apply handle_jump_oblivious | apply handle_jump_tidy].
  - split; [apply handle_sneak_oblivious | apply handle_sneak_tidy].
  - split; [apply handle_slot_select_oblivious | apply handle_slot_select_tidy].
  - split; [apply handle_shoot_oblivious | apply handle_shoot_tidy].
  - split; [apply handle_chat_oblivious | apply handle_chat_tidy].
  - split; [apply handle_actor_drop_oblivious | apply handle_actor_drop_tidy].
  - split; [apply handle_region_change_oblivious | apply handle_region_change_tidy].
  - split; [apply handle_item_acquire_oblivious | apply handle_item_acquire_tidy].
  - split; [apply handle_item_pickup_oblivious | apply handle_item_pickup_tidy].
  - split; [apply handle_reload_oblivious | apply handle_reload_tidy].
  - split; [apply handle_health_oblivious | apply handle_health_tidy].
  - split; [apply handle_mana_oblivious | apply handle_mana_tidy].
  - split; [apply handle_ps_oblivious | apply handle_ps_tidy].
  - split; [apply handle_state_oblivious | apply handle_state_tidy].
  - split; [apply handle_attack_oblivious | apply handle_attack_tidy].
  - split; [apply handle_loaded_ammo_oblivious | apply handle_loaded_ammo_tidy].
Qed.

Lemma dispatch_replays (pid : bytes) (h : bytes -> ConnectionType -> M bytes)
      (data : bytes) :
  get PACKET_HANDLERS pid = Some h -> replays (h data).
Proof.
  intros Hget. destruct (table_entry _ _ Hget) as (name & func & -> & Ho & Ht).
  now apply format_replays.
Qed.

Lemma loop_body_replays (data : bytes) (reads : nat) :
  replays (fun origin => loop_body origin data reads).
Proof.
  unfold loop_body.
  destruct (get PACKET_HANDLERS (slice 0 2 data)) as [h|] eqn:Hget.
  - apply (replays_bind (h (slice_from 2 data))
             (fun d _ => ret (d, reads + 1))).
    + exact (dispatch_replays _ _ _ Hget).
    + intros d. apply replays_ret.
  - apply (replays_bind
             (fun _ => if reads + 1 <=? 1
                       then print (line_unknown (slice 0 2 data) data)
                       else ret tt)
             (fun _ _ => ret (slice_from 1 data, reads + 1))).
    + destruct (reads + 1 <=? 1).
      * apply replays_print_unknown.
      * apply replays_ret.
    + intros _. apply replays_ret.
Qed.

Lemma while_loop_replays (fuel : nat) :
  forall data reads, replays (fun origin => while_loop fuel origin data reads).
Proof.
  induction fuel as [|fuel IH]; intros data reads; cbn [while_loop];
    destruct (2 <=? len data); try apply replays_ret.
  apply (replays_bind (fun origin => loop_body origin data reads)
           (fun x origin =>
              match x with (d, n) => while_loop fuel origin d n end)).
  - apply loop_body_replays.
  - intros [d n]. apply IH.
Qed.

Lemma parse_replays (data : bytes) (port : Z) : replays (parse data port).
Proof.
  unfold parse. destruct (port =? MASTER_PORT)%Z.
  - apply replays_ret.
  - apply (replays_bind (fun origin => while_loop (len data) origin data 0)
             (fun r _ => ret (option_map (fun _ => tt) r))).
    + apply while_loop_replays.
    + intros r. apply replays_ret.
Qed.

(** ** What is queued and what is raised *)

Lemma sound_ret {A} (a : A) : sound (ret a).
Proof. intros r w1 [= <- <-]. split; [reflexivity|discriminate]. Qed.

Lemma sound_print (l : line) : sound (print l).
Proof. intros r w1 [= <- <-]. split; [reflexivity|discriminate]. Qed.

Lemma sound_bind {A B} (c : ConnectionType -> M A)
      (k : A -> ConnectionType -> M B) :
  (forall a, replays (k a)) ->
  sound (c CLIENT) -> (forall a, sound (k a CLIENT)) ->
  sound (bind (c CLIENT) (fun a => k a CLIENT)).
Proof.
  intros Hk Sc Sk r w1. unfold bind.
  destruct (c CLIENT empty_world) as [[a|e] w0] eqn:E.
  - destruct (Sc _ _ E) as [Hq _].
    rewrite (Hk a CLIENT w0).
    destruct (k a CLIENT empty_world) as [r1 w2] eqn:E1.
    destruct (Sk a _ _ E1) as [Hq1 He1].
    cbn [fst snd]. intros [= <- <-]. split.
    + unfold extend. cbn [PACKET_QUEUE]. rewrite forallb_app, Hq, Hq1.
      reflexivity.
    + assumption.
  - intros [= <- <-]. destruct (Sc _ _ E) as [Hq He]. split; [assumption|].
    intros e' [= <-]. now apply He.
Qed.

Lemma format_sound (name : string) (func : bytes -> M (bytes * message))
      (data : bytes) :
  tidy func -> sound (format name func data CLIENT).
Proof.
  intros Ht r w1. unfold format, bind.
  destruct (func data empty_world) as [[[d m]|e] w0] eqn:E;
    destruct (Ht _ _ _ E) as (Hout & Hq & He).
  - destruct (existsb (String.eqb name) NO_PRINT); unfold print, ret;
      intros [= <- <-]; (split; [assumption|discriminate]).
  - intros [= <- <-]. split; [assumption|].
    intros e' [= <-]. exact (proj2 (He e eq_refl)).
Qed.

Lemma loop_body_sound (data : bytes) (reads : nat) :
  sound (loop_body CLIENT data reads).
Proof.
  unfold loop_body.
  destruct (get PACKET_HANDLERS (slice 0 2 data)) as [h|] eqn:Hget.
  - destruct (table_entry _ _ Hget) as (name & func & -> & Ho & Ht).
    apply (sound_bind (format name func (slice_from 2 data))
             (fun d _ => ret (d, reads + 1))).
    + intros d. apply replays_ret.
    + now apply format_sound.
    + intros d. apply sound_ret.
  - apply (sound_bind
             (fun _ => if reads + 1 <=? 1
                       then print (line_unknown (slice 0 2 data) data)
                       else ret tt)
             (fun _ _ => ret (slice_from 1 data, reads + 1))).
    + intros _. apply replays_ret.
    + destruct (reads + 1 <=? 1); [apply sound_print | apply sound_ret].
    + intros _. apply sound_ret.
Qed.

Lemma while_loop_sound (fuel : nat) :
  forall data reads, sound (while_loop fuel CLIENT data reads).
Proof.
  induction fuel as [|fuel IH]; intros data reads; cbn [while_loop];
    destruct (2 <=? len data); try apply sound_ret.
  apply (sound_bind (fun origin => loop_body origin data reads)
           (fun x origin =>
              match x with (d, n) => while_loop fuel origin d n end)).
  - intros [d n]. apply while_loop_replays.
  - apply loop_body_sound.
  - intros [d n]. apply IH.
Qed.

Lemma parse_sound (data : bytes) (port : Z) : sound (parse data port CLIENT).
Proof.
  unfold parse. destruct (port =? MASTER_PORT)%Z.
  - apply sound_ret.
  - apply (sound_bind (fun origin => while_loop (len data) origin data 0)
             (fun r _ => ret (option_map (fun _ => tt) r))).
    + intros r. apply replays_ret.
    + apply while_loop_sound.
    + intros r. apply sound_ret.
Qed.

(** ** Framing of the text-carrying packets *)

Lemma handle_chat_framed (text_bytes rest : bytes) (text : str) (w : world) :
  (Z.of_nat (len text_bytes) < 65536)%Z ->
  decode text_bytes = Ok text ->
  handle_chat (text_packet text_bytes rest) w = (Ok (rest, msg_chat text), w).
Proof.
  intros Hlen Hdec.
  set (L := le_bytes 2 (Z.of_nat (len text_bytes))).
  assert (HL : len L = 2) by apply len_le_bytes.
  pose proof (u16_roundtrip _ Hlen : Z.to_nat (le_value L) = _) as HLv.
  unfold handle_chat, text_packet. fold L.
  set (data := L ++ text_bytes ++ rest).
  assert (S1 : slice 0 2 data = L)
    by slice_of (@nil byte) L (text_bytes ++ rest).
  assert (S2 : slice 2 (2 + len text_bytes) data = text_bytes)
    by slice_of L text_bytes rest.
  assert (S3 : slice_from (2 + len text_bytes) data = rest)
    by suffix_of (L ++ text_bytes) rest.
  unfold bind, lift, ret.
  rewrite S1. unfold unpack_H. rewrite unpack_uint_ok by assumption.
  rewrite !HLv, S2, Hdec, S3. reflexivity.
Qed.

Lemma handle_region_change_framed (text_bytes rest : bytes) (text : str)
      (w : world) :
  (Z.of_nat (len text_bytes) < 65536)%Z ->
  decode text_bytes = Ok text ->
  handle_region_change (text_packet text_bytes rest) w
  = (Ok (rest, msg_region (upper text)), w).
Proof.
  intros Hlen Hdec.
  set (L := le_bytes 2 (Z.of_nat (len text_bytes))).
  assert (HL : len L = 2) by apply len_le_bytes.
  pose proof (u16_roundtrip _ Hlen : Z.to_nat (le_value L) = _) as HLv.
  unfold handle_region_change, text_packet. fold L.
  set (data := L ++ text_bytes ++ rest).
  assert (S1 : slice 0 2 data = L)
    by slice_of (@nil byte) L (text_bytes ++ rest).
  assert (S2 : slice 2 (2 + len text_bytes) data = text_bytes)
    by slice_of L text_bytes rest.
  assert (S3 : slice_from (2 + len text_bytes) data = rest)
    by suffix_of (L ++ text_bytes) rest.
  unfold bind, lift, ret.
  rewrite S1. unfold unpack_H. rewrite unpack_uint_ok by assumption.
  rewrite !HLv, S2, Hdec, S3. reflexivity.
Qed.

Lemma handle_item_acquire_framed (name_bytes amount_bytes rest : bytes)
      (item_name : str) (w : world) :
  (Z.of_nat (len name_bytes) < 65536)%Z -> len amount_bytes = 4 ->
  decode name_bytes = Ok item_name ->
  handle_item_acquire (item_acquire_packet name_bytes amount_bytes rest) w
  = (Ok (rest, msg_item_acquire (le_value amount_bytes) item_name), w).
Proof.
  intros Hlen Hamount Hdec.
  set (L := le_bytes 2 (Z.of_nat (len name_bytes))).
  assert (HL : len L = 2) by apply len_le_bytes.
  pose proof (u16_roundtrip _ Hlen : Z.to_nat (le_value L) = _) as HLv.
  unfold handle_item_acquire, item_acquire_packet. fold L.
  set (data := L ++ name_bytes ++ amount_bytes ++ rest).
  assert (S1 : slice 0 2 data = L)
    by slice_of (@nil byte) L (name_bytes ++ amount_bytes ++ rest).
  assert (S2 : slice 2 (2 + len name_bytes) data = name_bytes)
    by slice_of L name_bytes (amount_bytes ++ rest).
  assert (S3 : slice (2 + len name_bytes) (2 + len name_bytes + 4) data
               = amount_bytes)
    by slice_of (L ++ name_bytes) amount_bytes rest.
  assert (S4 : slice_from (2 + len name_bytes + 4) data = rest)
    by suffix_of (L ++ name_bytes ++ amount_bytes) rest.
  unfold bind, lift, ret.
  rewrite S1. unfold unpack_H, unpack_I. rewrite unpack_uint_ok by assumption.
  rewrite !HLv, S2, Hdec, S3, unpack_uint_ok, S4 by assumption. reflexivity.
Qed.

(** ['IH'] on the six octets that start a state or an attack packet. *)
Lemma unpack_IH_fields (id_bytes L : bytes) :
  len id_bytes = 4 -> len L = 2 ->
  unpack_IH (id_bytes ++ L) = Ok (le_value id_bytes, le_value L).
Proof.
  intros Hid HL. unfold unpack_IH. rewrite len_app, Hid, HL. cbn [Nat.add Nat.eqb].
  rewrite (@slice_at (id_bytes ++ L) [] id_bytes L 0 4)
    by (try reflexivity; lia).
  rewrite (@slice_at (id_bytes ++ L) id_bytes L [] 4 6)
    by (rewrite ?app_nil_r; try reflexivity; try assumption; lia).
  reflexivity.
Qed.

Lemma handle_state_framed (id_bytes state_bytes rest : bytes) (state : str)
      (w : world) :
  len id_bytes = 4 -> (Z.of_nat (len state_bytes) < 65536)%Z ->
  decode state_bytes = Ok state ->
  handle_state (state_packet id_bytes state_bytes rest) w
  = (Ok (rest, msg_state (le_value id_bytes) state), w).
Proof.
  intros Hid Hlen Hdec.
  set (L := le_bytes 2 (Z.of_nat (len state_bytes))).
  assert (HL : len L = 2) by apply len_le_bytes.
  pose proof (u16_roundtrip _ Hlen : Z.to_nat (le_value L) = _) as HLv.
  unfold handle_state, state_packet. fold L.
  set (data := id_bytes ++ L ++ state_bytes ++ rest).
  assert (S1 : slice 0 6 data = id_bytes ++ L)
    by slice_of (@nil byte) (id_bytes ++ L) (state_bytes ++ rest).
  assert (S2 : slice 6 (6 + len state_bytes) data = state_bytes)
    by slice_of (id_bytes ++ L) state_bytes rest.
  assert (S3 : slice_from (6 + len state_bytes) data = rest)
    by suffix_of (id_bytes ++ L ++ state_bytes) rest.
  unfold bind, lift, ret.
  rewrite S1, unpack_IH_fields by assumption.
  rewrite !HLv, S2, Hdec, S3. reflexivity.
Qed.

Lemma handle_attack_framed
      (attacker_bytes attack_bytes victim_bytes rest : bytes) (attack : str)
      (w : world) :
  len attacker_bytes = 4 -> (Z.of_nat (len attack_bytes) < 65536)%Z ->
  len victim_bytes = 4 ->
  decode attack_bytes = Ok attack ->
  handle_attack (attack_packet attacker_bytes attack_bytes victim_bytes rest) w
  = (Ok (rest, msg_attack (le_value attacker_bytes) attack
                 (le_value victim_bytes)), w).
Proof.
  intros Hid Hlen Hvictim Hdec.
  set (L := le_bytes 2 (Z.of_nat (len attack_bytes))).
  assert (HL : len L = 2) by apply len_le_bytes.
  pose proof (u16_roundtrip _ Hlen : Z.to_nat (le_value L) = _) as HLv.
  unfold handle_attack, attack_packet. fold L.
  set (data := attacker_bytes ++ L ++ attack_bytes ++ victim_bytes ++ rest).
  assert (S1 : slice 0 6 data = attacker_bytes ++ L)
    by slice_of (@nil byte) (attacker_bytes ++ L)
         (attack_bytes ++ victim_bytes ++ rest).
  assert (S2 : slice 6 (6 + len attack_bytes) data = attack_bytes)
    by slice_of (attacker_bytes ++ L) attack_bytes (victim_bytes ++ rest).
  assert (S3 : slice (6 + len attack_bytes) (6 + len attack_bytes + 4) data
               = victim_bytes)
    by slice_of (attacker_bytes ++ L ++ attack_bytes) victim_bytes rest.
  assert (S4 : slice_from (6 + len attack_bytes + 4) data = rest)
    by suffix_of (attacker_bytes ++ L ++ attack_bytes ++ victim_bytes) rest.
  unfold bind, lift, ret.
  rewrite S1, unpack_IH_fields by assumption.
  rewrite !HLv, S2, Hdec, S3. unfold unpack_I.
  rewrite unpack_uint_ok, S4 by assumption. reflexivity.
Qed.

(** ** Fixed-size packets *)

Lemma le_value_1 (x : byte) : le_value [x] = ord x.
Proof. cbn [le_value]. lia. Qed.

Lemma handle_jump_cons (x : byte) (rest : bytes) (w : world) :
  handle_jump (x :: rest) w = (Ok (rest, msg_jump (negb (ord x =? 0)%Z)), w).
Proof.
  unfold handle_jump, bind, lift, ret, unpack_bool, unpack_uint, rbind.
  cbn [slice slice_from Nat.sub skipn firstn len List.length Nat.eqb].
  now rewrite le_value_1.
Qed.

Lemma handle_sneak_cons (x : byte) (rest : bytes) (w : world) :
  handle_sneak (x :: rest) w = (Ok (rest, msg_sneak (ord x =? 0)%Z), w).
Proof.
  unfold handle_sneak, bind, lift, ret, unpack_bool, unpack_uint, rbind.
  cbn [slice slice_from Nat.sub skipn firstn len List.length Nat.eqb].
  now rewrite le_value_1, negb_involutive.
Qed.

Lemma handle_slot_select_cons (x : byte) (rest : bytes) (w : world) :
  handle_slot_select (x :: rest) w = (Ok (rest, msg_slot (ord x)), w).
Proof.
  unfold handle_slot_select, bind, lift, ret, unpack_B, unpack_uint.
  cbn [slice slice_from Nat.sub skipn firstn len List.length Nat.eqb].
  now rewrite le_value_1.
Qed.

Lemma handle_item_pickup_cons (i0 i1 i2 i3 : byte) (rest : bytes) (w : world) :
  handle_item_pickup (i0 :: i1 :: i2 :: i3 :: rest) w
  = (Ok (rest, msg_item_pickup (le_value [i0; i1; i2; i3])), w).
Proof. reflexivity. Qed.

Lemma handle_mana_cons (m0 m1 : byte) (rest : bytes) (w : world) :
  handle_mana (m0 :: m1 :: rest) w
  = (Ok (rest, msg_mana (le_value [m0; m1])), w).
Proof. reflexivity. Qed.

Lemma handle_health_cons (i0 i1 i2 i3 h0 h1 : byte) (rest : bytes) (w : world) :
  handle_health (i0 :: i1 :: i2 :: i3 :: h0 :: h1 :: rest) w
  = (Ok (rest, msg_health (le_value [i0; i1; i2; i3])
                 (to_signed16 (le_value [h0; h1]))), w).
Proof. reflexivity. Qed.

Lemma to_signed16_range (h0 h1 : byte) :
  (-32768 <= to_signed16 (le_value [h0; h1]) < 32768)%Z.
Proof.
  pose proof (le_value_range [h0; h1]) as R.
  change (256 ^ Z.of_nat (len [h0; h1]))%Z with 65536%Z in R.
  unfold to_signed16.
  destruct (Z.ltb_spec (le_value [h0; h1]) 32768); lia.
Qed.

Lemma format_raises (name : string) (func : bytes -> M (bytes * message))
      (data : bytes) (origin : ConnectionType) (w w1 : world) (e : exn) :
  func data w = (Raise e, w1) ->
  format name func data origin w = (Raise e, w1).
Proof. intros H. unfold format, bind. now rewrite H. Qed.

(** ** A handled packet at the head of the buffer *)

Lemma while_loop_consumes (h : bytes -> ConnectionType -> M bytes)
      (tag body rest : bytes) (origin : ConnectionType) (reads : nat)
      (w w1 : world) (fuel : nat) :
  len tag = 2 -> get PACKET_HANDLERS tag = Some h ->
  h (body ++ rest) origin w = (Ok rest, w1) ->
  len (tag ++ body ++ rest) <= fuel ->
  while_loop fuel origin (tag ++ body ++ rest) reads w
  = while_loop (len rest) origin rest (reads + 1) w1.
Proof.
  intros Htag Hget Hh Hfuel.
  rewrite !len_app in Hfuel.
  destruct fuel as [|fuel]; [lia|].
  rewrite while_loop_turn by (rewrite !len_app; lia).
  unfold loop_body.
  rewrite (@slice_at (tag ++ body ++ rest) [] tag (body ++ rest) 0 2)
    by (try reflexivity; lia).
  rewrite (@slice_from_at (tag ++ body ++ rest) tag (body ++ rest) 2)
    by (try reflexivity; assumption).
  rewrite Hget. unfold bind, ret. rewrite Hh.
  apply while_loop_fuel; lia.
Qed.

Lemma while_loop_raises (h : bytes -> ConnectionType -> M bytes)
      (tag body : bytes) (origin : ConnectionType) (reads : nat)
      (w w1 : world) (e : exn) (fuel : nat) :
  len tag = 2 -> get PACKET_HANDLERS tag = Some h ->
  h body origin w = (Raise e, w1) ->
  while_loop (S fuel) origin (tag ++ body) reads w = (Raise e, w1).
Proof.
  intros Htag Hget Hh.
  rewrite while_loop_turn by (rewrite !len_app; lia).
  unfold loop_body.
  rewrite (@slice_at (tag ++ body) [] tag body 0 2)
    by (try reflexivity; lia).
  rewrite (@slice_from_at (tag ++ body) tag body 2)
    by (try reflexivity; assumption).
  rewrite Hget. unfold bind, ret. now rewrite Hh.
Qed.

Lemma parse_game_port (data : bytes) (port : Z) (origin : ConnectionType) :
  port <> MASTER_PORT ->
  parse data port origin
  = bind (while_loop (len data) origin data 0)
      (fun r => ret (option_map (fun _ => tt) r)).
Proof.
  intros H. unfold parse.
  now destruct (Z.eqb_spec port MASTER_PORT).
Qed.

Lemma parse_extends (data : bytes) (port : Z) (origin : ConnectionType)
      (w : world) :
  exists q out,
    snd (parse data port origin w) = extend w q out /\
    forallb is_request q = true.
Proof.
  rewrite parse_replays. cbn [snd].
  do 2 eexists. split; [reflexivity|].
  destruct (parse data port CLIENT empty_world) as [r0 w0] eqn:E.
  exact (proj1 (parse_sound _ _ _ _ E)).
Qed.

(** ** The properties *)

(** X1.  What [parse] returns, queues and prints is fixed by the buffer
    and the port alone.  The origin only selects the direction marker of
    the printed messages, and the queue and console found at the call are
    kept, in front of what is added. *)
Theorem parse_depends_on_buffer_only (data : bytes) (port : Z) :
  exists r q out,
    forall origin w,
      parse data port origin w = (r, extend w q (map (remark origin) out)).
Proof. do 3 eexists. intros origin w. apply parse_replays. Qed.

(** X2.  [parse] never takes anything off the injection queue, and all
    it ever appends to it are reload requests (the two octets 72 6c) and
    pickup requests (65 65 followed by four octets). *)
Theorem parse_queues_only_requests (data : bytes) (port : Z)
        (origin : ConnectionType) (w : world) :
  exists q,
    PACKET_QUEUE (snd (parse data port origin w)) = PACKET_QUEUE w ++ q /\
    forallb is_request q = true.
Proof.
  destruct (parse_extends data port origin w) as (q & out & -> & Hq).
  exists q. split; [reflexivity|exact Hq].
Qed.





(** X5.  Chat (tag [#*]) and region change (tag [ch]) carry one text
    behind its length on two octets.  When the text decodes, the handler
    returns what follows it in the buffer and prints the text, as it is
    for chat and in upper case for a region change; the queue is left
    alone. *)
Theorem text_packets_consume_their_text
        (text_bytes rest : bytes) (text : str)
        (origin : ConnectionType) (w : world) :
  (Z.of_nat (len text_bytes) < 65536)%Z ->
  decode text_bytes = Ok text ->
  exists chat region,
    get PACKET_HANDLERS (b "#*") = Some chat /\
    get PACKET_HANDLERS (b "ch") = Some region /\
    chat (text_packet text_bytes rest) origin w
    = (Ok rest, say w origin (msg_chat text)) /\
    region (text_packet text_bytes rest) origin w
    = (Ok rest, say w origin (msg_region (upper text))).
Proof.
  intros Hlen Hdec. eexists. eexists.
  split; [reflexivity|]. split; [reflexivity|]. split.
  - rewrite (format_result _ _ _ _ _ origin _ _
               (handle_chat_framed text_bytes rest text w Hlen Hdec)).
    reflexivity.
  - rewrite (format_result _ _ _ _ _ origin _ _
               (handle_region_change_framed text_bytes rest text w Hlen Hdec)).
    reflexivity.
Qed.

Lemma text_packets_consume_their_text_witness :
  exists chat region,
    get PACKET_HANDLERS (b "#*") = Some chat /\
    get PACKET_HANDLERS (b "ch") = Some region /\
    chat (text_packet (b "hi") (b "jp")) SERVER empty_world
    = (Ok (b "jp"), say empty_world SERVER (msg_chat [104; 105]%Z)) /\
    region (text_packet (b "hi") (b "jp")) SERVER empty_world
    = (Ok (b "jp"), say empty_world SERVER (msg_region [72; 73]%Z)).
Proof.
  apply (text_packets_consume_their_text (b "hi") (b "jp") [104; 105]%Z
           SERVER empty_world); [simpl; lia | reflexivity].
Defined.

(** X6.  An item-acquire packet (tag [cp]) is a length-prefixed name
    and an amount on four octets.  When the name decodes, the handler
    returns what follows the amount and reports amount and name. *)
Theorem item_acquire_consumes_its_fields
        (name_bytes amount_bytes rest : bytes) (item_name : str)
        (origin : ConnectionType) (w : world) :
  (Z.of_nat (len name_bytes) < 65536)%Z -> len amount_bytes = 4 ->
  decode name_bytes = Ok item_name ->
  exists handler,
    get PACKET_HANDLERS (b "cp") = Some handler /\
    handler (item_acquire_packet name_bytes amount_bytes rest) origin w
    = (Ok rest,
       say w origin (msg_item_acquire (le_value amount_bytes) item_name)).
Proof.
  intros Hlen Hamount Hdec. eexists. split; [reflexivity|].
  rewrite (format_result _ _ _ _ _ origin _ _
             (handle_item_acquire_framed name_bytes amount_bytes rest
                item_name w Hlen Hamount Hdec)).
  reflexivity.
Qed.

Lemma item_acquire_consumes_its_fields_witness :
  exists handler,
    get PACKET_HANDLERS (b "cp") = Some handler /\
    handler (item_acquire_packet (b "hi") [x03; x00; x00; x00] (b "jp"))
            CLIENT empty_world
    = (Ok (b "jp"),
       say empty_world CLIENT
         (msg_item_acquire (le_value [x03; x00; x00; x00]) [104; 105]%Z)).
Proof.
  apply (item_acquire_consumes_its_fields (b "hi") [x03; x00; x00; x00]
           (b "jp") [104; 105]%Z CLIENT empty_world);
    [simpl; lia | reflexivity | reflexivity].
Defined.

(** X7.  State (tag [st]) and attack (tag [tr]) packets start with an
    actor id on four octets and a length-prefixed text; an attack ends
    with the victim id on four octets.  When the text decodes, the
    handler returns what follows the last field and reports the fields. *)
Theorem state_and_attack_consume_their_fields
        (id_bytes text_bytes victim_bytes rest : bytes) (text : str)
        (origin : ConnectionType) (w : world) :
  len id_bytes = 4 -> (Z.of_nat (len text_bytes) < 65536)%Z ->
  len victim_bytes = 4 ->
  decode text_bytes = Ok text ->
  exists state attack,
    get PACKET_HANDLERS (b "st") = Some state /\
    get PACKET_HANDLERS (b "tr") = Some attack /\
    state (state_packet id_bytes text_bytes rest) origin w
    = (Ok rest, say w origin (msg_state (le_value id_bytes) text)) /\
    attack (attack_packet id_bytes text_bytes victim_bytes rest) origin w
    = (Ok rest,
       say w origin (msg_attack (le_value id_bytes) text
                       (le_value victim_bytes))).
Proof.
  intros Hid Hlen Hvictim Hdec. eexists. eexists.
  split; [reflexivity|]. split; [reflexivity|]. split.
  - rewrite (format_result _ _ _ _ _ origin _ _
               (handle_state_framed id_bytes text_bytes rest text w
                  Hid Hlen Hdec)).
    reflexivity.
  - rewrite (format_result _ _ _ _ _ origin _ _
               (handle_attack_framed id_bytes text_bytes victim_bytes rest
                  text w Hid Hlen Hvictim Hdec)).
    reflexivity.
Qed.

Lemma state_and_attack_consume_their_fields_witness :
  exists state attack,
    get PACKET_HANDLERS (b "st") = Some state /\
    get PACKET_HANDLERS (b "tr") = Some attack /\
    state (state_packet [x07; x00; x00; x00] (b "hi") (b "jp"))
          SERVER empty_world
    = (Ok (b "jp"),
       say empty_world SERVER
         (msg_state (le_value [x07; x00; x00; x00]) [104; 105]%Z)) /\
    attack (attack_packet [x07; x00; x00; x00] (b "hi")
              [x09; x00; x00; x00] (b "jp"))
           SERVER empty_world
    = (Ok (b "jp"),
       say empty_world SERVER
         (msg_attack (le_value [x07; x00; x00; x00]) [104; 105]%Z
            (le_value [x09; x00; x00; x00]))).
Proof.
  apply (state_and_attack_consume_their_fields [x07; x00; x00; x00] (b "hi")
           [x09; x00; x00; x00] (b "jp") [104; 105]%Z SERVER empty_world);
    [reflexivity | simpl; lia | reflexivity | reflexivity].
Defined.

(** X8.  The position handler (tag [mv]) reads twelve octets and skips
    twenty: it raises [struct.error] on fewer than twelve octets, and on
    twelve or more it returns what lies beyond the twentieth, nothing
    when the buffer ends before.  The handler of tag [ps] skips
    twenty-eight octets and never raises.  Neither prints. *)
Theorem position_and_ps_skip (data : bytes) (origin : ConnectionType)
        (w : world) :
  exists position ps,
    get PACKET_HANDLERS (b "mv") = Some position /\
    get PACKET_HANDLERS (b "ps") = Some ps /\
    position data origin w
    = (if 12 <=? len data then Ok (slice_from 20 data) else Raise struct_error,
       w) /\
    ps data origin w = (Ok (slice_from 28 data), w).
Proof.
  eexists. eexists. split; [reflexivity|]. split; [reflexivity|].
  split; [|reflexivity].
  unfold format, bind, handle_position, lift, unpack_fff.
  assert (Hlen : len (slice 0 (3 * 4) data) = Nat.min 12 (len data)).
  { unfold slice, len. cbn [skipn]. now rewrite length_firstn. }
  rewrite Hlen.
  destruct (Nat.leb_spec 12 (len data)) as [Hl|Hs].
  - rewrite Nat.min_l by assumption. reflexivity.
  - replace (Nat.min 12 (len data) =? 12) with false; [reflexivity|].
    symmetry. apply Nat.eqb_neq. lia.
Qed.

(** X9.  Jump, sneak and slot-select packets are one octet long.  The
    jump handler reports jumping for any non-zero octet, the sneak
    handler reports sneaking for the zero octet only, the slot handler
    reports the octet's value; each returns what follows the octet, and
    raises [struct.error] on an empty buffer without printing. *)
Theorem one_octet_packets (x : byte) (rest : bytes)
        (origin : ConnectionType) (w : world) :
  exists jump sneak slot,
    get PACKET_HANDLERS (b "jp") = Some jump /\
    get PACKET_HANDLERS (b "rn") = Some sneak /\
    get PACKET_HANDLERS (b "s=") = Some slot /\
    jump (x :: rest) origin w
    = (Ok rest, say w origin (msg_jump (negb (ord x =? 0)%Z))) /\
    sneak (x :: rest) origin w
    = (Ok rest, say w origin (msg_sneak (ord x =? 0)%Z)) /\
    slot (x :: rest) origin w = (Ok rest, say w origin (msg_slot (ord x))) /\
    jump [] origin w = (Raise struct_error, w) /\
    sneak [] origin w = (Raise struct_error, w) /\
    slot [] origin w = (Raise struct_error, w).
Proof.
  do 3 eexists. do 3 (split; [reflexivity|]).
  split; [|split; [|split; [|repeat split]]].
  - now rewrite (format_result _ _ _ _ _ origin _ _ (handle_jump_cons x rest w)).
  - now rewrite (format_result _ _ _ _ _ origin _ _ (handle_sneak_cons x rest w)).
  - now rewrite (format_result _ _ _ _ _ origin _ _
                   (handle_slot_select_cons x rest w)).
Qed.

(** X10.  Item pickup (tag [ee]) is an id on four octets, mana (tag
    [ma]) a value on two, health (tag [++]) an actor id on four octets
    and a signed value on two.  Each handler returns what follows its
    fields.  Pickup and health are printed, mana is not; the health value
    lies between -32768 and 32767. *)
Theorem numeric_packets (i0 i1 i2 i3 h0 h1 : byte) (rest : bytes)
        (origin : ConnectionType) (w : world) :
  exists pickup mana health,
    get PACKET_HANDLERS (b "ee") = Some pickup /\
    get PACKET_HANDLERS (b "ma") = Some mana /\
    get PACKET_HANDLERS (b "++") = Some health /\
    pickup (i0 :: i1 :: i2 :: i3 :: rest) origin w
    = (Ok rest, say w origin (msg_item_pickup (le_value [i0; i1; i2; i3]))) /\
    mana (h0 :: h1 :: rest) origin w = (Ok rest, w) /\
    health (i0 :: i1 :: i2 :: i3 :: h0 :: h1 :: rest) origin w
    = (Ok rest,
       say w origin (msg_health (le_value [i0; i1; i2; i3])
                       (to_signed16 (le_value [h0; h1])))) /\
    (-32768 <= to_signed16 (le_value [h0; h1]) < 32768)%Z.
Proof.
  do 3 eexists. do 3 (split; [reflexivity|]).
  split; [|split; [|split]].
  - now rewrite (format_result _ _ _ _ _ origin _ _
                   (handle_item_pickup_cons i0 i1 i2 i3 rest w)).
  - now rewrite (format_result _ _ _ _ _ origin _ _
                   (handle_mana_cons h0 h1 rest w)).
  - now rewrite (format_result _ _ _ _ _ origin _ _
                   (handle_health_cons i0 i1 i2 i3 h0 h1 rest w)).
  - apply to_signed16_range.
Qed.

Lemma parse_pickup_packet (item_id : Z) (port : Z) (origin : ConnectionType)
      (w : world) :
  (0 <= item_id < 4294967296)%Z -> port <> MASTER_PORT ->
  parse (pickup_packet item_id) port origin w
  = (Ok (Some tt), say w origin (msg_item_pickup item_id)).
Proof.
  intros Hid Hport. rewrite parse_game_port by assumption.
  unfold bind, pickup_packet.
  assert (Hh : format "handle_item_pickup" handle_item_pickup
                 (le_bytes 4 item_id ++ []) origin w
               = (Ok [], say w origin (msg_item_pickup item_id))).
  { rewrite (format_result "handle_item_pickup" handle_item_pickup
               (le_bytes 4 item_id ++ []) [] (msg_item_pickup item_id)
               origin w w); [reflexivity|].
    rewrite app_nil_r. cbn [le_bytes].
    rewrite handle_item_pickup_cons.
    change [byte_of item_id; byte_of (item_id / 256);
            byte_of (item_id / 256 / 256); byte_of (item_id / 256 / 256 / 256)]
      with (le_bytes 4 item_id).
    rewrite le_value_le_bytes; [reflexivity|].
    change (256 ^ Z.of_nat 4)%Z with 4294967296%Z. assumption. }
  replace ([x65; x65] ++ le_bytes 4 item_id)
    with ([x65; x65] ++ le_bytes 4 item_id ++ [])
    by now rewrite app_nil_r.
  rewrite (while_loop_consumes _ [x65; x65] (le_bytes 4 item_id) [] origin 0
             w _ _ eq_refl eq_refl Hh) by reflexivity.
  reflexivity.
Qed.

(** X11.  Whenever the actor-drop handler reports an item as
    auto-looted, whatever else the buffer held, it has queued exactly one
    packet, and that packet is one this decoder reads back as the pickup
    of the very item the report names. *)
Theorem queued_pickup_reads_back
        (data rest : bytes) (item_id : Z) (item_name : str)
        (x y z : float32) (w w1 : world)
        (port : Z) (origin : ConnectionType) (w' : world) :
  handle_actor_drop data w
  = (Ok (rest, msg_actor_drop item_id item_name x y z true), w1) ->
  port <> MASTER_PORT ->
  exists packet,
    PACKET_QUEUE w1 = PACKET_QUEUE w ++ [packet] /\
    parse packet port origin w'
    = (Ok (Some tt), say w' origin (msg_item_pickup item_id)).
Proof.
  intros H Hport. unfold handle_actor_drop in H.
  unfold bind, lift, ret, PACKET_QUEUE_put in H.
  destruct (unpack_I (slice 0 4 data)) as [id|] eqn:Eid; [|discriminate].
  destruct (unpack_I (slice 4 8 data)); [|discriminate].
  destruct (index data 9); [|discriminate].
  destruct (unpack_H (slice 9 11 data)) as [v|]; [|discriminate].
  destruct (decode _) as [name|]; [|discriminate].
  destruct (unpack_fff _) as [[[x0 y0] z0]|]; [|discriminate].
  assert (Hrange : (0 <= id < 4294967296)%Z).
  { unfold unpack_I, unpack_uint in Eid.
    destruct (Nat.eqb_spec (len (slice 0 4 data)) 4) as [E4|]; [|discriminate].
    pose proof (le_value_range (slice 0 4 data)) as R. rewrite E4 in R.
    change (256 ^ Z.of_nat 4)%Z with 4294967296%Z in R. congruence. }
  destruct (contains (literal "Drop") name).
  - unfold pack_eq_HI in H.
    replace (fits 2 25957 && fits 4 id) with true in H.
    + assert (item_id = id) by congruence. subst item_id.
      exists (pickup_packet id). split.
      * replace w1 with
          {| PACKET_QUEUE := put (PACKET_QUEUE w) (le_bytes 2 25957 ++ le_bytes 4 id);
             stdout := stdout w |} by congruence.
        reflexivity.
      * now apply parse_pickup_packet.
    + symmetry. unfold fits. apply andb_true_iff. split; [reflexivity|].
      apply andb_true_iff. split; [apply Z.leb_le|apply Z.ltb_lt];
        change (256 ^ Z.of_nat 4)%Z with 4294967296%Z; lia.
  - discriminate.
Qed.

Lemma queued_pickup_reads_back_witness :
  exists packet,
    PACKET_QUEUE {| PACKET_QUEUE := [pickup_packet 42]; stdout := [] |}
    = PACKET_QUEUE empty_world ++ [packet] /\
    parse packet 3000 SERVER empty_world
    = (Ok (Some tt), say empty_world SERVER (msg_item_pickup 42)).
Proof.
  apply (queued_pickup_reads_back
           (actor_drop_packet [x2a; x00; x00; x00] [x00; x00; x00; x00] x00
              (b "GunDrop")
              [x00; x00; x80; x3f; x00; x00; x00; x00; x00; x00; x00; x00]
              (b "jp" ++ [x01]))
           (b "jp" ++ [x01]) 42
           (map (fun c => ord c) (b "GunDrop"))
           (F32 1065353216) (F32 0) (F32 0)
           empty_world
           {| PACKET_QUEUE := [pickup_packet 42]; stdout := [] |}
           3000 SERVER empty_world).
  - reflexivity.
  - discriminate.
Defined.

(** X12.  On a buffer too short to hold the fixed fields of an actor
    drop, the handler of tag [mk] raises before queueing or printing
    anything: [struct.error] on fewer than eight octets, [IndexError] on
    eight or nine (the ids unpack, the octet at index 9 is missing), and
    [struct.error] again on ten. *)
Theorem actor_drop_short_buffer (data : bytes) (origin : ConnectionType)
        (w : world) :
  len data < 11 ->
  exists handler,
    get PACKET_HANDLERS (b "mk") = Some handler /\
    handler data origin w
    = (Raise (if len data <? 8 then struct_error
              else if len data <? 10 then IndexError
              else struct_error), w).
Proof.
  intros Hlen. eexists. split; [reflexivity|].
  apply format_raises.
  do 11 (destruct data as [|? data]; [reflexivity|]).
  cbn [len List.length] in Hlen. lia.
Qed.

Lemma actor_drop_short_buffer_witness :
  exists handler,
    get PACKET_HANDLERS (b "mk") = Some handler /\
    handler (b "ninechars") CLIENT empty_world
    = (Raise (if len (b "ninechars") <? 8 then struct_error
              else if len (b "ninechars") <? 10 then IndexError
              else struct_error), empty_world).
Proof.
  apply (actor_drop_short_buffer (b "ninechars") CLIENT empty_world).
  simpl. lia.
Defined.

(** X13.  The reload handler catches decode errors only.  A reload tag
    followed by fewer than two octets, as in the bare reload request
    [rl], makes [parse] raise [struct.error]; nothing is printed or
    queued. *)
Theorem truncated_reload_raises (data : bytes) (port : Z)
        (origin : ConnectionType) (w : world) :
  len data < 2 -> port <> MASTER_PORT ->
  parse (reload_packet ++ data) port origin w = (Raise struct_error, w).
Proof.
  intros Hlen Hport. rewrite parse_game_port by assumption.
  unfold bind.
  assert (Hh : format "handle_reload" handle_reload data origin w
               = (Raise struct_error, w)).
  { apply format_raises.
    destruct data as [|x0 [|x1 data]]; [reflexivity | reflexivity |].
    cbn [len List.length] in Hlen. lia. }
  change (len (reload_packet ++ data)) with (S (S (len data))).
  now rewrite (while_loop_raises _ reload_packet data origin 0 w w
                 struct_error _ eq_refl eq_refl Hh).
Qed.

Lemma truncated_reload_raises_witness :
  parse (reload_packet ++ []) 3000 CLIENT empty_world
  = (Raise struct_error, empty_world).
Proof.
  apply (truncated_reload_raises [] 3000 CLIENT empty_world);
    [simpl; lia | discriminate].
Defined.

(** ** Buffers without a known tag *)

Lemma no_known_tag_head (a c : byte) (rest : bytes) :
  no_known_tag (a :: c :: rest) = true ->
  get PACKET_HANDLERS (slice 0 2 (a :: c :: rest)) = None
  /\ no_known_tag (c :: rest) = true.
Proof.
  cbn [no_known_tag].
  change (slice 0 2 (a :: c :: rest)) with [a; c].
  destruct (get PACKET_HANDLERS [a; c]); [discriminate|]. auto.
Qed.

Lemma while_loop_garbage (fuel : nat) :
  forall origin data reads w,
    no_known_tag data = true -> len data <= fuel -> 1 <= reads ->
    exists rest n,
      while_loop fuel origin data reads w = (Ok (Some (rest, n)), w).
Proof.
  induction fuel as [|fuel IH]; intros origin data reads w Hg Hlen Hr.
  - rewrite while_loop_exit by lia. eauto.
  - destruct data as [|a [|c rest]];
      try (rewrite while_loop_exit by (simpl; lia); eauto; fail).
    destruct (no_known_tag_head _ _ _ Hg) as [Hget Hg'].
    rewrite while_loop_turn by (simpl; lia).
    rewrite (loop_body_unknown origin _ reads w Hget).
    destruct reads as [|reads]; [lia|]. cbn [Nat.eqb].
    rewrite app_nil_r.
    replace {| PACKET_QUEUE := PACKET_QUEUE w; stdout := stdout w |} with w
      by now destruct w.
    apply IH; [exact Hg' | simpl in *; lia | lia].
Qed.

(** X14.  A buffer in which no two consecutive octets form a tag of the
    table is walked through one octet at a time: [parse] returns without
    raising, queues nothing, and prints a single line, the one that shows
    the first two octets and the whole buffer (no line at all when the
    buffer is shorter than two octets). *)
Theorem garbage_is_skipped (data : bytes) (port : Z)
        (origin : ConnectionType) (w : world) :
  no_known_tag data = true -> port <> MASTER_PORT ->
  parse data port origin w
  = (Ok (Some tt),
     {| PACKET_QUEUE := PACKET_QUEUE w;
        stdout := stdout w ++
                  (if 2 <=? len data
                   then [line_unknown (slice 0 2 data) data] else []) |}).
Proof.
  intros Hg Hport. rewrite parse_game_port by assumption. unfold bind.
  destruct data as [|a [|c rest]];
    try (rewrite while_loop_exit by (simpl; lia); cbn; rewrite app_nil_r;
         now destruct w).
  destruct (no_known_tag_head _ _ _ Hg) as [Hget Hg'].
  change (len (a :: c :: rest)) with (S (len (c :: rest))).
  rewrite while_loop_turn by (simpl; lia).
  rewrite (loop_body_unknown origin _ 0 w Hget). cbn [Nat.eqb].
  match goal with
  | |- context [while_loop ?f ?o ?d ?n ?w0] =>
      destruct (while_loop_garbage f o d n w0 Hg' (Nat.le_refl _)
                  ltac:(lia)) as (r & n' & ->)
  end.
  reflexivity.
Qed.

Lemma garbage_is_skipped_witness :
  parse (b "zzzz") 3000 CLIENT empty_world
  = (Ok (Some tt),
     {| PACKET_QUEUE := PACKET_QUEUE empty_world;
        stdout := stdout empty_world ++
                  (if 2 <=? len (b "zzzz")
                   then [line_unknown (slice 0 2 (b "zzzz")) (b "zzzz")]
                   else []) |}).
Proof.
  apply (garbage_is_skipped (b "zzzz") 3000 CLIENT empty_world);
    [reflexivity | discriminate].
Defined.

(** ** A run of fixed-size packets *)

Lemma fixed_packet_consumed (p : fixed_packet) (rest : bytes)
      (origin : ConnectionType) (w : world) :
  exists tag body h,
    encode p = tag ++ body /\ len tag = 2 /\
    get PACKET_HANDLERS tag = Some h /\
    h (body ++ rest) origin w
    = (Ok rest,
       {| PACKET_QUEUE := PACKET_QUEUE w;
          stdout := stdout w ++ reports origin [p] |}).
Proof.
  destruct p as [|x|x|x|i0 i1 i2 i3|m0 m1|i0 i1 i2 i3 h0 h1];
    cbn [encode reports report flat_map app].
  - exists [x00; x00], [], (format "handle_ack" handle_ack).
    repeat split. cbn. rewrite app_nil_r. now destruct w.
  - exists (b "jp"), [x], (format "handle_jump" handle_jump).
    repeat split.
    now rewrite (format_result _ _ _ _ _ origin _ _ (handle_jump_cons x rest w)).
  - exists (b "rn"), [x], (format "handle_sneak" handle_sneak).
    repeat split.
    now rewrite (format_result _ _ _ _ _ origin _ _ (handle_sneak_cons x rest w)).
  - exists (b "s="), [x], (format "handle_slot_select" handle_slot_select).
    repeat split.
    now rewrite (format_result _ _ _ _ _ origin _ _
                   (handle_slot_select_cons x rest w)).
  - exists (b "ee"), [i0; i1; i2; i3],
      (format "handle_item_pickup" handle_item_pickup).
    repeat split.
  - exists (b "ma"), [m0; m1], (format "handle_mana" handle_mana).
    repeat split. cbn. rewrite app_nil_r. now destruct w.
  - exists (b "++"), [i0; i1; i2; i3; h0; h1],
      (format "handle_health" handle_health).
    repeat split.
Qed.

Lemma reports_cons (origin : ConnectionType) (p : fixed_packet)
      (ps : list fixed_packet) :
  reports origin (p :: ps) = reports origin [p] ++ reports origin ps.
Proof. unfold reports. cbn [flat_map]. now rewrite app_nil_r. Qed.

Lemma while_loop_fixed_packets (ps : list fixed_packet) :
  forall origin reads w,
    exists rest n,
      while_loop (len (flat_map encode ps)) origin (flat_map encode ps) reads w
      = (Ok (Some (rest, n)),
         {| PACKET_QUEUE := PACKET_QUEUE w;
            stdout := stdout w ++ reports origin ps |}).
Proof.
  induction ps as [|p ps IH]; intros origin reads w.
  - exists [], reads. cbn. rewrite app_nil_r. now destruct w.
  - cbn [flat_map].
    destruct (fixed_packet_consumed p (flat_map encode ps) origin w)
      as (tag & body & h & -> & Htag & Hget & Hh).
    rewrite <- app_assoc.
    rewrite (while_loop_consumes h tag body _ origin reads w _ _ Htag Hget Hh)
      by reflexivity.
    destruct (IH origin (reads + 1)
                {| PACKET_QUEUE := PACKET_QUEUE w;
                   stdout := stdout w ++ reports origin [p] |})
      as (rest & n & ->).
    exists rest, n. cbn [PACKET_QUEUE stdout].
    now rewrite <- app_assoc, (reports_cons origin p ps).
Qed.

(** X15.  A buffer made of acknowledgement, jump, sneak, slot, pickup,
    mana and health packets, one after the other, is decoded packet by
    packet: [parse] returns without raising, queues nothing, and prints
    the packets' messages in the order of the packets, none for the
    acknowledgements and the mana packets. *)
Theorem fixed_packets_decode_in_order (ps : list fixed_packet) (port : Z)
        (origin : ConnectionType) (w : world) :
  port <> MASTER_PORT ->
  parse (flat_map encode ps) port origin w
  = (Ok (Some tt),
     {| PACKET_QUEUE := PACKET_QUEUE w;
        stdout := stdout w ++ reports origin ps |}).
Proof.
  intros Hport. rewrite parse_game_port by assumption. unfold bind.
  destruct (while_loop_fixed_packets ps origin 0 w) as (rest & n & ->).
  reflexivity.
Qed.

Lemma fixed_packets_decode_in_order_witness :
  parse (flat_map encode [pk_jump x01; pk_mana x05 x00; pk_sneak x01;
                          pk_health x07 x00 x00 x00 xff xff])
        3001 SERVER empty_world
  = (Ok (Some tt),
     {| PACKET_QUEUE := PACKET_QUEUE empty_world;
        stdout := stdout empty_world ++
                  reports SERVER [pk_jump x01; pk_mana x05 x00; pk_sneak x01;
                                  pk_health x07 x00 x00 x00 xff xff] |}).
Proof.
  apply (fixed_packets_decode_in_order
           [pk_jump x01; pk_mana x05 x00; pk_sneak x01;
            pk_health x07 x00 x00 x00 xff xff] 3001 SERVER empty_world).
  discriminate.
Defined.

End HandlerSpec.

(* ================================================================== *)
(** * Properties of one turn of the run loop *)
(* ================================================================== *)

Module TurnSpec.
Import Python helpers proxy wire relay frames ledger ProxySpec.

(** A turn on a state whose flags and sockets are known is evaluated by
    unfolding; the decoder's result, the one unknown, is named
    beforehand. *)
Ltac unroll :=
  cbv beta iota zeta delta
    [run_iteration bind receive send await_conn try_except try_finally
     sendall call_parse stop stop_rec shutdown_and_close update print emit
     ret PACKET_QUEUE_get_nowait is_OSError any_Exception exn_eqb
     is_running negb dest_conn conn set_conn with_stop_event with_sock
     the_listener the_broker process _stop_event _conn_event _retries _sock
     _conn_type port status sent get_nowait bytes_eqb ConnectionType_eqb
     parser.PACKET_QUEUE parser.stdout proxy.parse].

Ltac unroll_in H :=
  cbv beta iota zeta delta
    [run_iteration bind receive send await_conn try_except try_finally
     sendall call_parse stop stop_rec shutdown_and_close update print emit
     ret PACKET_QUEUE_get_nowait is_OSError any_Exception exn_eqb
     is_running negb dest_conn conn set_conn with_stop_event with_sock
     the_listener the_broker process _stop_event _conn_event _retries _sock
     _conn_type port status sent get_nowait bytes_eqb ConnectionType_eqb
     parser.PACKET_QUEUE parser.stdout proxy.parse] in H.

Ltac turn E :=
  eexists; eexists;
  split; [unroll; rewrite ?E; unroll; reflexivity|].

(** X16.  A turn of the run loop on a non-empty chunk, for a pair that
    is relaying (both events set, no stop event, both sockets live),
    returns and leaves the pair relaying whether the decoder returns or
    raises.  The destination's socket is sent the chunk and then, only
    if the connection is the CLIENT one and the queue the decoder left
    is not empty, the oldest queued packet, which is taken off the
    queue; nothing is written to the connection's own socket. *)
Theorem relay_turn (parse : decoder) (self : conn_id) (data : bytes)
        (s : state) :
  relaying s = true -> data <> [] ->
  exists s1 t,
    run_iteration parse self (Ok data) s = (Returns tt, s1, t) /\
    relaying s1 = true /\
    sent_of s1 (dest_conn self)
    = sent_of s (dest_conn self)
      ++ data :: injected (_conn_type (conn s self))
                   (parser.PACKET_QUEUE (decoded parse self data s)) /\
    sent_of s1 self = sent_of s self /\
    parser.PACKET_QUEUE (process s1)
    = left_over (_conn_type (conn s self))
        (parser.PACKET_QUEUE (decoded parse self data s)) /\
    parser.stdout (process s1) = parser.stdout (decoded parse self data s).
Proof.
  unfold decoded.
  expose s; intros Hr Hd; destruct se1, se2, ce1, ce2; try discriminate Hr;
    try destruct st1; try destruct st2; try discriminate Hr.
  destruct data as [|d0 data]; [contradiction|].
  destruct self;
    cbn [dest_conn conn the_listener the_broker _conn_type port process].
  - destruct (parse (d0 :: data) p1 ct1 w) as [[u|e] [q' out']] eqn:E;
      destruct ct1; try destruct q';
      turn E; repeat split; cbn; rewrite <- ?app_assoc; reflexivity.
  - destruct (parse (d0 :: data) p2 ct2 w) as [[u|e] [q' out']] eqn:E;
      destruct ct2; try destruct q';
      turn E; repeat split; cbn; rewrite <- ?app_assoc; reflexivity.
Qed.

Lemma relay_turn_witness :
  exists s1 t,
    run_iteration proxy.parse listener (Ok ammo_chunk) relaying_pair
    = (Returns tt, s1, t) /\
    relaying s1 = true /\
    sent_of s1 (dest_conn listener)
    = sent_of relaying_pair (dest_conn listener)
      ++ ammo_chunk
         :: injected (_conn_type (conn relaying_pair listener))
              (parser.PACKET_QUEUE
                 (decoded proxy.parse listener ammo_chunk relaying_pair)) /\
    sent_of s1 listener = sent_of relaying_pair listener /\
    parser.PACKET_QUEUE (process s1)
    = left_over (_conn_type (conn relaying_pair listener))
        (parser.PACKET_QUEUE
           (decoded proxy.parse listener ammo_chunk relaying_pair)) /\
    parser.stdout (process s1)
    = parser.stdout (decoded proxy.parse listener ammo_chunk relaying_pair).
Proof.
  apply (relay_turn proxy.parse listener ammo_chunk relaying_pair);
    [reflexivity | discriminate].
Defined.

(** X17.  A zero-length read ends the pair.  For an opened pair whose
    destination has signalled, the turn that reads [b''] returns with
    both connections Closed; the empty chunk goes through [send] like any
    other, and the decoder is not called. *)
Theorem zero_length_read_closes_pair (parse : decoder) (self : conn_id)
        (s : state) :
  opened s listener = true -> opened s broker = true ->
  _conn_event (conn s (dest_conn self)) = true ->
  exists s1 t,
    run_iteration parse self (Ok []) s = (Returns tt, s1, t) /\
    is_closed s1 listener = true /\ is_closed s1 broker = true /\
    Forall no_parse t /\
    parser.stdout (process s1) = parser.stdout (process s).
Proof.
  expose s; intros Hl Hb; try discriminate.
  destruct w as [q out].
  destruct self; cbn [dest_conn conn the_listener the_broker _conn_event];
    intros ->.
  - destruct se1, se2, st1, st2; try discriminate;
      destruct ct1; try destruct q;
      (eexists; eexists; split; [reflexivity|];
       split; [reflexivity|]; split; [reflexivity|];
       split; [repeat constructor|reflexivity]).
  - destruct se1, se2, st1, st2; try discriminate;
      destruct ct2; try destruct q;
      (eexists; eexists; split; [reflexivity|];
       split; [reflexivity|]; split; [reflexivity|];
       split; [repeat constructor|reflexivity]).
Qed.

Lemma zero_length_read_closes_pair_witness :
  exists s1 t,
    run_iteration proxy.parse broker (Ok []) relaying_pair
    = (Returns tt, s1, t) /\
    is_closed s1 listener = true /\ is_closed s1 broker = true /\
    Forall no_parse t /\
    parser.stdout (process s1) = parser.stdout (process relaying_pair).
Proof.
  apply (zero_length_read_closes_pair proxy.parse broker relaying_pair);
    reflexivity.
Defined.

(** X18.  A write that fails ends the pair.  For an opened pair whose
    destination has signalled but whose destination socket is no longer
    a live connection, a turn on any chunk prints the send error, returns
    with both connections Closed, and has added nothing to what the
    destination's socket was sent. *)
Theorem failed_forward_closes_pair (parse : decoder) (self : conn_id)
        (data : bytes) (s : state) :
  opened s listener = true -> opened s broker = true ->
  _conn_event (conn s (dest_conn self)) = true ->
  is_live s (dest_conn self) = false ->
  exists s1 t,
    run_iteration parse self (Ok data) s = (Returns tt, s1, t) /\
    is_closed s1 listener = true /\ is_closed s1 broker = true /\
    sent_of s1 (dest_conn self) = sent_of s (dest_conn self) /\
    In (ev_print (line_send_error self)) t.
Proof.
  expose s; intros Hl Hb; try discriminate.
  destruct self; cbn [dest_conn conn the_listener the_broker _conn_event];
    intros -> Hlive.
  - destruct se1, se2, st1, st2; try discriminate;
      destruct (parse data p1 ct1 w) as [[u|e] [q' out']] eqn:E;
      destruct data as [|d0 data]; destruct w as [q out];
      destruct ct1; try destruct q; try destruct q';
      turn E; repeat split; cbn; auto 10.
  - destruct se1, se2, st1, st2; try discriminate;
      destruct (parse data p2 ct2 w) as [[u|e] [q' out']] eqn:E;
      destruct data as [|d0 data]; destruct w as [q out];
      destruct ct2; try destruct q; try destruct q';
      turn E; repeat split; cbn; auto 10.
Qed.

Lemma failed_forward_closes_pair_witness :
  exists s1 t,
    run_iteration proxy.parse listener (Ok mana_chunk) half_open_pair
    = (Returns tt, s1, t) /\
    is_closed s1 listener = true /\ is_closed s1 broker = true /\
    sent_of s1 (dest_conn listener)
    = sent_of half_open_pair (dest_conn listener) /\
    In (ev_print (line_send_error listener)) t.
Proof.
  apply (failed_forward_closes_pair proxy.parse listener mana_chunk
           half_open_pair); reflexivity.
Defined.

(** X19.  A SERVER connection never touches the injection queue.
    However its turn ends (returning, raising or blocked), the module
    state is as it was before the turn or, when a chunk was handed to
    the decoder, as the decoder left it. *)
Theorem server_turn_leaves_queue (parse : decoder) (self : conn_id)
        (incoming : result bytes) (s : state) o s1 t :
  _conn_type (conn s self) = SERVER ->
  run_iteration parse self incoming s = (o, s1, t) ->
  process s1 = process s
  \/ exists data, incoming = Ok data /\ process s1 = decoded parse self data s.
Proof.
  unfold decoded.
  destruct self.
  - destruct s as [[se1 ce1 r1 sk1 ct1 p1] [se2 ce2 r2 sk2 ct2 p2] w];
      cbn [conn the_listener _conn_type port process]; intros ->.
    destruct incoming as [data|e];
      [destruct data as [|d0 data];
       [|destruct (parse (d0 :: data) p1 SERVER w) as [[u|e] w'] eqn:E]|];
      destruct sk1 as [[st1 sent1]|], sk2 as [[st2 sent2]|], se1, se2, ce2;
      try destruct st1; try destruct st2;
      intros H; unroll_in H; rewrite ?E in H; unroll_in H; pair3 H;
      first [left; reflexivity
            | right; eexists; split; [reflexivity|]; rewrite E; reflexivity].
  - destruct s as [[se1 ce1 r1 sk1 ct1 p1] [se2 ce2 r2 sk2 ct2 p2] w];
      cbn [conn the_broker _conn_type port process]; intros ->.
    destruct incoming as [data|e];
      [destruct data as [|d0 data];
       [|destruct (parse (d0 :: data) p2 SERVER w) as [[u|e] w'] eqn:E]|];
      destruct sk1 as [[st1 sent1]|], sk2 as [[st2 sent2]|], se1, se2, ce1;
      try destruct st1; try destruct st2;
      intros H; unroll_in H; rewrite ?E in H; unroll_in H; pair3 H;
      first [left; reflexivity
            | right; eexists; split; [reflexivity|]; rewrite E; reflexivity].
Qed.

Lemma server_turn_leaves_queue_witness :
  process (snd (fst (run_iteration proxy.parse broker (Ok mana_chunk)
                       relaying_pair)))
  = process relaying_pair
  \/ exists data,
      Ok mana_chunk = Ok data /\
      process (snd (fst (run_iteration proxy.parse broker (Ok mana_chunk)
                           relaying_pair)))
      = decoded proxy.parse broker data relaying_pair.
Proof.
  apply (server_turn_leaves_queue proxy.parse broker (Ok mana_chunk)
           relaying_pair
           (fst (fst (run_iteration proxy.parse broker (Ok mana_chunk)
                        relaying_pair)))
           (snd (fst (run_iteration proxy.parse broker (Ok mana_chunk)
                        relaying_pair)))
           (snd (run_iteration proxy.parse broker (Ok mana_chunk)
                   relaying_pair))); reflexivity.
Defined.

Lemma parse_master_port (data : bytes) (origin : ConnectionType)
      (w : parser.world) :
  parser.parse data MASTER_PORT origin w = (Ok (Some tt), w).
Proof. reflexivity. Qed.

(** X20.  Traffic of the master port is relayed without being decoded,
    but its listener still serves the injection queue.  With the decoder
    of [parser.py], a turn of a relaying connection whose port is the
    master port prints nothing and queues nothing; the destination's
    socket is sent the chunk, followed, when the connection is the CLIENT
    one, by the oldest packet found on the queue, which is taken off it. *)
Theorem master_port_is_relayed_undecoded (self : conn_id) (data : bytes)
        (s : state) :
  relaying s = true -> data <> [] ->
  port (conn s self) = MASTER_PORT ->
  exists s1 t,
    run_iteration proxy.parse self (Ok data) s = (Returns tt, s1, t) /\
    sent_of s1 (dest_conn self)
    = sent_of s (dest_conn self)
      ++ data :: injected (_conn_type (conn s self))
                   (parser.PACKET_QUEUE (process s)) /\
    parser.PACKET_QUEUE (process s1)
    = left_over (_conn_type (conn s self)) (parser.PACKET_QUEUE (process s)) /\
    parser.stdout (process s1) = parser.stdout (process s).
Proof.
  expose s; intros Hr Hd; destruct se1, se2, ce1, ce2; try discriminate Hr;
    try destruct st1; try destruct st2; try discriminate Hr.
  destruct data as [|d0 data]; [contradiction|].
  destruct w as [q out].
  destruct self;
    cbn [dest_conn conn the_listener the_broker _conn_type port process];
    intros ->.
  - pose proof (parse_master_port (d0 :: data) ct1
                  {| parser.PACKET_QUEUE := q; parser.stdout := out |}) as E.
    destruct ct1; try destruct q;
      turn E; repeat split; cbn; rewrite <- ?app_assoc; reflexivity.
  - pose proof (parse_master_port (d0 :: data) ct2
                  {| parser.PACKET_QUEUE := q; parser.stdout := out |}) as E.
    destruct ct2; try destruct q;
      turn E; repeat split; cbn; rewrite <- ?app_assoc; reflexivity.
Qed.

Lemma master_port_is_relayed_undecoded_witness :
  exists s1 t,
    run_iteration proxy.parse listener (Ok ammo_chunk) master_pair
    = (Returns tt, s1, t) /\
    sent_of s1 (dest_conn listener)
    = sent_of master_pair (dest_conn listener)
      ++ ammo_chunk
         :: injected (_conn_type (conn master_pair listener))
              (parser.PACKET_QUEUE (process master_pair)) /\
    parser.PACKET_QUEUE (process s1)
    = left_over (_conn_type (conn master_pair listener))
        (parser.PACKET_QUEUE (process master_pair)) /\
    parser.stdout (process s1) = parser.stdout (process master_pair).
Proof.
  apply (master_port_is_relayed_undecoded listener ammo_chunk master_pair);
    [reflexivity | discriminate | reflexivity].
Defined.

End TurnSpec.

(* ================================================================== *)
(** * Properties of a generation: what its history records *)
(* ================================================================== *)

Module LedgerSpec.
Import Python helpers proxy wire relay frames ledger ProxySpec TurnSpec.

Lemma stop_retries_kept (self : conn_id) :
  respects retries_kept any_event (stop self).
Proof.
  apply respects_stop; intros; try exact I.
  - intros c. reflexivity.
  - intros c. rewrite H0. apply H.
  - intros c0. destruct s as [l k w], c, c0; reflexivity.
  - intros c0. destruct s as [l k w], c, c0; reflexivity.
Qed.

Lemma run_iteration_retries_kept (parse : decoder) (self : conn_id)
      (incoming : result bytes) :
  respects retries_kept any_event (run_iteration parse self incoming).
Proof.
  apply respects_run_iteration; intros; try exact I.
  - intros c. reflexivity.
  - intros c. rewrite H0. apply H.
  - apply stop_retries_kept.
  - intros c. now destruct s, c.
  - intros c. destruct s as [l k w], self, c; reflexivity.
Qed.

Lemma stop_stops_kept (self : conn_id) :
  respects stops_kept any_event (stop self).
Proof.
  apply respects_stop; intros; try exact I.
  - intros c H. exact H.
  - intros c Hc. apply H0, H, Hc.
  - intros c0. destruct s as [l k w], c, c0; cbn; auto.
  - intros c0. destruct s as [l k w], c, c0; cbn; auto.
Qed.

Lemma run_iteration_stops_kept (parse : decoder) (self : conn_id)
      (incoming : result bytes) :
  respects stops_kept (own_traffic self) (run_iteration parse self incoming).
Proof.
  apply respects_run_iteration; intros; try exact I; try reflexivity.
  - intros c H. exact H.
  - intros c Hc. apply H0, H, Hc.
  - apply respects_stop; intros; try exact I.
    + intros c H. exact H.
    + intros c Hc. apply H0, H, Hc.
    + intros c0. destruct s as [l k w], c, c0; cbn; auto.
    + intros c0. destruct s as [l k w], c, c0; cbn; auto.
  - intros c. now destruct s, c.
  - intros c. destruct s as [l k w], self, c; cbn; auto.
Qed.

Lemma run_iteration_forwards (parse : decoder) (self : conn_id)
      (incoming : result bytes) :
  respects (forwards self) any_event (run_iteration parse self incoming).
Proof.
  apply respects_run_iteration; intros; try exact I.
  - apply forwards_refl.
  - eapply forwards_trans; eassumption.
  - apply respects_stop; intros; try exact I.
    + apply forwards_refl.
    + eapply forwards_trans; eassumption.
    + apply forwards_stop.
    + now apply forwards_close.
  - apply forwards_process.
  - now apply forwards_append.
Qed.


Ltac server_cases :=
  first
    [ left; split; reflexivity
    | right; eexists; split; [reflexivity|]; left; reflexivity
    | right; eexists; split; [reflexivity|]; right; split; reflexivity ].

(** A turn of a SERVER connection that does not stay blocked: it read
    nothing and wrote nothing, or it read one chunk and either appended
    it to what the destination's socket was sent or stopped. *)
Lemma serving_turn (parse : decoder) (self : conn_id)
      (incoming : result bytes) (s : state) o s' t :
  _conn_type (conn s self) = SERVER ->
  has_sock s (dest_conn self) = true ->
  run_iteration parse self incoming s = (o, s', t) ->
  o <> Blocks ->
  (received self t = [] /\
   sent_of s' (dest_conn self) = sent_of s (dest_conn self))
  \/ exists d,
      received self t = [d] /\
      (sent_of s' (dest_conn self) = sent_of s (dest_conn self) ++ [d]
       \/ (sent_of s' (dest_conn self) = sent_of s (dest_conn self)
           /\ _stop_event (conn s' self) = true)).
Proof.
  destruct self; cbn [dest_conn].
  - destruct s as [[se1 ce1 r1 sk1 ct1 p1]
                   [se2 ce2 r2 [[st2 sent2]|] ct2 p2] w];
      cbn [conn the_listener _conn_type];
      intros -> Hs; try discriminate Hs.
    destruct incoming as [data|e];
      [destruct data as [|d0 data];
       [|destruct (parse (d0 :: data) p1 SERVER w) as [[u|e] w'] eqn:E]|];
      destruct sk1 as [[st1 sent1]|], se1, se2, ce2, st2;
      try destruct st1;
      intros H Hb; unroll_in H; rewrite ?E in H; unroll_in H; pair3 H;
      try (exfalso; apply Hb; reflexivity); server_cases.
  - destruct s as [[se1 ce1 r1 [[st1 sent1]|] ct1 p1]
                   [se2 ce2 r2 sk2 ct2 p2] w];
      cbn [conn the_broker _conn_type];
      intros -> Hs; try discriminate Hs.
    destruct incoming as [data|e];
      [destruct data as [|d0 data];
       [|destruct (parse (d0 :: data) p2 SERVER w) as [[u|e] w'] eqn:E]|];
      destruct sk2 as [[st2 sent2]|], se1, se2, ce1, st1;
      try destruct st2;
      intros H Hb; unroll_in H; rewrite ?E in H; unroll_in H; pair3 H;
      try (exfalso; apply Hb; reflexivity); server_cases.
Qed.


(** ** Sockets are used after the connection opened *)

Lemma history_advance (sys : system) (c : conn_id) (p : pc) (s : state)
      (t : list event) :
  history (advance sys c p s t) = history sys ++ t.
Proof. now destruct c. Qed.

Lemma traffic_after_open_app (h t : list event) :
  traffic_after_open h ->
  Forall (fun e => forall c, touches e c -> In (ev_conn_set c) h) t ->
  traffic_after_open (h ++ t).
Proof.
  intros Hh Ht h1 e h2 c E He.
  apply app_eq_app in E as [l [[E1 E2]|[E1 E2]]].
  - destruct l as [|e' l].
    + simpl in E2. rewrite app_nil_r in E1. subst h1.
      rewrite <- E2 in Ht. inversion Ht as [|? ? F _]. now apply F.
    + injection E2 as <- _. exact (Hh h1 e l c E1 He).
  - subst h1. apply in_or_app. left.
    rewrite E2 in Ht. apply Forall_app in Ht as [_ Ht].
    inversion Ht as [|? ? F _]. now apply F.
Qed.

(** Until the destination has signalled, a turn emits its read at most. *)
Lemma run_iteration_idle_events (parse : decoder) (self : conn_id)
      (incoming : result bytes) (s : state) o s' t :
  _conn_event (conn s (dest_conn self)) = false ->
  run_iteration parse self incoming s = (o, s', t) ->
  Forall (fun e => forall c, touches e c -> c = self) t.
Proof.
  intros Hc H. rewrite run_iteration_unfold in H.
  unfold bind at 1 in H. unfold receive in H.
  destruct (_sock (conn s self)); [|pair3 H; constructor].
  destruct incoming as [data|e]; [|pair3 H; constructor].
  unfold bind at 1 in H. unfold send in H. unfold bind at 1 in H.
  unfold await_conn in H. rewrite Hc in H. pair3 H.
  repeat constructor. intros c Hcc. symmetry. exact Hcc.
Qed.

Lemma turn_traffic (parse : decoder) (self : conn_id)
      (incoming : result bytes) (s : state) o s' t :
  run_iteration parse self incoming s = (o, s', t) ->
  Forall (fun e => forall c, touches e c ->
                     c = self \/
                     (c = dest_conn self /\
                      _conn_event (conn s (dest_conn self)) = true)) t.
Proof.
  intros H.
  destruct (_conn_event (conn s (dest_conn self))) eqn:Ec.
  - destruct (run_iteration_stops_kept parse self incoming _ _ _ _ H)
      as [_ Ev].
    revert Ev. apply Forall_impl.
    intros e0 He c0 Hc. destruct e0; cbn in *; try contradiction; subst; auto.
  - pose proof (run_iteration_idle_events parse self incoming s o s' t Ec H)
      as Ev.
    revert Ev. apply Forall_impl. intros e He c Hc. left. now apply He.
Qed.

Lemma opening_invariant_initial (p : Z) (w : parser.world) :
  opening_invariant (initial p w).
Proof.
  constructor.
  - intros c. destruct c; discriminate.
  - intros h1 e h2 c E. destruct h1; discriminate.
Qed.

Ltac no_traffic :=
  apply traffic_after_open_app; [assumption|];
  repeat constructor; intros ? F; contradiction F.

Lemma opening_invariant_step (parse : decoder) (sys sys' : system) :
  pair_invariant sys -> opening_invariant sys -> step parse sys sys' ->
  opening_invariant sys'.
Proof.
  intros Pair [Iset Itr] Hstep.
  inversion Hstep as
      [ c ? Hpc Hty | c ? Hpc | c ? Hpc | c ? Hpc Hty
      | c ? s t Hpc Haw | c ? Hpc | c ? Hpc | c ? Hpc | c ? Hpc
      | c ? incoming s t Hpc Hrun Hit | c ? incoming e s t Hpc Hrun Hit
      | c ? Hpc Hrun | c ? sk Hsk Hst ]; subst;
    repeat match goal with v := _ |- _ => subst v end.
  - constructor; rewrite ?shared_advance, ?history_advance; [|no_traffic].
    intros c0 Hev. apply in_or_app. auto.
  - constructor; rewrite ?shared_advance, ?history_advance; [|no_traffic].
    intros c0 Hev. apply in_or_app. auto.
  - constructor; rewrite ?shared_advance, ?history_advance; [|no_traffic].
    intros c0 Hev. apply in_or_app. left. apply Iset.
    destruct sys as [[l k w] pl pb h], c, c0; exact Hev.
  - constructor; rewrite ?shared_advance, ?history_advance; [|no_traffic].
    intros c0 Hev. apply in_or_app. auto.
  - unfold await_conn in Haw.
    destruct (_conn_event (conn (shared sys) (dest_conn c))); [|discriminate].
    pair3 Haw.
    constructor; rewrite ?shared_advance, ?history_advance; [|no_traffic].
    intros c0 Hev. apply in_or_app. left. apply Iset.
    destruct sys as [[l k w] pl pb h], c, c0; exact Hev.
  - constructor; rewrite ?shared_advance, ?history_advance; [|no_traffic].
    intros c0 Hev. apply in_or_app. left. apply Iset.
    destruct sys as [[l k w] pl pb h], c, c0; exact Hev.
  - constructor; rewrite ?shared_advance, ?history_advance; [|no_traffic].
    intros c0 Hev. apply in_or_app. left. apply Iset.
    destruct sys as [[l k w] pl pb h], c, c0; exact Hev.
  - constructor; rewrite ?shared_advance, ?history_advance; [|no_traffic].
    intros c0 Hev. apply in_or_app. left. apply Iset.
    destruct sys as [[l k w] pl pb h], c, c0; exact Hev.
  - constructor; rewrite ?shared_advance, ?history_advance; [|no_traffic].
    intros c0 Hev.
    destruct (conn_id_eqb c0 c) eqn:Ecc.
    + assert (c0 = c) by (destruct c0, c; try reflexivity; discriminate Ecc).
      subst c0.
      apply in_or_app. right. now left.
    + apply in_or_app. left. apply Iset.
      destruct sys as [[l k w] pl pb h], c, c0; try discriminate Ecc; exact Hev.
  - destruct (run_iteration_frame parse c incoming _ _ _ _ Hit) as [Fr _].
    pose proof (turn_traffic parse c incoming _ _ _ _ Hit) as Tr.
    constructor; rewrite ?shared_advance, ?history_advance.
    + intros c0 Hev. apply in_or_app. left. apply Iset.
      destruct (Fr c0) as [<- _]. exact Hev.
    + apply traffic_after_open_app; [assumption|].
      revert Tr. apply Forall_impl. intros e0 He c0 Hc.
      destruct (He c0 Hc) as [->|[-> Hd]].
      * apply Iset. exact (pi_run sys Pair c Hpc).
      * apply Iset. exact Hd.
  - destruct (run_iteration_frame parse c incoming _ _ _ _ Hit) as [Fr _].
    pose proof (turn_traffic parse c incoming _ _ _ _ Hit) as Tr.
    constructor; rewrite ?shared_advance, ?history_advance.
    + intros c0 Hev. apply in_or_app. left. apply Iset.
      destruct (Fr c0) as [<- _]. exact Hev.
    + apply traffic_after_open_app; [assumption|].
      revert Tr. apply Forall_impl. intros e0 He c0 Hc.
      destruct (He c0 Hc) as [->|[-> Hd]].
      * apply Iset. exact (pi_run sys Pair c Hpc).
      * apply Iset. exact Hd.
  - constructor; rewrite ?shared_advance, ?history_advance; [|no_traffic].
    intros c0 Hev. apply in_or_app. auto.
  - constructor; cbn [shared history]; [|assumption].
    intros c0 Hev. apply Iset.
    destruct sys as [[l k w] pl pb h], c, c0; exact Hev.
Qed.

Lemma reachable_opening_invariant (parse : decoder) (p : Z) (w : parser.world)
      (sys : system) :
  reachable parse p w sys -> opening_invariant sys.
Proof.
  induction 1 as [|sys sys' Hr IH Hstep].
  - apply opening_invariant_initial.
  - exact (opening_invariant_step parse sys sys'
             (reachable_pair_invariant parse p w sys Hr) IH Hstep).
Qed.


(** ** Attempts, sleeps, accepts *)

Lemma sleeps_app (h t : list event) : sleeps (h ++ t) = sleeps h ++ sleeps t.
Proof. apply flat_map_app. Qed.

Lemma received_app (c : conn_id) (h t : list event) :
  received c (h ++ t) = received c h ++ received c t.
Proof. apply flat_map_app. Qed.

Lemma count_app (f : event -> bool) (h t : list event) :
  count f (h ++ t) = count f h + count f t.
Proof. unfold count. now rewrite filter_app, length_app. Qed.

Lemma quiet_sleeps (t : list event) : Forall uncounted t -> sleeps t = [].
Proof.
  induction 1 as [|e t He _ IH]; [reflexivity|].
  unfold sleeps in *. cbn [flat_map]. rewrite IH.
  destruct e; try reflexivity; contradiction.
Qed.

Lemma quiet_count (f : event -> bool) (t : list event) :
  (forall e, f e = true -> ~ uncounted e) ->
  Forall uncounted t -> count f t = 0.
Proof.
  intros Hf. induction 1 as [|e t He _ IH]; [reflexivity|].
  unfold count in *. cbn. destruct (f e) eqn:E; [|exact IH].
  destruct (Hf e E He).
Qed.

Lemma is_attempt_counted (c : conn_id) (e : event) :
  is_attempt c e = true -> ~ uncounted e.
Proof. destruct e; try discriminate. intros _ H. exact H. Qed.

Lemma is_accept_counted (e : event) : is_accept e = true -> ~ uncounted e.
Proof. destruct e; try discriminate. intros _ H. exact H. Qed.

Lemma is_connected_counted (e : event) :
  is_connected e = true -> ~ uncounted e.
Proof. destruct e; try discriminate. intros _ H. exact H. Qed.

Lemma not_opening_uncounted (t : list event) :
  Forall not_opening t -> Forall uncounted t.
Proof.
  apply Forall_impl. intros e H. destruct e; try exact I; exact H.
Qed.

Lemma schedule_next (l : list R) :
  l = map retry_interval (seq 0 (List.length l)) ->
  l ++ [retry_interval (List.length l)]
  = map retry_interval (seq 0 (List.length (l ++ [retry_interval (List.length l)]))).
Proof.
  intros H. rewrite length_app. cbn [List.length].
  rewrite seq_app, map_app. cbn. now rewrite <- H.
Qed.

Lemma attempt_invariant_initial (p : Z) (w : parser.world) :
  attempt_invariant (initial p w).
Proof.
  constructor; cbn; auto.
  intros c. now destruct c.
Qed.

(** A step that emits nothing of [open] and leaves the counters alone. *)
Lemma attempt_invariant_quiet (sys : system) (c : conn_id) (p : pc)
      (s : state) (t : list event) :
  attempt_invariant sys ->
  Forall uncounted t ->
  retries_kept (shared sys) s ->
  (connecting (pc_broker (advance sys c p s t)) -> connecting (pc_broker sys)) ->
  (pc_listener (advance sys c p s t) = at_start
   \/ pc_listener (advance sys c p s t) = in_accept ->
   pc_listener sys = at_start \/ pc_listener sys = in_accept) ->
  attempt_invariant (advance sys c p s t).
Proof.
  intros [Isl Ire Irf Iac Ifr Ico] Hq Hk Hb Hl.
  pose proof (quiet_sleeps t Hq) as Qs.
  pose proof (quiet_count is_accept t is_accept_counted Hq) as Qa.
  pose proof (quiet_count is_connected t is_connected_counted Hq) as Qc.
  pose proof (fun c0 => quiet_count (is_attempt c0) t (is_attempt_counted c0) Hq)
    as Qt.
  constructor; rewrite ?shared_advance, ?history_advance,
                 ?sleeps_app, ?count_app, ?Qs, ?Qa, ?Qc, ?Qt,
                 ?app_nil_r, ?Nat.add_0_r.
  - exact Isl.
  - intros c0. rewrite count_app, Qt, Nat.add_0_r, <- Ire. apply Hk.
  - intros Hc. apply Irf, Hb, Hc.
  - exact Iac.
  - intros Hc. apply Ifr, Hl, Hc.
  - exact Ico.
Qed.


Ltac same_point :=
  match goal with
  | sys : system, c : conn_id |- _ =>
      destruct sys as [[? ? ?] ? ? ?], c; cbn in *; unfold connecting;
      intuition (try congruence; try discriminate)
  end.

Lemma attempt_invariant_step (parse : decoder) (sys sys' : system) :
  invariant sys -> attempt_invariant sys -> step parse sys sys' ->
  attempt_invariant sys'.
Proof.
  intros Inv Att Hstep.
  pose proof (inv_pc_listener sys Inv) as [Pl1 Pl2].
  pose proof (inv_pc_broker sys Inv) as Pb.
  inversion Hstep as
      [ c ? Hpc Hty | c ? Hpc | c ? Hpc | c ? Hpc Hty
      | c ? s t Hpc Haw | c ? Hpc | c ? Hpc | c ? Hpc | c ? Hpc
      | c ? incoming s t Hpc Hrun Hit | c ? incoming e s t Hpc Hrun Hit
      | c ? Hpc Hrun | c ? sk Hsk Hst ]; subst;
    repeat match goal with v := _ |- _ => subst v end.
  - (* listen *)
    apply attempt_invariant_quiet;
      [assumption | repeat constructor | intros c0; reflexivity
      | clear Att Inv Hstep; same_point | clear Att Inv Hstep; same_point].
  - (* a thread dies *)
    apply attempt_invariant_quiet;
      [assumption | constructor | intros c0; reflexivity
      | clear Att Inv Hstep; same_point | clear Att Inv Hstep; same_point].
  - (* accept *)
    destruct c; [|contradiction].
    destruct Att as [Isl Ire Irf Iac Ifr Ico].
    assert (H0 : count is_accept (history sys) = 0) by (apply Ifr; auto).
    constructor; rewrite ?shared_advance, ?history_advance,
                   ?sleeps_app, ?count_app, ?app_nil_r;
      cbn [sleeps flat_map count filter is_accept is_connected is_attempt
           List.length app pc_listener pc_broker advance];
      rewrite ?app_nil_r, ?Nat.add_0_r.
    + exact Isl.
    + intros c0. rewrite count_app. cbn. rewrite Nat.add_0_r, <- Ire.
      destruct sys as [[l k w] pl pb h], c0; reflexivity.
    + exact Irf.
    + rewrite H0. cbn. lia.
    + intros [F|F]; discriminate F.
    + exact Ico.
  - (* the broker enters _connect *)
    apply attempt_invariant_quiet;
      [assumption | constructor | intros c0; reflexivity
      | clear Att Inv Hstep; same_point | clear Att Inv Hstep; same_point].
  - (* await_conn returns *)
    unfold await_conn in Haw.
    destruct (_conn_event (conn (shared sys) (dest_conn c))); [|discriminate].
    pair3 Haw.
    apply attempt_invariant_quiet;
      [assumption | constructor
      | intros c0; destruct sys as [[l k w] pl pb h], c, c0; reflexivity
      | clear Att Inv Hstep; same_point | clear Att Inv Hstep; same_point].
  - (* connect succeeds *)
    destruct c; [contradiction|].
    destruct Att as [Isl Ire Irf Iac Ifr Ico].
    destruct Irf as [Ia Ic]; [right; right; exact Hpc|].
    constructor; rewrite ?shared_advance, ?history_advance,
                   ?sleeps_app, ?count_app, ?app_nil_r;
      cbn [sleeps flat_map count filter is_accept is_connected is_attempt
           List.length app pc_listener pc_broker advance];
      rewrite ?app_nil_r, ?Nat.add_0_r.
    + exact Isl.
    + intros c0. rewrite count_app. rewrite <- Ire.
      destruct sys as [[l k w] pl pb h], c0; cbn; lia.
    + intros [F|[F|F]]; discriminate F.
    + exact Iac.
    + exact Ifr.
    + fold (count is_connected (history sys)). rewrite Ic. cbn. lia.
  - (* connect refused *)
    destruct c; [contradiction|].
    destruct Att as [Isl Ire Irf Iac Ifr Ico].
    destruct Irf as [Ia Ic]; [right; right; exact Hpc|].
    constructor; rewrite ?shared_advance, ?history_advance,
                   ?sleeps_app, ?count_app, ?app_nil_r;
      cbn [sleeps flat_map count filter is_accept is_connected is_attempt
           List.length app pc_listener pc_broker advance];
      rewrite ?app_nil_r, ?Nat.add_0_r.
    + rewrite (Ire broker), Ia. now apply schedule_next.
    + intros c0. rewrite count_app. rewrite <- Ire.
      destruct sys as [[l k w] pl pb h], c0; cbn; lia.
    + intros _. rewrite length_app. cbn.
      fold (count (is_attempt broker) (history sys)).
      fold (count is_connected (history sys)). lia.
    + exact Iac.
    + exact Ifr.
    + exact Ico.
  - (* connect fails otherwise *)
    destruct c; [contradiction|].
    destruct Att as [Isl Ire Irf Iac Ifr Ico].
    constructor; rewrite ?shared_advance, ?history_advance,
                   ?sleeps_app, ?count_app, ?app_nil_r;
      cbn [sleeps flat_map count filter is_accept is_connected is_attempt
           List.length app pc_listener pc_broker advance];
      rewrite ?app_nil_r, ?Nat.add_0_r.
    + exact Isl.
    + intros c0. rewrite count_app. rewrite <- Ire.
      destruct sys as [[l k w] pl pb h], c0; cbn; lia.
    + intros [F|[F|F]]; discriminate F.
    + exact Iac.
    + exact Ifr.
    + exact Ico.
  - (* the connection event is set *)
    apply attempt_invariant_quiet;
      [assumption | repeat constructor
      | intros c0; destruct sys as [[l k w] pl pb h], c, c0; reflexivity
      | clear Att Inv Hstep; same_point | clear Att Inv Hstep; same_point].
  - (* a turn of the run loop *)
    destruct (run_iteration_frame parse c incoming _ _ _ _ Hit) as [_ Ev].
    destruct (run_iteration_retries_kept parse c incoming _ _ _ _ Hit)
      as [Rk _].
    apply attempt_invariant_quiet;
      [assumption | now apply not_opening_uncounted | exact Rk
      | clear Att Inv Hstep Hit Rk Ev Hrun; same_point
      | clear Att Inv Hstep Hit Rk Ev Hrun; same_point].
  - (* a turn of the run loop raises *)
    destruct (run_iteration_frame parse c incoming _ _ _ _ Hit) as [_ Ev].
    destruct (run_iteration_retries_kept parse c incoming _ _ _ _ Hit)
      as [Rk _].
    apply attempt_invariant_quiet;
      [assumption | now apply not_opening_uncounted | exact Rk
      | clear Att Inv Hstep Hit Rk Ev Hrun; same_point
      | clear Att Inv Hstep Hit Rk Ev Hrun; same_point].
  - (* the run loop ends *)
    apply attempt_invariant_quiet;
      [assumption | repeat constructor | intros c0; reflexivity
      | clear Att Inv Hstep; same_point | clear Att Inv Hstep; same_point].
  - (* the peer resets a socket *)
    destruct Att as [Isl Ire Irf Iac Ifr Ico].
    constructor; cbn [shared history pc_listener pc_broker]; try assumption.
    intros c0. rewrite <- Ire.
    destruct sys as [[l k w] pl pb h], c, c0; reflexivity.
Qed.

Lemma reachable_attempt_invariant (parse : decoder) (p : Z) (w : parser.world)
      (sys : system) :
  reachable parse p w sys -> attempt_invariant sys.
Proof.
  induction 1 as [|sys sys' Hr IH Hstep].
  - apply attempt_invariant_initial.
  - exact (attempt_invariant_step parse sys sys'
             (reachable_invariant parse p w sys Hr) IH Hstep).
Qed.


(** ** From the server to the client *)

Lemma fidelity_invariant_initial (p : Z) (w : parser.world) :
  fidelity_invariant (initial p w).
Proof.
  constructor; cbn.
  - intros [F|[F|F]]; discriminate F.
  - auto.
  - exists []. auto.
Qed.

Lemma own_traffic_received (self : conn_id) (t : list event) :
  Forall (own_traffic self) t -> received (dest_conn self) t = [].
Proof.
  induction 1 as [|e t He _ IH]; [reflexivity|].
  unfold received in *. cbn [flat_map]. rewrite IH.
  destruct e; try reflexivity. cbn in He. subst.
  destruct self; reflexivity.
Qed.

(** A step that reads nothing on the broker's socket, writes nothing to
    the listener's, and clears no event. *)
Lemma fidelity_invariant_quiet (sys : system) (c : conn_id) (p : pc)
      (s : state) (t : list event) :
  fidelity_invariant sys ->
  received broker t = [] ->
  sent_of s listener = sent_of (shared sys) listener ->
  (_conn_event (conn s listener) = false ->
   _conn_event (conn (shared sys) listener) = false) ->
  (_stop_event (conn (shared sys) broker) = true ->
   _stop_event (conn s broker) = true) ->
  (past_await (pc_broker (advance sys c p s t)) ->
   _conn_event (conn s listener) = true) ->
  fidelity_invariant (advance sys c p s t).
Proof.
  intros [Iw Ib [tail [If Ht]]] Hr Hs Hc Hst Hp.
  constructor; rewrite ?shared_advance, ?history_advance, ?received_app,
                 ?Hr, ?app_nil_r, ?Hs.
  - exact Hp.
  - intros Hf. destruct (Ib (Hc Hf)) as [B1 B2]. split; [exact B1|].
    exact B2.
  - exists tail. split; [exact If|].
    destruct Ht as [Ht|[Ht1 Ht2]]; auto.
Qed.

Lemma fidelity_invariant_turn (parse : decoder) (sys : system) (c : conn_id)
      (incoming : result bytes) o (s : state) (t : list event) (p : pc) :
  invariant sys -> pair_invariant sys -> fidelity_invariant sys ->
  pc_of sys c = in_run -> is_running c (shared sys) = true ->
  run_iteration parse c incoming (shared sys) = (o, s, t) ->
  o <> Blocks ->
  fidelity_invariant (advance sys c p s t).
Proof.
  intros Inv Pair Fid Hpc Hrun Hit Ho.
  pose proof (fi_waited sys Fid) as Iw.
  destruct (run_iteration_frame parse c incoming _ _ _ _ Hit) as [Fr _].
  destruct (Fr listener) as [Fl _].
  destruct (run_iteration_stops_kept parse c incoming _ _ _ _ Hit) as [Sk Ev].
  destruct (run_iteration_forwards parse c incoming _ _ _ _ Hit)
    as [[Fw _] _].
  destruct c.
  - apply fidelity_invariant_quiet; auto.
    + exact (own_traffic_received listener t Ev).
    + congruence.
    + intros Hp. rewrite Fl. apply Iw.
      destruct sys as [[l k w] pl pb h]; exact Hp.
  - assert (Hc : _conn_event (conn (shared sys) listener) = true)
      by (apply Iw; right; right; exact Hpc).
    assert (Hs : has_sock (shared sys) listener = true)
      by (apply (pi_sock sys Pair listener); auto).
    destruct Fid as [_ Ib [tail [If Ht]]].
    assert (tail = []) as ->.
    { destruct Ht as [Ht|[_ Ht]]; [exact Ht|].
      unfold is_running in Hrun. rewrite Ht in Hrun. discriminate. }
    rewrite app_nil_r in If.
    constructor; rewrite ?shared_advance, ?history_advance, ?received_app.
    + intros _. congruence.
    + intros Hf. congruence.
    + destruct (serving_turn parse broker incoming _ _ _ _
                  (inv_broker sys Inv) Hs Hit Ho)
        as [[R1 R2]|[d [R1 [R2|[R2 R3]]]]]; cbn [dest_conn] in *;
        rewrite R1, R2, If.
      * exists []. auto.
      * exists []. rewrite app_nil_r. auto.
      * exists [d]. auto.
Qed.

Lemma fidelity_invariant_step (parse : decoder) (sys sys' : system) :
  invariant sys -> pair_invariant sys -> fidelity_invariant sys ->
  step parse sys sys' -> fidelity_invariant sys'.
Proof.
  intros Inv Pair Fid Hstep.
  pose proof (inv_pc_listener sys Inv) as [Pl1 Pl2].
  pose proof (inv_pc_broker sys Inv) as Pb.
  pose proof (fi_waited sys Fid) as Iw.
  inversion Hstep as
      [ c ? Hpc Hty | c ? Hpc | c ? Hpc | c ? Hpc Hty
      | c ? s t Hpc Haw | c ? Hpc | c ? Hpc | c ? Hpc | c ? Hpc
      | c ? incoming s t Hpc Hrun Hit | c ? incoming e s t Hpc Hrun Hit
      | c ? Hpc Hrun | c ? sk Hsk Hst ]; subst;
    repeat match goal with v := _ |- _ => subst v end.
  - (* listen *)
    apply fidelity_invariant_quiet; auto.
    clear Fid Inv Pair Hstep. unfold past_await in *.
    destruct sys as [[l k w] pl pb h], c; cbn in *;
      intuition (try congruence; try discriminate).
  - (* a thread dies *)
    apply fidelity_invariant_quiet; auto.
    clear Fid Inv Pair Hstep. unfold past_await in *.
    destruct sys as [[l k w] pl pb h], c; cbn in *;
      intuition (try congruence; try discriminate).
  - (* accept *)
    destruct c; [|contradiction].
    assert (Hc : _conn_event (conn (shared sys) listener) = false)
      by (apply not_signalled_yet; [assumption|congruence..]).
    destruct (fi_before sys Fid Hc) as [B1 B2].
    constructor; rewrite ?shared_advance, ?history_advance, ?received_app, ?B1.
    + intros Hp. apply Iw.
      destruct sys as [[l k w] pl pb h]; exact Hp.
    + intros _. split; [reflexivity|].
      destruct sys as [[l k w] pl pb h]; reflexivity.
    + exists []. split; [|auto].
      destruct sys as [[l k w] pl pb h]; reflexivity.
  - (* the broker enters _connect *)
    apply fidelity_invariant_quiet; auto.
    clear Fid Inv Pair Hstep. unfold past_await in *.
    destruct sys as [[l k w] pl pb h], c; cbn in *;
      intuition (try congruence; try discriminate).
  - (* await_conn returns *)
    destruct c; [contradiction|].
    unfold await_conn in Haw. cbn [dest_conn] in Haw.
    destruct (_conn_event (conn (shared sys) listener)) eqn:Ec; [|discriminate].
    pair3 Haw.
    apply fidelity_invariant_quiet; auto;
      destruct sys as [[l k w] pl pb h]; cbn in *; auto.
  - (* connect succeeds *)
    destruct c; [contradiction|].
    assert (Hc : _conn_event (conn (shared sys) listener) = true)
      by (apply Iw; left; exact Hpc).
    apply fidelity_invariant_quiet; auto;
      destruct sys as [[l k w] pl pb h]; cbn in *; auto; congruence.
  - (* connect refused *)
    destruct c; [contradiction|].
    assert (Hc : _conn_event (conn (shared sys) listener) = true)
      by (apply Iw; left; exact Hpc).
    apply fidelity_invariant_quiet; auto;
      destruct sys as [[l k w] pl pb h]; cbn in *; auto; congruence.
  - (* connect fails otherwise *)
    destruct c; [contradiction|].
    assert (Hc : _conn_event (conn (shared sys) listener) = true)
      by (apply Iw; left; exact Hpc).
    apply fidelity_invariant_quiet; auto;
      destruct sys as [[l k w] pl pb h]; cbn in *; auto; congruence.
  - (* the connection event is set *)
    apply fidelity_invariant_quiet; auto;
      clear Fid Inv Pair Hstep; unfold past_await in *;
      destruct sys as [[l k w] pl pb h], c; cbn in *;
      intuition (try congruence; try discriminate).
  - (* a turn of the run loop *)
    apply (fidelity_invariant_turn parse sys c incoming (Returns tt));
      auto; discriminate.
  - (* a turn of the run loop raises *)
    apply (fidelity_invariant_turn parse sys c incoming (Raises e));
      auto; discriminate.
  - (* the run loop ends *)
    apply fidelity_invariant_quiet; auto.
    clear Fid Inv Pair Hstep. unfold past_await in *.
    destruct sys as [[l k w] pl pb h], c; cbn in *;
      intuition (try congruence; try discriminate).
  - (* the peer resets a socket *)
    destruct Fid as [_ Ib [tail [If Ht]]].
    assert (Hs : sent_of (set_conn (shared sys) c
                            (set_status (conn (shared sys) c) reset)) listener
                 = sent_of (shared sys) listener).
    { unfold sent_of.
      destruct sys as [[l k w] pl pb h], c; cbn in *; try rewrite Hsk;
        reflexivity. }
    constructor; cbn [shared history pc_listener pc_broker]; rewrite ?Hs.
    + intros Hp. rewrite <- (Iw Hp).
      destruct sys as [[l k w] pl pb h], c; reflexivity.
    + intros Hf. apply Ib. rewrite <- Hf.
      destruct sys as [[l k w] pl pb h], c; reflexivity.
    + exists tail. split; [exact If|].
      destruct Ht as [Ht|[Ht1 Ht2]]; auto. right. split; [exact Ht1|].
      rewrite <- Ht2. destruct sys as [[l k w] pl pb h], c; reflexivity.
Qed.

Lemma reachable_fidelity_invariant (parse : decoder) (p : Z)
      (w : parser.world) (sys : system) :
  reachable parse p w sys -> fidelity_invariant sys.
Proof.
  induction 1 as [|sys sys' Hr IH Hstep].
  - apply fidelity_invariant_initial.
  - exact (fidelity_invariant_step parse sys sys'
             (reachable_invariant parse p w sys Hr)
             (reachable_pair_invariant parse p w sys Hr) IH Hstep).
Qed.

(** ** Sample runs *)

Lemma sys7_reachable : reachable proxy.parse 3000 wire.empty_world sys7.
Proof.
  exact (@reach_step _ _ _ sys6 sys7 sys6_reachable
           (@step_signal proxy.parse broker sys6 eq_refl)).
Defined.

Lemma sys8_reachable : reachable proxy.parse 3000 wire.empty_world sys8.
Proof.
  exact (@reach_step _ _ _ sys7 sys8 sys7_reachable
           (@step_iteration proxy.parse broker sys7 (Ok mana_chunk) _ _
              eq_refl eq_refl eq_refl)).
Defined.

Lemma sys9_reachable : reachable proxy.parse 3000 wire.empty_world sys9.
Proof.
  exact (@reach_step _ _ _ sys7 sys9 sys7_reachable
           (@step_iteration proxy.parse listener sys7 (Ok ammo_chunk) _ _
              eq_refl eq_refl eq_refl)).
Defined.

Lemma sys5_reachable : reachable proxy.parse 3000 wire.empty_world sys5.
Proof.
  refine (@reach_step _ _ _ sys4 sys5 _
            (@step_await_done proxy.parse broker sys4 (shared sys4) []
               eq_refl eq_refl)).
  refine (@reach_step _ _ _ sys3 sys4 _
            (@step_connect_enter proxy.parse broker sys3 eq_refl eq_refl)).
  refine (@reach_step _ _ _ sys2 sys3 _
            (@step_signal proxy.parse listener sys2 eq_refl)).
  refine (@reach_step _ _ _ sys1 sys2 _
            (@step_accept proxy.parse listener sys1 eq_refl)).
  refine (@reach_step _ _ _ sys0 sys1 _
            (@step_listen proxy.parse listener sys0 eq_refl eq_refl)).
  apply reach_initial.
Defined.

Lemma sys5_refused_reachable :
  reachable proxy.parse 3000 wire.empty_world sys5_refused.
Proof.
  exact (@reach_step _ _ _ sys5 sys5_refused sys5_reachable
           (@step_connect_refused proxy.parse broker sys5 eq_refl)).
Defined.

(** ** The properties *)

(** X21.  In every state a generation can reach, the retry counter of
    each connection equals the number of connect attempts it has made,
    successful or not, and the sleeps between refused attempts follow the
    retry schedule: the k-th sleep (counting from 0) lasts
    [retry_interval k]. *)
Theorem backoff_follows_schedule
        (parse : decoder) (p : Z) (w : parser.world) (sys : system) :
  reachable parse p w sys ->
  sleeps (history sys)
  = map retry_interval (seq 0 (List.length (sleeps (history sys))))
  /\ forall c, _retries (conn (shared sys) c)
               = count (is_attempt c) (history sys).
Proof.
  intros Hr. pose proof (reachable_attempt_invariant parse p w sys Hr) as Inv.
  split; [exact (ai_sleeps sys Inv)|exact (ai_retries sys Inv)].
Qed.

Lemma backoff_follows_schedule_witness :
  sleeps (history sys5_refused)
  = map retry_interval (seq 0 (List.length (sleeps (history sys5_refused))))
  /\ forall c, _retries (conn (shared sys5_refused) c)
               = count (is_attempt c) (history sys5_refused).
Proof.
  exact (backoff_follows_schedule proxy.parse 3000 wire.empty_world
           sys5_refused sys5_refused_reachable).
Defined.

(** X22.  In every state a generation can reach, at most one client has
    been accepted and at most one connect has succeeded. *)
Theorem accepts_and_connects_once
        (parse : decoder) (p : Z) (w : parser.world) (sys : system) :
  reachable parse p w sys ->
  count is_accept (history sys) <= 1 /\ count is_connected (history sys) <= 1.
Proof.
  intros Hr. pose proof (reachable_attempt_invariant parse p w sys Hr) as Inv.
  split; [exact (ai_accepts sys Inv)|exact (ai_connects sys Inv)].
Qed.

Lemma accepts_and_connects_once_witness :
  count is_accept (history sys8) <= 1 /\ count is_connected (history sys8) <= 1.
Proof.
  exact (accepts_and_connects_once proxy.parse 3000 wire.empty_world
           sys8 sys8_reachable).
Defined.

(** X23.  In every state a generation can reach, each read on a
    connection's socket and each write to it comes after that connection
    set its connection event: nothing is forwarded to a socket that is not
    open yet. *)
Theorem sockets_used_after_open
        (parse : decoder) (p : Z) (w : parser.world) (sys : system)
        (h1 : list event) (e : event) (h2 : list event) (c : conn_id) :
  reachable parse p w sys ->
  history sys = h1 ++ e :: h2 -> touches e c ->
  In (ev_conn_set c) h1.
Proof.
  intros Hr.
  exact (oi_traffic sys (reachable_opening_invariant parse p w sys Hr)
           h1 e h2 c).
Qed.

Lemma sockets_used_after_open_witness :
  In (ev_conn_set listener)
     [ev_listen listener; ev_accept listener; ev_conn_set listener;
      ev_print (line_new_connection listener); ev_connect broker true;
      ev_conn_set broker; ev_print (line_new_connection broker);
      ev_recv broker mana_chunk].
Proof.
  exact (sockets_used_after_open proxy.parse 3000 wire.empty_world sys8
           [ev_listen listener; ev_accept listener; ev_conn_set listener;
            ev_print (line_new_connection listener); ev_connect broker true;
            ev_conn_set broker; ev_print (line_new_connection broker);
            ev_recv broker mana_chunk]
           (ev_sendall listener mana_chunk true) [ev_parse mana_chunk]
           listener sys8_reachable eq_refl eq_refl).
Defined.

(** X24.  In every state a generation can reach, what the client's
    socket was sent is what the broker read from the server, chunk by
    chunk and in the order read, with nothing added.  At most the last
    chunk read is missing, and only when the broker has stopped. *)
Theorem client_is_sent_what_the_broker_read
        (parse : decoder) (p : Z) (w : parser.world) (sys : system) :
  reachable parse p w sys ->
  exists tail,
    received broker (history sys) = sent_of (shared sys) listener ++ tail /\
    List.length tail <= 1 /\
    (is_running broker (shared sys) = true -> tail = []).
Proof.
  intros Hr.
  destruct (fi_fidelity sys (reachable_fidelity_invariant parse p w sys Hr))
    as (tail & H & Ht).
  exists tail. split; [exact H|].
  destruct Ht as [->|[Hl Hs]].
  - split; [cbn; lia|reflexivity].
  - split; [lia|]. unfold is_running. rewrite Hs. discriminate.
Qed.

Lemma client_is_sent_what_the_broker_read_witness :
  exists tail,
    received broker (history sys8) = sent_of (shared sys8) listener ++ tail /\
    List.length tail <= 1 /\
    (is_running broker (shared sys8) = true -> tail = []).
Proof.
  exact (client_is_sent_what_the_broker_read proxy.parse 3000
           wire.empty_world sys8 sys8_reachable).
Defined.

End LedgerSpec.

(* ================================================================== *)
(** * Properties of a generation: what reaches the server *)
(* ================================================================== *)

Module InjectionSpec.
Import Python helpers proxy wire relay frames ledger.
Import ProxySpec HandlerSpec TurnSpec LedgerSpec.

Lemma decoded_queue (data : bytes) (p : Z) (origin : ConnectionType)
      (w : parser.world) r q' out' :
  forallb is_request (parser.PACKET_QUEUE w) = true ->
  parser.parse data p origin w
  = (r, {| parser.PACKET_QUEUE := q'; parser.stdout := out' |}) ->
  forallb is_request q' = true.
Proof.
  intros Hq E.
  destruct (parse_extends data p origin w) as (q & out & Hx & Hr).
  rewrite E in Hx. cbn [snd] in Hx. unfold extend in Hx.
  injection Hx as -> _. rewrite forallb_app, Hq, Hr. reflexivity.
Qed.

Ltac writes_cases :=
  cbn [sent_of conn the_listener the_broker _sock sent process
       parser.PACKET_QUEUE received flat_map conn_id_eqb app];
  split; [cbn [forallb]; rewrite ?andb_true_iff; auto|];
  first
    [ exists []; split; [now rewrite app_nil_r|constructor]
    | eexists; split; [rewrite <- ?app_assoc; reflexivity|];
      repeat (apply Forall_cons;
              [first [right; assumption | left; cbn; now auto]|]);
      apply Forall_nil ].

Lemma turn_injects (self : conn_id) (incoming : result bytes) (s : state)
      o s' t :
  forallb is_request (parser.PACKET_QUEUE (process s)) = true ->
  run_iteration proxy.parse self incoming s = (o, s', t) ->
  forallb is_request (parser.PACKET_QUEUE (process s')) = true /\
  exists more,
    sent_of s' (dest_conn self) = sent_of s (dest_conn self) ++ more /\
    Forall (fun x => In x (received self t) \/ is_request x = true) more.
Proof.
  destruct s as [[se1 ce1 r1 sk1 ct1 p1] [se2 ce2 r2 sk2 ct2 p2] [q out]].
  cbn [process parser.PACKET_QUEUE]. intros Hq.
  destruct self.
  - destruct incoming as [data|e];
      [destruct data as [|d0 data];
       [destruct q as [|pkt q]; [|cbn in Hq; apply andb_true_iff in Hq as [Hp Hq]]
       |destruct (parser.parse (d0 :: data) p1 ct1
                    {| parser.PACKET_QUEUE := q; parser.stdout := out |})
          as [[u|e] [q' out']] eqn:E;
        pose proof (decoded_queue _ _ _
                      {| parser.PACKET_QUEUE := q; parser.stdout := out |}
                      _ _ _ Hq E) as Hq';
        (destruct q' as [|pkt q'];
         [|cbn in Hq'; apply andb_true_iff in Hq' as [Hp Hq']])]|];
      destruct sk1 as [[st1 sent1]|], sk2 as [[st2 sent2]|], se1, se2, ce2, ct1;
      try destruct st1; try destruct st2;
      intros H; unroll_in H; rewrite ?E in H; unroll_in H;
      pair3 H; writes_cases.
  - destruct incoming as [data|e];
      [destruct data as [|d0 data];
       [destruct q as [|pkt q]; [|cbn in Hq; apply andb_true_iff in Hq as [Hp Hq]]
       |destruct (parser.parse (d0 :: data) p2 ct2
                    {| parser.PACKET_QUEUE := q; parser.stdout := out |})
          as [[u|e] [q' out']] eqn:E;
        pose proof (decoded_queue _ _ _
                      {| parser.PACKET_QUEUE := q; parser.stdout := out |}
                      _ _ _ Hq E) as Hq';
        (destruct q' as [|pkt q'];
         [|cbn in Hq'; apply andb_true_iff in Hq' as [Hp Hq']])]|];
      destruct sk1 as [[st1 sent1]|], sk2 as [[st2 sent2]|], se1, se2, ce1, ct2;
      try destruct st1; try destruct st2;
      intros H; unroll_in H; rewrite ?E in H; unroll_in H;
      pair3 H; writes_cases.
Qed.


Lemma relayed_or_request_app (h t : list event) (x : bytes) :
  relayed_or_request h x -> relayed_or_request (h ++ t) x.
Proof.
  unfold relayed_or_request. rewrite received_app.
  intros [H|H]; [left; apply in_or_app|]; auto.
Qed.

Lemma injection_invariant_initial (p : Z) (w : parser.world) :
  forallb is_request (parser.PACKET_QUEUE w) = true ->
  injection_invariant (initial p w).
Proof. intros H. constructor; [exact H|constructor]. Qed.

(** A step that leaves the queue alone and writes nothing to the
    broker's socket. *)
Lemma injection_invariant_quiet (sys : system) (c : conn_id) (p : pc)
      (s : state) (t : list event) :
  injection_invariant sys ->
  process s = process (shared sys) ->
  sent_of s broker = sent_of (shared sys) broker \/ sent_of s broker = [] ->
  injection_invariant (advance sys c p s t).
Proof.
  intros [Iq Is] Hp Hs.
  constructor; rewrite ?shared_advance, ?history_advance.
  - now rewrite Hp.
  - destruct Hs as [-> | ->]; [|constructor].
    revert Is. apply Forall_impl. intros x. apply relayed_or_request_app.
Qed.

Lemma injection_invariant_turn (sys : system) (c : conn_id)
      (incoming : result bytes) o (s : state) (t : list event) (p : pc) :
  injection_invariant sys ->
  run_iteration proxy.parse c incoming (shared sys) = (o, s, t) ->
  injection_invariant (advance sys c p s t).
Proof.
  intros [Iq Is] Hit.
  destruct (turn_injects c incoming _ _ _ _ Iq Hit) as (Hq & more & Hm & Hf).
  destruct (run_iteration_forwards proxy.parse c incoming _ _ _ _ Hit)
    as [[Fw _] _].
  constructor; rewrite ?shared_advance, ?history_advance; [exact Hq|].
  destruct c; cbn [dest_conn] in *.
  - rewrite Hm. apply Forall_app. split.
    + revert Is. apply Forall_impl. intros x. apply relayed_or_request_app.
    + revert Hf. apply Forall_impl. intros x [H|H]; [left|right; exact H].
      rewrite received_app. apply in_or_app. auto.
  - rewrite Fw.
    revert Is. apply Forall_impl. intros x. apply relayed_or_request_app.
Qed.

Lemma injection_invariant_step (sys sys' : system) :
  injection_invariant sys -> step proxy.parse sys sys' ->
  injection_invariant sys'.
Proof.
  intros Inj Hstep.
  inversion Hstep as
      [ c ? Hpc Hty | c ? Hpc | c ? Hpc | c ? Hpc Hty
      | c ? s t Hpc Haw | c ? Hpc | c ? Hpc | c ? Hpc | c ? Hpc
      | c ? incoming s t Hpc Hrun Hit | c ? incoming e s t Hpc Hrun Hit
      | c ? Hpc Hrun | c ? sk Hsk Hst ]; subst;
    repeat match goal with v := _ |- _ => subst v end;
    try (apply injection_invariant_quiet; [assumption | | ];
         unfold sent_of;
         destruct sys as [[l k w] pl pb h], c; cbn; auto; fail).
  - (* await_conn returns *)
    unfold await_conn in Haw.
    destruct (_conn_event (conn (shared sys) (dest_conn c))); [|discriminate].
    pair3 Haw.
    apply injection_invariant_quiet; [assumption | | ];
      unfold sent_of; destruct sys as [[l k w] pl pb h], c; cbn; auto.
  - (* connect succeeds *)
    apply injection_invariant_quiet; [assumption | | ];
      unfold sent_of;
      destruct sys as [[l [? ? ? [?|] ? ?] w] pl pb h], c; cbn; auto.
  - (* a turn of the run loop *)
    now apply (injection_invariant_turn sys c incoming (Returns tt)).
  - (* a turn of the run loop raises *)
    now apply (injection_invariant_turn sys c incoming (Raises e)).
  - (* the peer resets a socket *)
    destruct Inj as [Iq Is].
    constructor; cbn [shared history].
    + destruct sys as [[l k w] pl pb h], c; exact Iq.
    + replace (sent_of (set_conn (shared sys) c
                          (set_status (conn (shared sys) c) reset)) broker)
        with (sent_of (shared sys) broker); [exact Is|].
      unfold sent_of.
      destruct sys as [[l k w] pl pb h], c; cbn in *; try rewrite Hsk;
        reflexivity.
Qed.

Lemma reachable_injection_invariant (p : Z) (w : parser.world) (sys : system) :
  forallb is_request (parser.PACKET_QUEUE w) = true ->
  reachable proxy.parse p w sys -> injection_invariant sys.
Proof.
  intros Hw. induction 1 as [|sys sys' Hr IH Hstep].
  - now apply injection_invariant_initial.
  - exact (injection_invariant_step sys sys' IH Hstep).
Qed.

(** X25.  With the decoder of [parser.py], started from a queue that
    holds only requests, every state a generation can reach has sent the
    server's socket nothing but chunks the listener read from the client
    and reload or pickup requests, and its queue holds only such
    requests. *)
Theorem server_is_sent_chunks_and_requests
        (p : Z) (w : parser.world) (sys : system) :
  forallb is_request (parser.PACKET_QUEUE w) = true ->
  reachable proxy.parse p w sys ->
  Forall (relayed_or_request (history sys)) (sent_of (shared sys) broker)
  /\ forallb is_request (parser.PACKET_QUEUE (process (shared sys))) = true.
Proof.
  intros Hw Hr.
  pose proof (reachable_injection_invariant p w sys Hw Hr) as Inv.
  split; [exact (ii_server sys Inv)|exact (ii_queue sys Inv)].
Qed.

Lemma server_is_sent_chunks_and_requests_witness :
  Forall (relayed_or_request (history sys9)) [ammo_chunk; reload_packet]
  /\ forallb is_request (parser.PACKET_QUEUE (process (shared sys9))) = true.
Proof.
  exact (server_is_sent_chunks_and_requests 3000 wire.empty_world sys9
           eq_refl sys9_reachable).
Defined.

End InjectionSpec.
